(** * simpleRT: a shallow embedding of the recursive ray tracer

    The development follows [simpleRT_plugin.py]: [RT_trace_ray] (the
    shading of one ray: shadow rays, Blinn-Phong, ambient fallback,
    Fresnel, reflection and transmission), [RT_render_scene] (the
    pixel loop) and [SimpleRTRenderEngine.render_scene] (the engine that
    drives the pixel loop row by row and hands the buffer to Blender).

    Numbers.  Python floats are idealised as exact rationals [Q]; the two
    operations that leave the rationals, the square root and the power
    with a float exponent, are parameters of the development, so every
    theorem holds for each implementation of them.  A division whose
    divisor is zero has no value in this model: mathutils and Python
    floats raise ZeroDivisionError there and numpy yields inf or nan, and
    the model stops at that division with the outcome [Fault DivByZero].

    Scene.  Blender's [Scene.ray_cast] is the intersection oracle; it is
    a field of the scene.  Every query of the oracle is recorded in an
    event log, so that theorems can speak about the rays that are cast. *)

From Stdlib Require Import ZArith QArith Qabs List Bool Lia Lqa.
Import ListNotations.

Local Open Scope Q_scope.

(** ** Float comparisons *)

(** [a > b] *)
Definition Qgtb (a b : Q) : bool := negb (Qle_bool a b).
(** [a >= b] *)
Definition Qgeb (a b : Q) : bool := Qle_bool b a.

(** ** Vectors: [mathutils.Vector] of size 3 and numpy arrays of shape (3,) *)

Record Vector : Type := mkVector { vx : Q; vy : Q; vz : Q }.

(** [np.zeros(3)] *)
Definition zeros : Vector := mkVector 0 0 0.

(** [a + b] *)
Definition vadd (a b : Vector) : Vector :=
  mkVector (vx a + vx b) (vy a + vy b) (vz a + vz b).

(** [a - b] *)
Definition vsub (a b : Vector) : Vector :=
  mkVector (vx a - vx b) (vy a - vy b) (vz a - vz b).

(** [-a] *)
Definition vneg (a : Vector) : Vector :=
  mkVector (- vx a) (- vy a) (- vz a).

(** [k * a], a scalar on the left *)
Definition smul (k : Q) (a : Vector) : Vector :=
  mkVector (k * vx a) (k * vy a) (k * vz a).

(** [a * k], a scalar on the right *)
Definition muls (a : Vector) (k : Q) : Vector :=
  mkVector (vx a * k) (vy a * k) (vz a * k).

(** [a * b], element by element *)
Definition vmul (a b : Vector) : Vector :=
  mkVector (vx a * vx b) (vy a * vy b) (vz a * vz b).

(** [a / k], without the check of the divisor *)
Definition divs (a : Vector) (k : Q) : Vector :=
  mkVector (vx a / k) (vy a / k) (vz a / k).

(** [a.dot(b)], [np.dot(a, b)] *)
Definition vdot (a b : Vector) : Q :=
  vx a * vx b + vy a * vy b + vz a * vz b.

(** [a.length_squared] *)
Definition length_squared (a : Vector) : Q := vdot a a.

(** Equality of vectors as numbers (component by component). *)
Definition veq (a b : Vector) : Prop :=
  vx a == vx b /\ vy a == vy b /\ vz a == vz b.

(** Every component is non-negative. *)
Definition vnonneg (a : Vector) : Prop :=
  0 <= vx a /\ 0 <= vy a /\ 0 <= vz a.

(** ** Events and outcomes *)

(** What the program does that can be observed from outside:
    - [EvTrace o d k]: [RT_trace_ray] was entered with ray [(o, d)] and
      depth [k]; its first statement queries the oracle with [(o, d)];
    - [EvShadow o d]: the oracle query of the light loop;
    - [EvPixel y x]: the frame renderer wrote pixel [buf[y, x]];
    - [EvYield y]: the frame renderer yielded row [y]. *)
Inductive event : Type :=
| EvTrace (orig dir : Vector) (depth : Z)
| EvShadow (orig dir : Vector)
| EvPixel (y x : Z)
| EvYield (y : Z).

Inductive fault : Type :=
| DivByZero
| IndexOutOfBounds.

Inductive outcome (A : Type) : Type :=
| Done (a : A)
| Fault (f : fault)
| OutOfFuel.

Arguments Done {A} a.
Arguments Fault {A} f.
Arguments OutOfFuel {A}.

(** A computation: the events it produced, in order, and how it ended. *)
Definition M (A : Type) : Type := (list event * outcome A)%type.

Definition ret {A} (a : A) : M A := ([], Done a).

Definition raise {A} (f : fault) : M A := ([], Fault f).

Definition emit (e : event) : M unit := ([e], Done tt).

Definition bind {A B} (m : M A) (k : A -> M B) : M B :=
  match m with
  | (l, Done a) => let (l', r) := k a in (l ++ l', r)
  | (l, Fault f) => (l, Fault f)
  | (l, OutOfFuel) => (l, OutOfFuel)
  end.

Notation "x <- m ;; k" := (bind m (fun x => k))
  (at level 61, m at next level, right associativity).
Notation "m ;;; k" := (bind m (fun _ => k))
  (at level 61, right associativity).

(** A scalar division with its check. *)
Definition qdiv (a b : Q) : M Q :=
  if Qeq_bool b 0 then raise DivByZero else ret (a / b).

(** A vector divided by a scalar, with its check. *)
Definition vdiv (a : Vector) (k : Q) : M Vector :=
  if Qeq_bool k 0 then raise DivByZero else ret (divs a k).

(** ** The scene *)

(** [simpleRT_material]; the colours are the [.xyz] part. *)
Record Material : Type := mkMaterial {
  diffuse_color : Vector;
  specular_color : Vector;
  specular_hardness : Q;
  mirror_reflectivity : Q;
  use_fresnel : bool;
  ior : Q;
  transmission : Q
}.

(** A light object: [light.location], [simpleRT_light.color] and
    [simpleRT_light.energy]. *)
Record Light : Type := mkLight {
  location : Vector;
  light_rgb : Vector;
  energy : Q
}.

(** What [ray_cast] returns, as far as the tracer reads it:
    [has_hit, hit_loc, hit_norm] and the material of [hit_obj]. *)
Record Hit : Type := mkHit {
  has_hit : bool;
  hit_loc : Vector;
  hit_norm : Vector;
  hit_mat : Material
}.

(** [scene.objects]: the tracer looks at the lights only. *)
Inductive SceneObject : Type :=
| LightObject (light : Light)
| OtherObject (loc : Vector).

(** [rotation_euler]: three angles. *)
Record Euler : Type := mkEuler { ex : Q; ey : Q; ez : Q }.

(** [scene.camera]: location, orientation, [data.lens] and
    [data.sensor_width]. *)
Record Camera : Type := mkCamera {
  cam_location : Vector;
  rotation_euler : Euler;
  lens : Q;
  sensor_width : Q
}.

(** The scene: [cast] is [scene.ray_cast] on the first view layer,
    [ambient_color] is [scene.simpleRT.ambient_color]. *)
Record Scene : Type := mkScene {
  cast : Vector -> Vector -> Hit;
  ambient_color : Vector;
  objects : list SceneObject;
  camera : Camera
}.

(** The pixel buffer, a numpy array of shape [(buf_h, buf_w, 4)]:
    [buf_data y x c] is [buf[y, x, c]]. *)
Record Buffer : Type := mkBuffer {
  buf_h : Z;
  buf_w : Z;
  buf_data : Z -> Z -> Z -> Q
}.

(** [eps = 1e-3] *)
Definition eps : Q := 1 # 1000.

(** ** The tracer *)

Section Tracer.

(** [math.sqrt], also the square root inside [normalized] and
    [np.linalg.norm]. *)
Variable sqrt : Q -> Q.

(** [x ** p] for a float exponent [p]. *)
Variable fpow : Q -> Q -> Q.

(** [v.normalized()]: mathutils returns the zero vector for a vector of
    length zero and does not raise. *)
Definition normalized (v : Vector) : Vector :=
  let d := length_squared v in
  if Qgtb d 0 then smul (1 / sqrt d) v else zeros.

(** [np.linalg.norm(v)] *)
Definition norm (v : Vector) : Q := sqrt (length_squared v).

(** [ray_cast(scene, origin, direction)]; [ev] names the call site. *)
Definition ray_cast (scene : Scene) (ev : event) (origin direction : Vector)
  : M Hit :=
  emit ev ;;; ret (cast scene origin direction).

(** Lines 93-96: the normal is flipped when it faces along the ray. *)
Definition orient (hit_norm ray_dir : Vector) : Vector * bool :=
  if Qgtb (vdot hit_norm ray_dir) 0 then (vneg hit_norm, true)
  else (hit_norm, false).

(** Lines 132-139: the shadow ray of a light. *)
Definition light_vec_of (hit_loc : Vector) (light : Light) : Vector :=
  vsub (location light) hit_loc.

Definition light_dir_of (hit_loc : Vector) (light : Light) : Vector :=
  normalized (light_vec_of hit_loc light).

Definition shadow_orig (hit_loc : Vector) (light : Light) : Vector :=
  vadd hit_loc (smul eps (light_dir_of hit_loc light)).

(** Lines 116-206: one iteration of the loop over the lights.  The state
    is [(color, no_light_hit)]. *)
Definition light_step (scene : Scene) (hit_loc hit_norm ray_dir : Vector)
    (mat : Material) (st : Vector * bool) (light : Light)
  : M (Vector * bool) :=
  let '(color, no_light_hit) := st in
  let light_color := muls (light_rgb light) (energy light) in
  let light_vec := vsub (location light) hit_loc in
  let light_dir := normalized light_vec in
  let new_orig := vadd hit_loc (smul eps light_dir) in
  h <- ray_cast scene (EvShadow new_orig light_dir) new_orig light_dir ;;
  if has_hit h then ret (color, no_light_hit)
  else
    I_light <- vdiv light_color (length_squared light_vec) ;;
    let diffuse_component :=
      muls (vmul (diffuse_color mat) I_light) (vdot light_dir hit_norm) in
    let color := vadd color diffuse_component in
    let half_vector := vadd light_dir (vneg ray_dir) in
    half_vector <- vdiv half_vector (norm half_vector) ;;
    let power := specular_hardness mat in
    let specular_component :=
      muls (vmul (specular_color mat) I_light)
           (fpow (vdot hit_norm half_vector) power) in
    let color := vadd color specular_component in
    ret (color, false).

Fixpoint light_loop (scene : Scene) (hit_loc hit_norm ray_dir : Vector)
    (mat : Material) (lights : list Light) (st : Vector * bool)
  : M (Vector * bool) :=
  match lights with
  | [] => ret st
  | light :: rest =>
      st' <- light_step scene hit_loc hit_norm ray_dir mat st light ;;
      light_loop scene hit_loc hit_norm ray_dir mat rest st'
  end.

(** Lines 231-241: the reflectivity [k_r]. *)
Definition reflectivity_of (mat : Material) (ray_dir hit_norm : Vector)
  : M Q :=
  let reflectivity := mirror_reflectivity mat in
  if use_fresnel mat then
    q <- qdiv (1 - ior mat) (1 + ior mat) ;;
    let R_0 := q ^ 2 in
    let theta := Qabs (vdot ray_dir hit_norm) in
    ret (R_0 + (1 - R_0) * (1 - theta) ^ 5)
  else ret reflectivity.

(** Line 283: [(n1, n2)]. *)
Definition refraction_indices (mat : Material) (ray_inside_object : bool)
  : Q * Q :=
  if ray_inside_object then (ior mat, 1) else (1, ior mat).

(** Lines 282-290: the transmission branch; [rec] is [RT_trace_ray] with
    the scene and the lights fixed. *)
Definition transmit (rec : Vector -> Vector -> Z -> M Vector)
    (ray_dir hit_loc hit_norm : Vector) (ray_inside_object : bool)
    (mat : Material) (reflectivity : Q) (depth : Z) (color : Vector)
  : M Vector :=
  if Qgtb (transmission mat) 0 then
    let '(n1, n2) := refraction_indices mat ray_inside_object in
    n_ratio <- qdiv n1 n2 ;;
    let cos_theta_i := - vdot hit_norm ray_dir in
    let cos_theta_t2 := 1 - n_ratio ^ 2 * (1 - cos_theta_i ^ 2) in
    if Qgeb cos_theta_t2 0 then
      let D_transmit :=
        vadd (smul n_ratio ray_dir)
             (smul (n_ratio * cos_theta_i - sqrt cos_theta_t2) hit_norm) in
      transmit_color <-
        rec (vadd hit_loc (smul eps D_transmit)) D_transmit (depth - 1)%Z ;;
      ret (vadd color
                (smul ((1 - reflectivity) * transmission mat) transmit_color))
    else ret color
  else ret color.

(** Lines 254-296: reflection, then transmission. *)
Definition secondary (rec : Vector -> Vector -> Z -> M Vector)
    (ray_dir hit_loc hit_norm : Vector) (ray_inside_object : bool)
    (mat : Material) (reflectivity : Q) (depth : Z) (color : Vector)
  : M Vector :=
  if (0 <? depth)%Z then
    let D_reflect :=
      vsub ray_dir (smul (2 * vdot ray_dir hit_norm) hit_norm) in
    reflect_color <-
      rec (vadd hit_loc (smul eps D_reflect)) D_reflect (depth - 1)%Z ;;
    let color := vadd color (smul reflectivity reflect_color) in
    transmit rec ray_dir hit_loc hit_norm ray_inside_object mat reflectivity
             depth color
  else ret color.

(** Lines 87-296: the shading of a hit. *)
Definition shade (rec : Vector -> Vector -> Z -> M Vector) (scene : Scene)
    (ray_dir : Vector) (lights : list Light) (depth : Z) (h : Hit)
    (color : Vector) : M Vector :=
  let hit_loc := hit_loc h in
  let '(hit_norm, ray_inside_object) := orient (hit_norm h) ray_dir in
  let ambient_color := ambient_color scene in
  let mat := hit_mat h in
  let diffuse_color := diffuse_color mat in
  st <- light_loop scene hit_loc hit_norm ray_dir mat lights (color, true) ;;
  let '(color, no_light_hit) := st in
  if no_light_hit then
    let I_ambient := vmul diffuse_color ambient_color in
    ret (vadd color I_ambient)
  else
    reflectivity <- reflectivity_of mat ray_dir hit_norm ;;
    secondary rec ray_dir hit_loc hit_norm ray_inside_object mat reflectivity
              depth color.

(** [RT_trace_ray], with fuel for the recursion. *)
Fixpoint RT_trace_ray_fuel (fuel : nat) (scene : Scene)
    (ray_orig ray_dir : Vector) (lights : list Light) (depth : Z)
  : M Vector :=
  match fuel with
  | O => ([], OutOfFuel)
  | S fuel' =>
      h <- ray_cast scene (EvTrace ray_orig ray_dir depth) ray_orig ray_dir ;;
      let color := zeros in
      if negb (has_hit h) then ret color
      else
        shade (fun o d k => RT_trace_ray_fuel fuel' scene o d lights k)
              scene ray_dir lights depth h color
  end.

(** [RT_trace_ray(scene, ray_orig, ray_dir, lights, depth)]: the depth
    bounds the recursion, so it says how much fuel is enough. *)
Definition RT_trace_ray (scene : Scene) (ray_orig ray_dir : Vector)
    (lights : list Light) (depth : Z) : M Vector :=
  RT_trace_ray_fuel (S (Z.to_nat depth)) scene ray_orig ray_dir lights depth.

End Tracer.

(** ** The frame renderer *)

(** [range(n)] *)
Definition range (n : Z) : list Z :=
  map Z.of_nat (seq 0 (Z.to_nat n)).

(** A [for] loop with a state. *)
Fixpoint for_each {A S : Type} (xs : list A) (body : A -> S -> M S) (s : S)
  : M S :=
  match xs with
  | [] => ret s
  | x :: rest => s' <- body x s ;; for_each rest body s'
  end.

(** The indices [y, x] are inside the array (they are never negative
    in the renderer, so numpy's wrap-around of negative indices plays no
    part). *)
Definition in_bounds (buf : Buffer) (y x : Z) : bool :=
  ((0 <=? y) && (y <? buf_h buf) && (0 <=? x) && (x <? buf_w buf))%Z.

(** The array after [buf[y, x, 0:3] = color]. *)
Definition with_rgb (buf : Buffer) (y x : Z) (color : Vector) : Buffer :=
  mkBuffer (buf_h buf) (buf_w buf)
    (fun y' x' c =>
       if ((y' =? y) && (x' =? x))%Z then
         if (c =? 0)%Z then vx color
         else if (c =? 1)%Z then vy color
         else if (c =? 2)%Z then vz color
         else buf_data buf y' x' c
       else buf_data buf y' x' c).

(** The array after [buf[y, x, 3] = v]. *)
Definition with_alpha (buf : Buffer) (y x : Z) (v : Q) : Buffer :=
  mkBuffer (buf_h buf) (buf_w buf)
    (fun y' x' c =>
       if ((y' =? y) && (x' =? x) && (c =? 3))%Z then v
       else buf_data buf y' x' c).

(** [buf[y, x, 0:3] = color] *)
Definition set_rgb (buf : Buffer) (y x : Z) (color : Vector) : M Buffer :=
  if in_bounds buf y x then
    emit (EvPixel y x) ;;; ret (with_rgb buf y x color)
  else raise IndexOutOfBounds.

(** [buf[y, x, 3] = v] *)
Definition set_alpha (buf : Buffer) (y x : Z) (v : Q) : M Buffer :=
  if in_bounds buf y x then ret (with_alpha buf y x v)
  else raise IndexOutOfBounds.

(** [[o for o in scene.objects if o.type == "LIGHT"]] *)
Definition lights_of (objs : list SceneObject) : list Light :=
  flat_map (fun o => match o with
                     | LightObject l => [l]
                     | OtherObject _ => []
                     end) objs.

Section Renderer.

Variable sqrt : Q -> Q.
Variable fpow : Q -> Q -> Q.

(** [v.rotate(euler)] of mathutils. *)
Variable rotate : Euler -> Vector -> Vector.

(** Lines 338-351: one pixel. *)
Definition render_pixel (scene : Scene) (width : Z) (depth : Z)
    (scene_lights : list Light) (cam_location : Vector)
    (cam_orientation : Euler) (focal_length screen_y : Q) (y x : Z)
    (buf : Buffer) : M Buffer :=
  sx <- qdiv (inject_Z x - (inject_Z width / 2)) (inject_Z width) ;;
  let screen_x := sx in
  let ray_dir := mkVector screen_x screen_y (- focal_length) in
  let ray_dir := rotate cam_orientation ray_dir in
  let ray_dir := normalized sqrt ray_dir in
  color <- RT_trace_ray sqrt fpow scene cam_location ray_dir scene_lights
             depth ;;
  buf <- set_rgb buf y x color ;;
  set_alpha buf y x 1.

(** Lines 335-352: one row, and the [yield] at its end. *)
Definition render_row (scene : Scene) (width height : Z) (depth : Z)
    (scene_lights : list Light) (cam_location : Vector)
    (cam_orientation : Euler) (focal_length aspect_ratio : Q) (y : Z)
    (buf : Buffer) : M Buffer :=
  sy <- qdiv (inject_Z y - (inject_Z height / 2)) (inject_Z height) ;;
  let screen_y := sy * aspect_ratio in
  buf <- for_each (range width)
           (render_pixel scene width depth scene_lights cam_location
              cam_orientation focal_length screen_y y) buf ;;
  emit (EvYield y) ;;;
  ret buf.

(** [RT_render_scene(scene, width, height, depth, buf)], the generator
    run until it returns. *)
Definition RT_render_scene (scene : Scene) (width height : Z) (depth : Z)
    (buf : Buffer) : M Buffer :=
  let scene_lights := lights_of (objects scene) in
  let cam_location := cam_location (camera scene) in
  let cam_orientation := rotation_euler (camera scene) in
  focal_length <- qdiv (lens (camera scene)) (sensor_width (camera scene)) ;;
  aspect_ratio <- qdiv (inject_Z height) (inject_Z width) ;;
  for_each (range height)
    (render_row scene width height depth scene_lights cam_location
       cam_orientation focal_length aspect_ratio) buf.

End Renderer.

(** ** The render engine *)

(** What [SimpleRTRenderEngine.render_scene] does that Blender can
    observe, and the events of the generator that it drives:
    - [EvBeginResult x y w h]: [self.begin_result(x, y, w, h)];
    - [EvRender e]: the generator [RT_render_scene] produced [e];
    - [EvProgress p]: [self.update_progress(p)];
    - [EvUpdateResult]: [self.update_result(result)];
    - [EvRect rect]: the assignment [layer.rect = rect];
    - [EvTestBreak answer]: [self.test_break()] and what it answered;
    - [EvEndResult]: [self.end_result(result)]. *)
Inductive engine_event : Type :=
| EvBeginResult (x y w h : Z)
| EvRender (e : event)
| EvProgress (p : Q)
| EvUpdateResult
| EvRect (rect : list (list Q))
| EvTestBreak (answer : bool)
| EvEndResult.

(** The exceptions that leave the engine: those of the generator and of
    the engine's own arithmetic, and the [ValueError] of numpy. *)
Inductive engine_fault : Type :=
| Raised (f : fault)
| ValueError.

Inductive engine_outcome (A : Type) : Type :=
| EDone (a : A)
| EFault (f : engine_fault)
| EOutOfFuel.

Arguments EDone {A} a.
Arguments EFault {A} f.
Arguments EOutOfFuel {A}.

Definition E (A : Type) : Type := (list engine_event * engine_outcome A)%type.

Definition eret {A} (a : A) : E A := ([], EDone a).

Definition eraise {A} (f : engine_fault) : E A := ([], EFault f).

Definition eemit (e : engine_event) : E unit := ([e], EDone tt).

Definition ebind {A B} (m : E A) (k : A -> E B) : E B :=
  match m with
  | (l, EDone a) => let (l', r) := k a in (l ++ l', r)
  | (l, EFault f) => (l, EFault f)
  | (l, EOutOfFuel) => (l, EOutOfFuel)
  end.

Notation "x <-- m ;; k" := (ebind m (fun x => k))
  (at level 61, m at next level, right associativity).
Notation "m ;;> k" := (ebind m (fun _ => k))
  (at level 61, right associativity).

(** A computation of the generator, run by the engine. *)
Definition lift {A} (m : M A) : E A :=
  (map EvRender (fst m),
   match snd m with
   | Done a => EDone a
   | Fault f => EFault (Raised f)
   | OutOfFuel => EOutOfFuel
   end).

(** [np.zeros((height, width, 4))]: numpy refuses a negative dimension. *)
Definition np_zeros (height width : Z) : E Buffer :=
  if ((height <? 0) || (width <? 0))%Z then eraise ValueError
  else eret (mkBuffer height width (fun _ _ _ => 0)).

(** [int(a / b)] on integers: the quotient rounded towards zero.  (For
    [a = 10000] the float quotient and the exact one have the same
    integer part.) *)
Definition int_div (a b : Z) : E Z :=
  if (b =? 0)%Z then eraise (Raised DivByZero) else eret (Z.quot a b).

(** [a % b] on integers: the remainder has the sign of [b]. *)
Definition int_mod (a b : Z) : E Z :=
  if (b =? 0)%Z then eraise (Raised DivByZero) else eret (Z.modulo a b).

(** [buf.reshape(-1, 4).tolist()]: the pixels row after row, each a list
    of its four channels. *)
Definition tolist (buf : Buffer) : list (list Q) :=
  flat_map
    (fun y => map (fun x => map (buf_data buf y x) (range 4))
                  (range (buf_w buf)))
    (range (buf_h buf)).

Section Engine.

Variable sqrt : Q -> Q.
Variable fpow : Q -> Q -> Q.
Variable rotate : Euler -> Vector -> Vector.

(** [self.test_break()]: what Blender answers after row [y]; the engine
    asks once for each row that the generator yields. *)
Variable test_break : Z -> bool.

(** Lines 409-431: the [for] loop over the generator.  Each turn resumes
    the generator, which renders one row and yields it, and then runs the
    body of the loop; when no row is left the generator returns and the
    loop ends.  The generator and the engine share [buf].  (The console
    line of lines 412-418 reads the clock and decides nothing; its only
    divisor is [y + 1].  It is left out.) *)
Fixpoint render_loop (scene : Scene) (width height : Z) (depth : Z)
    (update_cycle : Z) (scene_lights : list Light) (cam_location : Vector)
    (cam_orientation : Euler) (focal_length aspect_ratio : Q)
    (ys : list Z) (buf : Buffer) : E unit :=
  match ys with
  | [] => eret tt
  | y :: rest =>
      buf <-- lift (render_row sqrt fpow rotate scene width height depth
                      scene_lights cam_location cam_orientation focal_length
                      aspect_ratio y buf) ;;
      p <-- lift (qdiv (inject_Z y) (inject_Z height)) ;;
      eemit (EvProgress p) ;;>
      r <-- int_mod y update_cycle ;;
      (if ((r =? 0) || (y =? height - 1))%Z then
         eemit EvUpdateResult ;;>
         eemit (EvRect (tolist buf))
       else eret tt) ;;>
      let stop := test_break y in
      eemit (EvTestBreak stop) ;;>
      if stop then eret tt
      else render_loop scene width height depth update_cycle scene_lights
             cam_location cam_orientation focal_length aspect_ratio rest buf
  end.

(** [SimpleRTRenderEngine.render_scene(self, scene)], lines 388-434;
    [size_x] and [size_y] are the fields of the engine that [render] has
    set, [recursion_depth] is [scene.simpleRT.recursion_depth].  The
    first turn of the loop enters the generator, which then runs its
    lines 324-332.  The render result and its pass [Combined] belong to
    Blender; the model records the calls of the engine and what it
    assigns to [layer.rect]. *)
Definition render_scene (scene : Scene) (size_x size_y : Z)
    (recursion_depth : Z) : E unit :=
  let height := size_y in
  let width := size_x in
  buf <-- np_zeros height width ;;
  eemit (EvBeginResult 0 0 size_x size_y) ;;>
  let depth := recursion_depth in
  update_cycle <-- int_div 10000 width ;;
  let scene_lights := lights_of (objects scene) in
  let cam_location := cam_location (camera scene) in
  let cam_orientation := rotation_euler (camera scene) in
  focal_length <--
    lift (qdiv (lens (camera scene)) (sensor_width (camera scene))) ;;
  aspect_ratio <-- lift (qdiv (inject_Z height) (inject_Z width)) ;;
  render_loop scene width height depth update_cycle scene_lights
    cam_location cam_orientation focal_length aspect_ratio
    (range height) buf ;;>
  eemit EvEndResult.

End Engine.

(** ** A concrete arithmetic and concrete scenes, to run the model *)

(** A square root on the rationals: exact on the squares of rationals,
    rounded down to a multiple of [1 / Qden q] elsewhere; the result is a
    fraction in lowest terms. *)
Definition sqrtQ (q : Q) : Q :=
  Qred (Z.sqrt (Qnum q * Zpos (Qden q)) # Qden q).

(** A power whose exponent is read as an integer (rounded down). *)
Definition powQ (x p : Q) : Q := Qpower x (Qnum p / Zpos (Qden p)).

(** The rotation of a camera whose three angles are zero. *)
Definition rotate0 (e : Euler) (v : Vector) : Vector := v.

Definition white : Vector := mkVector 1 1 1.

Definition matte : Material :=
  mkMaterial white zeros 2 0 false 1 0.

Definition glass : Material :=
  mkMaterial white zeros 2 (1 # 2) false (3 # 2) (1 # 2).

Definition miss : Hit := mkHit false zeros zeros matte.

(** The same vector, each coordinate in lowest terms. *)
Definition vred (v : Vector) : Vector :=
  mkVector (Qred (vx v)) (Qred (vy v)) (Qred (vz v)).

(** The oracle of a scene whose only surface is the plane [z = 0]. *)
Definition plane_cast (mat : Material) (o d : Vector) : Hit :=
  if Qeq_bool (vz d) 0 then miss
  else
    let t := - vz o / vz d in
    if Qgtb t 0 then
      mkHit true (vred (vadd o (smul t d))) (mkVector 0 0 1) mat
    else miss.

Definition still_camera : Camera :=
  mkCamera (mkVector 0 0 1) (mkEuler 0 0 0) 50 50.

Definition lamp_above : Light := mkLight (mkVector 0 0 1) white 1.
Definition lamp_below : Light := mkLight (mkVector 0 0 (-1)) white 1.

Definition floor_scene : Scene :=
  mkScene (plane_cast matte) (mkVector (1 # 10) (1 # 10) (1 # 10))
          [LightObject lamp_above; OtherObject zeros] still_camera.

(** A ray that comes down on the floor at the origin. *)
Definition slant_orig : Vector := mkVector (-24) 0 7.
Definition slant_dir : Vector := mkVector (24 # 25) 0 (- (7 # 25)).

(** A ray that leaves the floor. *)
Definition up_dir : Vector := mkVector 0 0 1.

(** The same ray one step before the floor. *)
Definition low_orig : Vector := mkVector (- (24 # 25)) 0 (7 # 25).

(** A ray that comes up on the floor at the origin, from below. *)
Definition rise_orig : Vector := mkVector (-24) 0 (-7).
Definition rise_dir : Vector := mkVector (24 # 25) 0 (7 # 25).

(** A floor of glass. *)
Definition glass_scene : Scene :=
  mkScene (plane_cast glass) (mkVector (1 # 10) (1 # 10) (1 # 10))
          [LightObject lamp_above; LightObject lamp_below] still_camera.

(** A light that sits on the floor, at the origin. *)
Definition lamp_on_floor : Light := mkLight zeros white 1.

(** The oracle of a room: the floor [z = 0] and the ceiling [z = 2]; the
    nearer of the two planes in front of the ray is hit. *)
Definition slab_cast (mat : Material) (o d : Vector) : Hit :=
  if Qeq_bool (vz d) 0 then miss
  else
    let t0 := (0 - vz o) / vz d in
    let t1 := (2 - vz o) / vz d in
    let hit_at t :=
      mkHit true (vred (vadd o (smul t d))) (mkVector 0 0 1) mat in
    if Qgtb t0 0 then
      if Qgtb t1 0 then (if Qle_bool t0 t1 then hit_at t0 else hit_at t1)
      else hit_at t0
    else if Qgtb t1 0 then hit_at t1 else miss.

(** A room of glass with a lamp half way up. *)
Definition room_scene : Scene :=
  mkScene (slab_cast glass) (mkVector (1 # 10) (1 # 10) (1 # 10))
          [LightObject lamp_above] still_camera.

(** An empty buffer of a given shape. *)
Definition blank (h w : Z) : Buffer := mkBuffer h w (fun _ _ _ => 0).

(** ** Vocabulary of the statements *)

(** The oracle query that the light loop makes for a light. *)
Definition shadow_event (sqrt : Q -> Q) (hit_loc : Vector) (light : Light)
  : event :=
  EvShadow (shadow_orig sqrt hit_loc light) (light_dir_of sqrt hit_loc light).

(** The shadow ray of the light hits something. *)
Definition occluded (sqrt : Q -> Q) (scene : Scene) (hit_loc : Vector)
    (light : Light) : bool :=
  has_hit (cast scene (shadow_orig sqrt hit_loc light)
                      (light_dir_of sqrt hit_loc light)).

(** The computation ends: with a value or with a fault, not for want of
    fuel. *)
Definition finishes {A : Type} (m : M A) : Prop := snd m <> OutOfFuel.

(** Direct lighting only, in the words of the specification: the sum of
    the contributions of the lights or, when no light contributes, the
    ambient term.  [normal] is the oriented normal. *)
Definition direct_lighting (sqrt : Q -> Q) (fpow : Q -> Q -> Q)
    (scene : Scene) (direction normal : Vector) (lights : list Light)
    (h : Hit) : M Vector :=
  st <- light_loop sqrt fpow scene (hit_loc h) normal direction (hit_mat h)
          lights (zeros, true) ;;
  if snd st then
    ret (vmul (diffuse_color (hit_mat h)) (ambient_color scene))
  else ret (fst st).

(** A log that is replayed as it is. *)
Definition replay (l : list event) : M unit := (l, Done tt).

(** The quantities of the shading, in the words of the specification. *)

(** [D_reflect = direction - 2*dot(direction, normal)*normal] *)
Definition D_reflect_spec (direction normal : Vector) : Vector :=
  vsub direction (smul (2 * vdot direction normal) normal).

(** [k_r]: [mirror_reflectivity] by default; with [use_fresnel],
    [R0 + (1-R0)*(1-|dot(direction, normal)|)^5] where
    [R0 = ((1-ior)/(1+ior))^2]. *)
Definition k_r_spec (mat : Material) (direction normal : Vector) : Q :=
  if use_fresnel mat then
    let R0 := ((1 - ior mat) / (1 + ior mat)) ^ 2 in
    R0 + (1 - R0) * (1 - Qabs (vdot direction normal)) ^ 5
  else mirror_reflectivity mat.

(** [(n1, n2) = (ior, 1)] if the ray is inside, else [(1, ior)]. *)
Definition n_pair_spec (mat : Material) (inside : bool) : Q * Q :=
  if inside then (ior mat, 1) else (1, ior mat).

(** [ratio = n1/n2] *)
Definition ratio_spec (mat : Material) (inside : bool) : Q :=
  fst (n_pair_spec mat inside) / snd (n_pair_spec mat inside).

(** [cos_i = -dot(normal, direction)] *)
Definition cos_i_spec (normal direction : Vector) : Q :=
  - vdot normal direction.

(** [cos_t2 = 1 - ratio^2*(1-cos_i^2)] *)
Definition cos_t2_spec (ratio cos_i : Q) : Q :=
  1 - ratio ^ 2 * (1 - cos_i ^ 2).

(** [D_transmit = ratio*direction + (ratio*cos_i - sqrt(cos_t2))*normal] *)
Definition D_transmit_spec (sqrt : Q -> Q) (ratio cos_i cos_t2 : Q)
    (direction normal : Vector) : Vector :=
  vadd (smul ratio direction)
       (smul (ratio * cos_i - sqrt cos_t2) normal).

(** What the development asks of a square root when divisors are at
    stake: on the non-negative numbers it vanishes at zero only. *)
Definition sqrt_vanishes_at_zero_only (sqrt : Q -> Q) : Prop :=
  forall q, 0 <= q -> (sqrt q == 0 <-> q == 0).

(** A light breaks a precondition of the two divisions of the light loop:
    it sits on the hit point, or its direction is the direction of the
    ray. *)
Definition breaks_division (sqrt : Q -> Q) (hit_loc ray_dir : Vector)
    (light : Light) : Prop :=
  length_squared (light_vec_of hit_loc light) == 0
  \/ veq (light_dir_of sqrt hit_loc light) ray_dir.

(** The half vector of a light, normalized, as the light loop computes
    it. *)
Definition half_vector_of (sqrt : Q -> Q) (hit_loc ray_dir : Vector)
    (light : Light) : Vector :=
  divs (vadd (light_dir_of sqrt hit_loc light) (vneg ray_dir))
       (norm sqrt (vadd (light_dir_of sqrt hit_loc light) (vneg ray_dir))).

(** The hit of the ray [(o, d)] is lit from the front: the colours of
    the material are non-negative, [0 <= k_r <= 1], the transmission is
    non-negative, and every light whose shadow ray is free faces the
    oriented normal and has a non-negative specular factor. *)
Definition lit_from_front_at (sqrt : Q -> Q) (fpow : Q -> Q -> Q)
    (scene : Scene) (lights : list Light) (o d : Vector) : Prop :=
  let h := cast scene o d in
  let n := fst (orient (hit_norm h) d) in
  let mat := hit_mat h in
  vnonneg (diffuse_color mat)
  /\ vnonneg (specular_color mat)
  /\ 0 <= k_r_spec mat d n <= 1
  /\ 0 <= transmission mat
  /\ (forall l, In l lights ->
                occluded sqrt scene (hit_loc h) l = false ->
                0 <= vdot (light_dir_of sqrt (hit_loc h) l) n
                /\ 0 <= fpow (vdot n (half_vector_of sqrt (hit_loc h) d l))
                             (specular_hardness mat)).

(** The surfaces that a trace reaches are lit from the front: [log] is
    the log of the trace, and the condition is asked at the hit of every
    ray that the log records as traced (the input ray and the reflection
    and transmission rays below it), nowhere else. *)
Definition hits_lit_from_front (sqrt : Q -> Q) (fpow : Q -> Q -> Q)
    (scene : Scene) (lights : list Light) (log : list event) : Prop :=
  forall o d k,
    In (EvTrace o d k) log -> has_hit (cast scene o d) = true ->
    lit_from_front_at sqrt fpow scene lights o d.

(** The frame, in the words of the specification. *)

(** The direction of the primary ray of pixel [(y, x)]:
    [(screen_x, screen_y, -focal_length_ratio)], rotated by the camera
    orientation and normalized, where
    [screen_x = (x - width/2)/width] and
    [screen_y = ((y - height/2)/height)*aspect_ratio]. *)
Definition primary_dir (sqrt : Q -> Q) (rotate : Euler -> Vector -> Vector)
    (scene : Scene) (width height : Z) (y x : Z) : Vector :=
  let aspect_ratio := inject_Z height / inject_Z width in
  let focal_length_ratio :=
    lens (camera scene) / sensor_width (camera scene) in
  let screen_x := (inject_Z x - inject_Z width / 2) / inject_Z width in
  let screen_y :=
    ((inject_Z y - inject_Z height / 2) / inject_Z height) * aspect_ratio in
  normalized sqrt
    (rotate (rotation_euler (camera scene))
       (mkVector screen_x screen_y (- focal_length_ratio))).

(** The trace of the primary ray of a pixel, from the camera position. *)
Definition pixel_trace (sqrt : Q -> Q) (fpow : Q -> Q -> Q)
    (rotate : Euler -> Vector -> Vector) (scene : Scene)
    (width height depth : Z) (y x : Z) : M Vector :=
  RT_trace_ray sqrt fpow scene (cam_location (camera scene))
    (primary_dir sqrt rotate scene width height y x)
    (lights_of (objects scene)) depth.

(** The colour that a computation returns (black when it returns none). *)
Definition color_of (m : M Vector) : Vector :=
  match snd m with
  | Done c => c
  | _ => zeros
  end.

(** Pixel [(y, x)] holds the colour [c] and alpha 1. *)
Definition paint (buf : Buffer) (y x : Z) (c : Vector) : Buffer :=
  with_alpha (with_rgb buf y x c) y x 1.

Definition paint_row (color : Z -> Z -> Vector) (width : Z) (buf : Buffer)
    (y : Z) : Buffer :=
  fold_left (fun b x => paint b y x (color y x)) (range width) buf.

Definition paint_frame (color : Z -> Z -> Vector) (width height : Z)
    (buf : Buffer) : Buffer :=
  fold_left (paint_row color width) (range height) buf.

(** The events of a frame: row after row, in a row pixel after pixel (the
    rays of the pixel, then its write), and the yield that ends the row. *)
Definition row_log (trace_of : Z -> Z -> M Vector) (width : Z) (y : Z)
  : list event :=
  flat_map (fun x => fst (trace_of y x) ++ [EvPixel y x]) (range width)
  ++ [EvYield y].

Definition frame_log (trace_of : Z -> Z -> M Vector) (width height : Z)
  : list event :=
  flat_map (row_log trace_of width) (range height).

(** Water, and a unit ray that dives into it. *)
Definition water : Material :=
  mkMaterial white zeros 2 0 true (4 # 3) 1.

Definition dive_dir : Vector := mkVector (4 # 5) 0 (- (3 # 5)).

(** A unit ray that climbs steeply, to leave a floor of glass from
    below. *)
Definition climb_dir : Vector := mkVector (7 # 25) 0 (24 # 25).

(** A tracer that sees nothing, to run the secondary rays alone. *)
Definition blind (o d : Vector) (depth : Z) : M Vector :=
  (EvTrace o d depth :: nil, Done zeros).

(** A material whose Fresnel term divides by zero. *)
Definition anti_glass : Material :=
  mkMaterial white zeros 2 0 true (-1) 0.

Definition anti_scene : Scene :=
  mkScene (plane_cast anti_glass) (mkVector (1 # 10) (1 # 10) (1 # 10))
          [LightObject lamp_above] still_camera.

(** ** Vocabulary of the further properties *)

(** [I_light = light_color / light_vec.length_squared], without the check
    of the divisor. *)
Definition I_light_of (hit_loc : Vector) (light : Light) : Vector :=
  divs (muls (light_rgb light) (energy light))
       (length_squared (light_vec_of hit_loc light)).

(** The diffuse and the specular component of a light. *)
Definition diffuse_term (sqrt : Q -> Q) (hit_loc hit_norm : Vector)
    (mat : Material) (light : Light) : Vector :=
  muls (vmul (diffuse_color mat) (I_light_of hit_loc light))
       (vdot (light_dir_of sqrt hit_loc light) hit_norm).

Definition specular_term (sqrt : Q -> Q) (fpow : Q -> Q -> Q)
    (hit_loc hit_norm ray_dir : Vector) (mat : Material) (light : Light)
  : Vector :=
  muls (vmul (specular_color mat) (I_light_of hit_loc light))
       (fpow (vdot hit_norm (half_vector_of sqrt hit_loc ray_dir light))
             (specular_hardness mat)).

(** The colour after a light has given its two components. *)
Definition add_light (sqrt : Q -> Q) (fpow : Q -> Q -> Q)
    (hit_loc hit_norm ray_dir : Vector) (mat : Material) (c : Vector)
    (light : Light) : Vector :=
  vadd (vadd c (diffuse_term sqrt hit_loc hit_norm mat light))
       (specular_term sqrt fpow hit_loc hit_norm ray_dir mat light).

(** The lights whose shadow ray is free. *)
Definition lit_by (sqrt : Q -> Q) (scene : Scene) (hit_loc : Vector)
    (lights : list Light) : list Light :=
  filter (fun l => negb (occluded sqrt scene hit_loc l)) lights.

(** The two divisors of the shading of a light are not zero. *)
Definition divisors_nonzero (sqrt : Q -> Q) (hit_loc ray_dir : Vector)
    (light : Light) : Prop :=
  ~ length_squared (light_vec_of hit_loc light) == 0
  /\ ~ norm sqrt (vadd (light_dir_of sqrt hit_loc light) (vneg ray_dir))
       == 0.

(** [R_0 = ((1 - ior) / (1 + ior)) ** 2] *)
Definition R_0_of (mat : Material) : Q := ((1 - ior mat) / (1 + ior mat)) ^ 2.

(** The rays of a log: the entries of [RT_trace_ray] and the shadow
    rays; each is one query of the oracle. *)
Definition is_trace (e : event) : bool :=
  match e with EvTrace _ _ _ => true | _ => false end.

Definition is_shadow (e : event) : bool :=
  match e with EvShadow _ _ => true | _ => false end.

Definition traces (l : list event) : nat := length (filter is_trace l).

Definition shadows (l : list event) : nat := length (filter is_shadow l).

(** No surface of the scene transmits. *)
Definition opaque_scene (scene : Scene) : Prop :=
  forall o d, transmission (hit_mat (cast scene o d)) <= 0.

(** The entry [buf[y, x, ch]] belongs to the frame. *)
Definition in_frame (width height : Z) (y x ch : Z) : Prop :=
  (0 <= y < height)%Z /\ (0 <= x < width)%Z /\ (0 <= ch <= 3)%Z.

(** The computation returns or ends with the fault [f]. *)
Definition done_or {A : Type} (f : fault) (m : M A) : Prop :=
  (exists a, snd m = Done a) \/ snd m = Fault f.

(** The events of the generator in a log of the engine. *)
Definition renders (log : list engine_event) : list event :=
  flat_map (fun e => match e with EvRender e' => [e'] | _ => [] end) log.

(** What [layer.rect] holds after a log of the engine; [rect] is what it
    held before ([None]: the engine has not assigned it). *)
Fixpoint layer_rect (log : list engine_event)
    (rect : option (list (list Q))) : option (list (list Q)) :=
  match log with
  | [] => rect
  | EvRect r :: rest => layer_rect rest (Some r)
  | _ :: rest => layer_rect rest rect
  end.

(** The engine updates the result after row [y]. *)
Definition updates (width height y : Z) : bool :=
  ((y mod (Z.quot 10000 width) =? 0) || (y =? height - 1))%Z.

(** The last row up to [k] after which the engine updates the result:
    [k] when it is the last row of the frame, else the multiple of
    [update_cycle] below it. *)
Definition last_update (width height k : Z) : Z :=
  if (k =? height - 1)%Z then k else (k - k mod (Z.quot 10000 width))%Z.

(** The buffer and [layer.rect] after a row that renders. *)
Definition show_row (color : Z -> Z -> Vector) (width height : Z)
    (s : Buffer * option (list (list Q))) (y : Z)
  : Buffer * option (list (list Q)) :=
  let b := paint_row color width (fst s) y in
  (b, if updates width height y then Some (tolist b) else snd s).

(** ** The monad *)

Lemma bind_done {A B} (l : list event) (a : A) (k : A -> M B) :
  bind (l, Done a) k = (l ++ fst (k a), snd (k a)).
Proof. unfold bind. destruct (k a); reflexivity. Qed.

Lemma bind_ret_l {A B} (a : A) (k : A -> M B) : bind (ret a) k = k a.
Proof. unfold ret. rewrite bind_done. simpl. destruct (k a); reflexivity. Qed.

Lemma bind_emit {B} (e : event) (k : unit -> M B) :
  bind (emit e) k = (e :: fst (k tt), snd (k tt)).
Proof. unfold emit. rewrite bind_done. reflexivity. Qed.

Lemma ray_cast_eq (scene : Scene) (e : event) (o d : Vector) :
  ray_cast scene e o d = ([e], Done (cast scene o d)).
Proof. reflexivity. Qed.

(** ** Rational arithmetic, up to Leibniz equality *)

Lemma Qplus_0_l_eq (q : Q) : 0 + q = q.
Proof.
  destruct q as [n d]. unfold Qplus. simpl. now rewrite Z.mul_1_r.
Qed.

Lemma vadd_zeros_l (v : Vector) : vadd zeros v = v.
Proof.
  destruct v as [x y z]. unfold vadd, zeros. simpl.
  now rewrite !Qplus_0_l_eq.
Qed.

Lemma length_squared_nonneg (v : Vector) : 0 <= length_squared v.
Proof. unfold length_squared, vdot. destruct v as [x y z]. simpl. nra. Qed.

Lemma Qgtb_true (a b : Q) : Qgtb a b = true <-> b < a.
Proof.
  unfold Qgtb. rewrite negb_true_iff, <- not_true_iff_false, Qle_bool_iff.
  split; [apply Qnot_le_lt | apply Qlt_not_le].
Qed.

Lemma Qgtb_false (a b : Q) : Qgtb a b = false <-> a <= b.
Proof.
  unfold Qgtb. rewrite negb_false_iff. apply Qle_bool_iff.
Qed.

Lemma Qgeb_true (a b : Q) : Qgeb a b = true <-> b <= a.
Proof. unfold Qgeb. apply Qle_bool_iff. Qed.

Lemma Qgeb_false (a b : Q) : Qgeb a b = false <-> a < b.
Proof.
  unfold Qgeb. rewrite <- not_true_iff_false, Qle_bool_iff.
  split; [apply Qnot_le_lt | apply Qlt_not_le].
Qed.

Lemma Qeq_bool_false (a b : Q) : Qeq_bool a b = false <-> ~ a == b.
Proof.
  rewrite <- not_true_iff_false, Qeq_bool_iff. tauto.
Qed.

(** ** The light loop *)

Section LightLoop.

Variable sqrt : Q -> Q.
Variable fpow : Q -> Q -> Q.
Variable scene : Scene.
Variables hit_loc hit_norm ray_dir : Vector.
Variable mat : Material.

Local Abbreviation step :=
  (light_step sqrt fpow scene hit_loc hit_norm ray_dir mat).
Local Abbreviation loop :=
  (light_loop sqrt fpow scene hit_loc hit_norm ray_dir mat).

Lemma light_step_log (st : Vector * bool) (light : Light) :
  fst (step st light) = [shadow_event sqrt hit_loc light].
Proof.
  unfold light_step. destruct st as [color flag].
  rewrite ray_cast_eq, bind_done. cbv zeta.
  unfold shadow_event, shadow_orig, light_dir_of, light_vec_of.
  destruct (has_hit _); [reflexivity|].
  unfold vdiv.
  destruct (Qeq_bool (length_squared _) 0); [reflexivity|].
  rewrite bind_ret_l.
  destruct (Qeq_bool (norm _ _) 0); reflexivity.
Qed.

Lemma light_step_occluded (st : Vector * bool) (light : Light) :
  occluded sqrt scene hit_loc light = true ->
  step st light = ([shadow_event sqrt hit_loc light], Done st).
Proof.
  unfold occluded, shadow_orig, light_dir_of, light_vec_of.
  intros H. unfold light_step. destruct st as [color flag].
  rewrite ray_cast_eq, bind_done. cbv zeta. rewrite H. reflexivity.
Qed.

Lemma light_loop_cons (light : Light) (rest : list Light)
    (st : Vector * bool) :
  loop (light :: rest) st = bind (step st light) (loop rest).
Proof. reflexivity. Qed.

Lemma light_loop_log (lights : list Light) :
  forall st log st',
    loop lights st = (log, Done st') ->
    log = map (shadow_event sqrt hit_loc) lights.
Proof.
  induction lights as [|light rest IH]; intros st log st' H.
  - inversion H. reflexivity.
  - rewrite light_loop_cons in H.
    pose proof (light_step_log st light) as Hl.
    destruct (step st light) as [l1 [st1| |]]; simpl in Hl; subst l1;
      try discriminate.
    rewrite bind_done in H.
    destruct (loop rest st1) as [l2 o2] eqn:E. simpl in H.
    inversion H; subst. simpl. f_equal. eapply IH. eassumption.
Qed.

Lemma light_loop_all_occluded (lights : list Light) (st : Vector * bool) :
  (forall l, In l lights -> occluded sqrt scene hit_loc l = true) ->
  loop lights st = (map (shadow_event sqrt hit_loc) lights, Done st).
Proof.
  induction lights as [|light rest IH]; intros H.
  - reflexivity.
  - rewrite light_loop_cons, light_step_occluded by (apply H; now left).
    rewrite bind_done, IH by (intros l Hl; apply H; now right).
    reflexivity.
Qed.

(** Whatever the outcome, the log of the loop is made of the shadow rays
    of the lights it got to. *)
Lemma light_loop_log_prefix (lights : list Light) :
  forall st, exists k,
    fst (loop lights st) = map (shadow_event sqrt hit_loc) (firstn k lights).
Proof.
  induction lights as [|light rest IH]; intros st.
  - exists 0%nat. reflexivity.
  - rewrite light_loop_cons.
    pose proof (light_step_log st light) as Hl.
    destruct (step st light) as [l1 [st1| |]]; simpl in Hl; subst l1.
    + rewrite bind_done. destruct (IH st1) as [k Hk].
      exists (S k). simpl. now rewrite Hk.
    + exists 1%nat. reflexivity.
    + exists 1%nat. reflexivity.
Qed.

(** An iteration leaves the state alone or clears the flag. *)
Lemma light_step_state (c : Vector) (flag : bool) (light : Light)
    (l : list event) (st' : Vector * bool) :
  step (c, flag) light = (l, Done st') ->
  st' = (c, flag) \/ snd st' = false.
Proof.
  unfold light_step. rewrite ray_cast_eq, bind_done. cbv zeta.
  destruct (has_hit _).
  - intros H. inversion H. now left.
  - unfold vdiv.
    destruct (Qeq_bool (length_squared _) 0); [discriminate|].
    rewrite bind_ret_l.
    destruct (Qeq_bool (norm _ _) 0); [discriminate|].
    rewrite bind_ret_l. intros H. inversion H. now right.
Qed.

(** When the flag is still set after the loop, the colour is untouched. *)
Lemma light_loop_flag (lights : list Light) :
  forall c flag l c',
    loop lights (c, flag) = (l, Done (c', true)) ->
    c' = c /\ flag = true.
Proof.
  induction lights as [|light rest IH]; intros c flag l c' H.
  - inversion H. auto.
  - rewrite light_loop_cons in H.
    destruct (step (c, flag) light) as [l1 [[c1 f1]| |]] eqn:E;
      try discriminate.
    rewrite bind_done in H.
    destruct (loop rest (c1, f1)) as [l2 o2] eqn:E2. simpl in H.
    inversion H; subst.
    destruct (IH _ _ _ _ E2) as [-> ->].
    destruct (light_step_state _ _ _ _ _ E) as [Heq | Hf].
    + inversion Heq. auto.
    + discriminate.
Qed.

(** The loop never runs out of fuel and never leaves the array: the only
    fault of the loop is a division by zero. *)
Lemma light_loop_outcome (lights : list Light) :
  forall st, (exists st', snd (loop lights st) = Done st')
             \/ snd (loop lights st) = Fault DivByZero.
Proof.
  induction lights as [|light rest IH]; intros st.
  - left. now exists st.
  - rewrite light_loop_cons.
    assert (Hs : (exists st1, snd (step st light) = Done st1)
                 \/ snd (step st light) = Fault DivByZero).
    { unfold light_step. destruct st as [color flag].
      rewrite ray_cast_eq, bind_done. cbv zeta. simpl snd.
      destruct (has_hit _); [left; eexists; reflexivity|].
      unfold vdiv.
      destruct (Qeq_bool (length_squared _) 0); [now right|].
      rewrite bind_ret_l.
      destruct (Qeq_bool (norm _ _) 0); [now right|].
      left; eexists; reflexivity. }
    destruct (step st light) as [l1 o1]. simpl in Hs.
    destruct Hs as [[st1 ->] | ->]; [|now right].
    rewrite bind_done. simpl. apply IH.
Qed.

(** C5. For each light the loop casts one shadow ray, from
    [hit_loc + eps * light_dir] in the direction [light_dir]; the oracle is
    asked nothing about the distance of the light, and whenever it reports
    a hit, wherever that hit lies, the iteration leaves the accumulated
    colour and the flag as they were.  A loop that completes has cast
    exactly these rays, one per light, in the order of the list. *)
Theorem shadow_ray_any_hit_occludes :
  (forall st light,
      fst (step st light)
      = [EvShadow (vadd hit_loc (smul eps (light_dir_of sqrt hit_loc light)))
                  (light_dir_of sqrt hit_loc light)])
  /\ (forall st light,
        has_hit (cast scene
                   (vadd hit_loc (smul eps (light_dir_of sqrt hit_loc light)))
                   (light_dir_of sqrt hit_loc light)) = true ->
        snd (step st light) = Done st)
  /\ (forall lights st log st',
        loop lights st = (log, Done st') ->
        log = map (shadow_event sqrt hit_loc) lights).
Proof.
  split; [|split].
  - intros st light. apply light_step_log.
  - intros st light H.
    now rewrite (light_step_occluded st light H).
  - intros lights. apply light_loop_log.
Qed.

End LightLoop.

(** ** The recursion of [RT_trace_ray] *)

Section Recursion.

Variable sqrt : Q -> Q.
Variable fpow : Q -> Q -> Q.
Variable scene : Scene.
Variable lights : list Light.

Local Abbreviation trace_fuel fuel :=
  (fun o d k => RT_trace_ray_fuel sqrt fpow fuel scene o d lights k).
Local Abbreviation trace :=
  (fun o d k => RT_trace_ray sqrt fpow scene o d lights k).

(** The transmission branch calls [rec] at [depth - 1] only. *)
Lemma transmit_ext (rec1 rec2 : Vector -> Vector -> Z -> M Vector)
    (ray_dir hit_loc hit_norm : Vector) (inside : bool) (mat : Material)
    (k_r : Q) (depth : Z) (color : Vector) :
  (forall o d, rec1 o d (depth - 1)%Z = rec2 o d (depth - 1)%Z) ->
  transmit sqrt rec1 ray_dir hit_loc hit_norm inside mat k_r depth color
  = transmit sqrt rec2 ray_dir hit_loc hit_norm inside mat k_r depth color.
Proof.
  intros H. unfold transmit.
  destruct (Qgtb (transmission mat) 0); [|reflexivity].
  destruct (refraction_indices mat inside) as [n1 n2].
  unfold qdiv. destruct (Qeq_bool n2 0); [reflexivity|].
  rewrite !bind_ret_l.
  destruct (Qgeb _ 0); [|reflexivity].
  now rewrite H.
Qed.

(** The secondary rays are guarded by [depth > 0] and are traced at
    [depth - 1]. *)
Lemma secondary_ext (rec1 rec2 : Vector -> Vector -> Z -> M Vector)
    (ray_dir hit_loc hit_norm : Vector) (inside : bool) (mat : Material)
    (k_r : Q) (depth : Z) (color : Vector) :
  ((0 < depth)%Z ->
   forall o d, rec1 o d (depth - 1)%Z = rec2 o d (depth - 1)%Z) ->
  secondary sqrt rec1 ray_dir hit_loc hit_norm inside mat k_r depth color
  = secondary sqrt rec2 ray_dir hit_loc hit_norm inside mat k_r depth color.
Proof.
  intros H. unfold secondary.
  destruct (0 <? depth)%Z eqn:E; [|reflexivity].
  apply Z.ltb_lt in E. specialize (H E).
  rewrite H. destruct (rec2 _ _ _) as [l [c| |]]; try reflexivity.
  rewrite !bind_done. now rewrite (transmit_ext rec1 rec2) by exact H.
Qed.

Lemma shade_ext (rec1 rec2 : Vector -> Vector -> Z -> M Vector)
    (ray_dir : Vector) (depth : Z) (h : Hit) (color : Vector) :
  ((0 < depth)%Z ->
   forall o d, rec1 o d (depth - 1)%Z = rec2 o d (depth - 1)%Z) ->
  shade sqrt fpow rec1 scene ray_dir lights depth h color
  = shade sqrt fpow rec2 scene ray_dir lights depth h color.
Proof.
  intros H. unfold shade.
  destruct (orient (hit_norm h) ray_dir) as [n inside].
  destruct (light_loop _ _ _ _ _ _ _ _ _) as [l [[c flag]| |]];
    try reflexivity.
  rewrite !bind_done. destruct flag; [reflexivity|].
  destruct (reflectivity_of (hit_mat h) ray_dir n) as [lr [k_r| |]];
    try reflexivity.
  rewrite !bind_done. now rewrite (secondary_ext rec1 rec2) by exact H.
Qed.

Lemma trace_fuel_S (fuel : nat) (o d : Vector) (depth : Z) :
  RT_trace_ray_fuel sqrt fpow (S fuel) scene o d lights depth
  = (h <- ray_cast scene (EvTrace o d depth) o d ;;
     if negb (has_hit h) then ret zeros
     else shade sqrt fpow (trace_fuel fuel) scene d lights depth h zeros).
Proof. reflexivity. Qed.

(** [RT_trace_ray] satisfies the recursive equation of the source. *)
Lemma RT_trace_ray_eq (o d : Vector) (depth : Z) :
  RT_trace_ray sqrt fpow scene o d lights depth
  = (h <- ray_cast scene (EvTrace o d depth) o d ;;
     if negb (has_hit h) then ret zeros
     else shade sqrt fpow trace scene d lights depth h zeros).
Proof.
  unfold RT_trace_ray at 1. rewrite trace_fuel_S.
  rewrite ray_cast_eq, !bind_done. cbv beta.
  destruct (negb (has_hit (cast scene o d))); [reflexivity|].
  rewrite (shade_ext (trace_fuel (Z.to_nat depth)) trace); [reflexivity|].
  intros Hd o' d'. unfold RT_trace_ray.
  replace (S (Z.to_nat (depth - 1))) with (Z.to_nat depth) by lia.
  reflexivity.
Qed.

(** Any fuel above the depth gives the result of [RT_trace_ray]. *)
Lemma trace_fuel_enough (fuel : nat) :
  forall o d depth,
    (Z.to_nat depth < fuel)%nat ->
    RT_trace_ray_fuel sqrt fpow fuel scene o d lights depth
    = RT_trace_ray sqrt fpow scene o d lights depth.
Proof.
  induction fuel as [|fuel IH]; intros o d depth Hlt; [lia|].
  rewrite RT_trace_ray_eq, trace_fuel_S.
  rewrite ray_cast_eq, !bind_done. cbv beta.
  destruct (negb (has_hit (cast scene o d))); [reflexivity|].
  rewrite (shade_ext (trace_fuel fuel) trace); [reflexivity|].
  intros Hd o' d'. apply IH. lia.
Qed.

Lemma RT_trace_ray_hit (o d : Vector) (depth : Z) :
  has_hit (cast scene o d) = true ->
  RT_trace_ray sqrt fpow scene o d lights depth
  = (emit (EvTrace o d depth) ;;;
     shade sqrt fpow trace scene d lights depth (cast scene o d) zeros).
Proof.
  intros H. rewrite RT_trace_ray_eq, ray_cast_eq, bind_emit, bind_done.
  rewrite H. reflexivity.
Qed.

Lemma RT_trace_ray_miss (o d : Vector) (depth : Z) :
  has_hit (cast scene o d) = false ->
  RT_trace_ray sqrt fpow scene o d lights depth
  = ([EvTrace o d depth], Done zeros).
Proof.
  intros H. rewrite RT_trace_ray_eq, ray_cast_eq, bind_done.
  rewrite H. reflexivity.
Qed.

(** *** Termination *)

Lemma finishes_bind {A B} (m : M A) (k : A -> M B) :
  finishes m -> (forall a, finishes (k a)) -> finishes (bind m k).
Proof.
  unfold finishes. intros Hm Hk. destruct m as [l [a|f|]]; simpl in *.
  - specialize (Hk a). destruct (k a); exact Hk.
  - discriminate.
  - contradiction.
Qed.

Lemma finishes_qdiv (a b : Q) : finishes (qdiv a b).
Proof. unfold finishes, qdiv. destruct (Qeq_bool b 0); discriminate. Qed.

Lemma finishes_vdiv (a : Vector) (b : Q) : finishes (vdiv a b).
Proof. unfold finishes, vdiv. destruct (Qeq_bool b 0); discriminate. Qed.

Lemma finishes_ret {A} (a : A) : finishes (ret a).
Proof. discriminate. Qed.

Lemma finishes_light_loop (hit_loc hit_norm ray_dir : Vector)
    (mat : Material) (ls : list Light) (st : Vector * bool) :
  finishes (light_loop sqrt fpow scene hit_loc hit_norm ray_dir mat ls st).
Proof.
  unfold finishes.
  destruct (light_loop_outcome sqrt fpow scene hit_loc hit_norm ray_dir mat
              ls st) as [[st' H] | H]; rewrite H; discriminate.
Qed.

Lemma finishes_reflectivity (mat : Material) (ray_dir hit_norm : Vector) :
  finishes (reflectivity_of mat ray_dir hit_norm).
Proof.
  unfold reflectivity_of. destruct (use_fresnel mat).
  - apply finishes_bind; [apply finishes_qdiv | intros; apply finishes_ret].
  - apply finishes_ret.
Qed.

Lemma finishes_shade (rec : Vector -> Vector -> Z -> M Vector)
    (ray_dir : Vector) (depth : Z) (h : Hit) (color : Vector) :
  ((0 < depth)%Z -> forall o d, finishes (rec o d (depth - 1)%Z)) ->
  finishes (shade sqrt fpow rec scene ray_dir lights depth h color).
Proof.
  intros Hrec. unfold shade.
  destruct (orient (hit_norm h) ray_dir) as [n inside].
  apply finishes_bind; [apply finishes_light_loop|].
  intros [c flag]. destruct flag; [apply finishes_ret|].
  apply finishes_bind; [apply finishes_reflectivity|].
  intros k_r. unfold secondary.
  destruct (0 <? depth)%Z eqn:E; [|apply finishes_ret].
  apply Z.ltb_lt in E. specialize (Hrec E).
  apply finishes_bind; [apply Hrec|].
  intros rc. unfold transmit.
  destruct (Qgtb (transmission (hit_mat h)) 0); [|apply finishes_ret].
  destruct (refraction_indices (hit_mat h) inside) as [n1 n2].
  apply finishes_bind; [apply finishes_qdiv|].
  intros r. destruct (Qgeb _ 0); [|apply finishes_ret].
  apply finishes_bind; [apply Hrec | intros; apply finishes_ret].
Qed.

Lemma finishes_trace_fuel (fuel : nat) :
  forall o d depth,
    (Z.to_nat depth < fuel)%nat ->
    finishes (RT_trace_ray_fuel sqrt fpow fuel scene o d lights depth).
Proof.
  induction fuel as [|fuel IH]; intros o d depth Hlt; [lia|].
  rewrite trace_fuel_S, ray_cast_eq, bind_done. cbv beta.
  destruct (negb (has_hit (cast scene o d))); [discriminate|].
  assert (Hs : finishes (shade sqrt fpow (trace_fuel fuel) scene d lights
                           depth (cast scene o d) zeros)).
  { apply finishes_shade. intros Hd o' d'. apply IH. lia. }
  exact Hs.
Qed.

Lemma finishes_RT_trace_ray (o d : Vector) (depth : Z) :
  finishes (RT_trace_ray sqrt fpow scene o d lights depth).
Proof. apply finishes_trace_fuel. lia. Qed.

End Recursion.

(** ** The claims about [RT_trace_ray] *)

Section TraceClaims.

Variable sqrt : Q -> Q.
Variable fpow : Q -> Q -> Q.
Variable scene : Scene.
Variable lights : list Light.

Local Abbreviation trace :=
  (fun o d k => RT_trace_ray sqrt fpow scene o d lights k).

(** C1. When the oracle reports no hit for the ray, [RT_trace_ray]
    returns exactly black, whatever the depth, and casts no other ray. *)
Theorem no_hit_returns_black (o d : Vector) (depth : Z) :
  has_hit (cast scene o d) = false ->
  RT_trace_ray sqrt fpow scene o d lights depth
  = ([EvTrace o d depth], Done zeros).
Proof. apply RT_trace_ray_miss. Qed.

(** C3. On a hit where the shadow ray of every light hits something (in
    particular when there is no light), [RT_trace_ray] returns exactly
    [diffuse_color * ambient_color] at once: the log holds the ray itself
    and one shadow ray per light and nothing else, for every depth and
    every material; the reflectivity is not computed (a material whose
    Fresnel term would divide by zero returns the same colour). *)
Theorem ambient_fallback (o d : Vector) (depth : Z) :
  has_hit (cast scene o d) = true ->
  (forall l, In l lights ->
             occluded sqrt scene (hit_loc (cast scene o d)) l = true) ->
  RT_trace_ray sqrt fpow scene o d lights depth
  = (EvTrace o d depth
       :: map (shadow_event sqrt (hit_loc (cast scene o d))) lights,
     Done (vmul (diffuse_color (hit_mat (cast scene o d)))
                (ambient_color scene))).
Proof.
  intros Hhit Hocc. rewrite RT_trace_ray_hit, bind_emit by exact Hhit.
  unfold shade. destruct (orient _ d) as [n inside].
  rewrite light_loop_all_occluded by exact Hocc.
  rewrite bind_done. simpl. rewrite app_nil_r, vadd_zeros_l. reflexivity.
Qed.

Lemma reflectivity_of_log (mat : Material) (ray_dir n : Vector) :
  fst (reflectivity_of mat ray_dir n) = [].
Proof.
  unfold reflectivity_of, qdiv. destruct (use_fresnel mat); [|reflexivity].
  destruct (Qeq_bool _ 0); reflexivity.
Qed.

Lemma reflectivity_of_done (mat : Material) (ray_dir n : Vector) :
  (use_fresnel mat = true -> ~ 1 + ior mat == 0) ->
  exists k_r, reflectivity_of mat ray_dir n = ([], Done k_r).
Proof.
  intros H. unfold reflectivity_of, qdiv.
  destruct (use_fresnel mat); [|eexists; reflexivity].
  destruct (Qeq_bool (1 + ior mat) 0) eqn:E.
  - apply Qeq_bool_iff in E. now destruct H.
  - eexists. reflexivity.
Qed.

(** Without secondary rays the shading is the light loop, the ambient
    fallback and the computation of the reflectivity. *)
Lemma shade_no_depth (rec : Vector -> Vector -> Z -> M Vector)
    (ray_dir : Vector) (depth : Z) (h : Hit) :
  (depth <= 0)%Z ->
  shade sqrt fpow rec scene ray_dir lights depth h zeros
  = (st <- light_loop sqrt fpow scene (hit_loc h)
             (fst (orient (hit_norm h) ray_dir)) ray_dir (hit_mat h) lights
             (zeros, true) ;;
     if snd st then
       ret (vmul (diffuse_color (hit_mat h)) (ambient_color scene))
     else
       reflectivity_of (hit_mat h) ray_dir
         (fst (orient (hit_norm h) ray_dir)) ;;;
       ret (fst st)).
Proof.
  intros Hd. unfold shade.
  destruct (orient (hit_norm h) ray_dir) as [n inside]. simpl fst.
  destruct (light_loop _ _ _ _ _ _ _ _ _) as [l [[c flag]| |]] eqn:E;
    try reflexivity.
  rewrite !bind_done. simpl snd. simpl fst. destruct flag.
  - destruct (light_loop_flag _ _ _ _ _ _ _ _ _ _ _ _ E) as [-> _].
    now rewrite vadd_zeros_l.
  - unfold secondary.
    replace (0 <? depth)%Z with false by (symmetry; apply Z.ltb_ge; lia).
    reflexivity.
Qed.

(** C4. [RT_trace_ray] terminates for every depth: it ends with a colour
    or a fault, never for want of fuel, and every amount of fuel above the
    depth gives the same result.  It satisfies the recursive
    equation of the source, in which the shading calls the tracer only
    under [depth > 0] and only at [depth - 1] (the shading is the same for
    two tracers that agree there).  At depth 0 (or below) a hit casts the
    ray itself and shadow rays only, the colour it returns is the colour
    of direct lighting (or ambient), and it returns that colour whenever
    the Fresnel term does not divide by zero. *)
Theorem recursion_bounded_by_depth :
  (forall o d depth, finishes (RT_trace_ray sqrt fpow scene o d lights depth))
  /\ (forall fuel o d depth,
        (Z.to_nat depth < fuel)%nat ->
        RT_trace_ray_fuel sqrt fpow fuel scene o d lights depth
        = RT_trace_ray sqrt fpow scene o d lights depth)
  /\ (forall o d depth,
        RT_trace_ray sqrt fpow scene o d lights depth
        = (h <- ray_cast scene (EvTrace o d depth) o d ;;
           if negb (has_hit h) then ret zeros
           else shade sqrt fpow trace scene d lights depth h zeros))
  /\ (forall rec1 rec2 ray_dir depth h color,
        ((0 < depth)%Z ->
         forall o d, rec1 o d (depth - 1)%Z = rec2 o d (depth - 1)%Z) ->
        shade sqrt fpow rec1 scene ray_dir lights depth h color
        = shade sqrt fpow rec2 scene ray_dir lights depth h color)
  /\ (forall o d depth,
        (depth <= 0)%Z ->
        has_hit (cast scene o d) = true ->
        let h := cast scene o d in
        let n := fst (orient (hit_norm h) d) in
        let r := RT_trace_ray sqrt fpow scene o d lights depth in
        (exists k,
            fst r = EvTrace o d depth
                      :: map (shadow_event sqrt (hit_loc h)) (firstn k lights))
        /\ (forall c, snd r = Done c ->
                      snd (direct_lighting sqrt fpow scene d n lights h)
                      = Done c)
        /\ ((use_fresnel (hit_mat h) = true -> ~ 1 + ior (hit_mat h) == 0) ->
            r = (emit (EvTrace o d depth) ;;;
                 direct_lighting sqrt fpow scene d n lights h))).
Proof.
  split; [|split; [|split; [|split]]].
  - intros. apply finishes_RT_trace_ray.
  - intros. now apply trace_fuel_enough.
  - intros. apply RT_trace_ray_eq.
  - intros. now apply shade_ext.
  - intros o d depth Hd Hhit h n r. subst r.
    rewrite RT_trace_ray_hit, bind_emit by exact Hhit.
    rewrite shade_no_depth by exact Hd. fold h. fold n.
    unfold direct_lighting.
    destruct (light_loop_log_prefix sqrt fpow scene (hit_loc h) n d
                (hit_mat h) lights (zeros, true)) as [k Hk].
    destruct (light_loop _ _ _ _ _ _ _ _ _) as [l [[c flag]| |]] eqn:E;
      simpl in Hk; subst l.
    + rewrite !bind_done. simpl snd. simpl fst. destruct flag.
      * simpl. rewrite app_nil_r.
        split; [now exists k|]. split; [auto|]. intros _.
        now rewrite ?app_nil_r.
      * pose proof (reflectivity_of_log (hit_mat h) d n) as Hl.
        split; [|split].
        -- exists k. simpl.
           destruct (reflectivity_of (hit_mat h) d n) as [lr [k_r| |]];
             simpl in Hl; subst lr; simpl; now rewrite app_nil_r.
        -- intros c0.
           destruct (reflectivity_of (hit_mat h) d n) as [lr [k_r| |]];
             simpl; try discriminate. auto.
        -- intros Hior.
           destruct (reflectivity_of_done (hit_mat h) d n Hior) as [k_r ->].
           rewrite bind_emit. reflexivity.
    + simpl. split; [now exists k|]. split; [discriminate|].
      intros _. reflexivity.
    + simpl. split; [now exists k|]. split; [discriminate|].
      intros _. reflexivity.
Qed.

Lemma reflectivity_of_spec (mat : Material) (ray_dir n : Vector) :
  (use_fresnel mat = true -> ~ 1 + ior mat == 0) ->
  reflectivity_of mat ray_dir n = ret (k_r_spec mat ray_dir n).
Proof.
  intros H. unfold reflectivity_of, k_r_spec, qdiv.
  destruct (use_fresnel mat); [|reflexivity].
  destruct (Qeq_bool (1 + ior mat) 0) eqn:E.
  - apply Qeq_bool_iff in E. now destruct H.
  - now rewrite bind_ret_l.
Qed.

(** A hit to which some light contributed goes on to the secondary
    rays. *)
Lemma RT_trace_ray_lit (o d : Vector) (depth : Z) (llog : list event)
    (col : Vector) :
  has_hit (cast scene o d) = true ->
  light_loop sqrt fpow scene (hit_loc (cast scene o d))
    (fst (orient (hit_norm (cast scene o d)) d)) d
    (hit_mat (cast scene o d)) lights (zeros, true)
  = (llog, Done (col, false)) ->
  (use_fresnel (hit_mat (cast scene o d)) = true ->
   ~ 1 + ior (hit_mat (cast scene o d)) == 0) ->
  RT_trace_ray sqrt fpow scene o d lights depth
  = (emit (EvTrace o d depth) ;;; replay llog ;;;
     secondary sqrt trace d (hit_loc (cast scene o d))
       (fst (orient (hit_norm (cast scene o d)) d))
       (snd (orient (hit_norm (cast scene o d)) d))
       (hit_mat (cast scene o d))
       (k_r_spec (hit_mat (cast scene o d)) d
          (fst (orient (hit_norm (cast scene o d)) d)))
       depth col).
Proof.
  intros Hhit Hloop Hior. rewrite RT_trace_ray_hit by exact Hhit.
  f_equal. unfold shade.
  destruct (orient (hit_norm (cast scene o d)) d) as [n inside].
  simpl fst in *. simpl snd.
  rewrite Hloop. unfold replay. rewrite !bind_done.
  rewrite reflectivity_of_spec by exact Hior.
  now rewrite bind_ret_l.
Qed.

Lemma secondary_pos (rec : Vector -> Vector -> Z -> M Vector)
    (d hl n : Vector) (inside : bool) (mat : Material) (k_r : Q)
    (depth : Z) (col : Vector) :
  (0 < depth)%Z ->
  secondary sqrt rec d hl n inside mat k_r depth col
  = (reflect_color <-
       rec (vadd hl (smul eps (D_reflect_spec d n))) (D_reflect_spec d n)
           (depth - 1)%Z ;;
     transmit sqrt rec d hl n inside mat k_r depth
       (vadd col (smul k_r reflect_color))).
Proof.
  intros Hd. unfold secondary.
  replace (0 <? depth)%Z with true by (symmetry; now apply Z.ltb_lt).
  reflexivity.
Qed.

(** C6. On a hit to which at least one light contributed, with
    [depth > 0] (and a Fresnel term that does not divide by zero), the
    tracer goes on, after the light loop, to trace the reflection ray: from
    [hit_point + eps*D_reflect], in the direction
    [D_reflect = direction - 2*dot(direction, normal)*normal], at
    [depth - 1]; [k_r] times the colour of that ray is added to the colour
    of the lights, with [k_r] as the specification defines it, and the sum
    goes to the transmission branch.  When the material does not transmit,
    that sum is the result. *)
Theorem reflection_ray_is_traced (o d : Vector) (depth : Z)
    (llog : list event) (col : Vector) :
  let h := cast scene o d in
  let n := fst (orient (hit_norm h) d) in
  let inside := snd (orient (hit_norm h) d) in
  let mat := hit_mat h in
  let D_reflect := D_reflect_spec d n in
  let k_r := k_r_spec mat d n in
  has_hit h = true ->
  light_loop sqrt fpow scene (hit_loc h) n d mat lights (zeros, true)
  = (llog, Done (col, false)) ->
  (0 < depth)%Z ->
  (use_fresnel mat = true -> ~ 1 + ior mat == 0) ->
  RT_trace_ray sqrt fpow scene o d lights depth
  = (emit (EvTrace o d depth) ;;; replay llog ;;;
     reflect_color <-
       RT_trace_ray sqrt fpow scene (vadd (hit_loc h) (smul eps D_reflect))
         D_reflect lights (depth - 1) ;;
     transmit sqrt trace d (hit_loc h) n inside mat k_r depth
       (vadd col (smul k_r reflect_color)))
  /\ (forall rl reflect_color,
        RT_trace_ray sqrt fpow scene (vadd (hit_loc h) (smul eps D_reflect))
          D_reflect lights (depth - 1) = (rl, Done reflect_color) ->
        transmission mat <= 0 ->
        RT_trace_ray sqrt fpow scene o d lights depth
        = (EvTrace o d depth :: llog ++ rl,
           Done (vadd col (smul k_r reflect_color)))).
Proof.
  intros h n inside mat D_reflect k_r Hhit Hloop Hd Hior.
  pose proof (RT_trace_ray_lit o d depth llog col Hhit Hloop Hior) as E.
  fold h n inside mat k_r in E.
  rewrite secondary_pos in E by exact Hd. fold D_reflect in E.
  split; [exact E|].
  intros rl rc Hr Ht. rewrite E, Hr.
  rewrite bind_emit. unfold replay. rewrite !bind_done.
  unfold transmit.
  replace (Qgtb (transmission mat) 0) with false
    by (symmetry; now apply Qgtb_false).
  simpl. now rewrite app_nil_r.
Qed.

Lemma qdiv_nonzero (a b : Q) : ~ b == 0 -> qdiv a b = ret (a / b).
Proof.
  intros Hz. unfold qdiv.
  now replace (Qeq_bool b 0) with false
    by (symmetry; now apply Qeq_bool_false).
Qed.

(** The transmission branch of a transmitting material, in the
    quantities of the specification. *)
Lemma transmit_entered (rec : Vector -> Vector -> Z -> M Vector)
    (d hl n : Vector) (inside : bool) (mat : Material) (k_r : Q)
    (depth : Z) (c : Vector) :
  0 < transmission mat ->
  ~ snd (n_pair_spec mat inside) == 0 ->
  transmit sqrt rec d hl n inside mat k_r depth c
  = (if Qgeb (cos_t2_spec (ratio_spec mat inside) (cos_i_spec n d)) 0 then
       transmit_color <-
         rec (vadd hl
                (smul eps
                   (D_transmit_spec sqrt (ratio_spec mat inside)
                      (cos_i_spec n d)
                      (cos_t2_spec (ratio_spec mat inside) (cos_i_spec n d))
                      d n)))
             (D_transmit_spec sqrt (ratio_spec mat inside) (cos_i_spec n d)
                (cos_t2_spec (ratio_spec mat inside) (cos_i_spec n d)) d n)
             (depth - 1)%Z ;;
       ret (vadd c (smul ((1 - k_r) * transmission mat) transmit_color))
     else ret c).
Proof.
  intros Ht Hn2. unfold transmit.
  replace (Qgtb (transmission mat) 0) with true
    by (symmetry; now apply Qgtb_true).
  unfold ratio_spec. unfold n_pair_spec in *. unfold refraction_indices.
  destruct inside; simpl fst in *; simpl snd in *;
    rewrite qdiv_nonzero by exact Hn2; rewrite bind_ret_l; reflexivity.
Qed.

(** C7. The transmission branch, after the reflection ray has returned a
    colour: a material with [transmission <= 0] does not enter it.  With
    [transmission > 0] (and a divisor [n2] that is not zero), when
    [cos_t2 < 0] the branch adds nothing and is no fault: the result is
    the colour so far; otherwise the ray of direction [D_transmit] is
    traced from [hit_point + eps*D_transmit] at [depth - 1] and
    [(1-k_r)*transmission] times its colour is added. *)
Theorem transmission_branch (o d : Vector) (depth : Z)
    (llog rl : list event) (col reflect_color : Vector) :
  let h := cast scene o d in
  let n := fst (orient (hit_norm h) d) in
  let inside := snd (orient (hit_norm h) d) in
  let mat := hit_mat h in
  let D_reflect := D_reflect_spec d n in
  let k_r := k_r_spec mat d n in
  let ratio := ratio_spec mat inside in
  let cos_i := cos_i_spec n d in
  let cos_t2 := cos_t2_spec ratio cos_i in
  let D_transmit := D_transmit_spec sqrt ratio cos_i cos_t2 d n in
  let so_far := vadd col (smul k_r reflect_color) in
  has_hit h = true ->
  light_loop sqrt fpow scene (hit_loc h) n d mat lights (zeros, true)
  = (llog, Done (col, false)) ->
  (0 < depth)%Z ->
  (use_fresnel mat = true -> ~ 1 + ior mat == 0) ->
  RT_trace_ray sqrt fpow scene (vadd (hit_loc h) (smul eps D_reflect))
    D_reflect lights (depth - 1) = (rl, Done reflect_color) ->
  (transmission mat <= 0 ->
   RT_trace_ray sqrt fpow scene o d lights depth
   = (EvTrace o d depth :: llog ++ rl, Done so_far))
  /\ (0 < transmission mat ->
      ~ snd (n_pair_spec mat inside) == 0 ->
      (cos_t2 < 0 ->
       RT_trace_ray sqrt fpow scene o d lights depth
       = (EvTrace o d depth :: llog ++ rl, Done so_far))
      /\ (0 <= cos_t2 ->
          RT_trace_ray sqrt fpow scene o d lights depth
          = (replay (EvTrace o d depth :: llog ++ rl) ;;;
             transmit_color <-
               RT_trace_ray sqrt fpow scene
                 (vadd (hit_loc h) (smul eps D_transmit)) D_transmit lights
                 (depth - 1) ;;
             ret (vadd so_far
                    (smul ((1 - k_r) * transmission mat) transmit_color))))).
Proof.
  intros h n inside mat D_reflect k_r ratio cos_i cos_t2 D_transmit so_far
         Hhit Hloop Hd Hior Hr.
  pose proof (RT_trace_ray_lit o d depth llog col Hhit Hloop Hior) as E.
  fold h n inside mat k_r in E.
  rewrite secondary_pos in E by exact Hd. fold D_reflect in E.
  rewrite Hr in E.
  rewrite bind_emit in E. unfold replay in E. rewrite !bind_done in E.
  cbv beta in E. fold so_far in E.
  assert (Hpre : forall (X : M Vector),
             (EvTrace o d depth :: fst (llog ++ fst (rl ++ fst X, snd X),
                                        snd (rl ++ fst X, snd X)),
              snd (llog ++ fst (rl ++ fst X, snd X),
                   snd (rl ++ fst X, snd X)))
             = (replay (EvTrace o d depth :: llog ++ rl) ;;; X)).
  { intros [lx ox]. unfold replay. rewrite bind_done. simpl.
    now rewrite app_assoc. }
  rewrite Hpre in E. clear Hpre. rewrite E.
  unfold transmit. split.
  - intros Ht.
    replace (Qgtb (transmission mat) 0) with false
      by (symmetry; now apply Qgtb_false).
    unfold replay. rewrite bind_done. simpl. now rewrite app_nil_r.
  - intros Ht Hn2. fold (transmit sqrt trace d (hit_loc h) n inside mat k_r
                           depth so_far).
    rewrite transmit_entered by assumption.
    fold ratio cos_i cos_t2 D_transmit.
    split; intros Hc.
    + replace (Qgeb cos_t2 0) with false
        by (symmetry; now apply Qgeb_false).
      unfold replay. rewrite bind_done. simpl. now rewrite app_nil_r.
    + replace (Qgeb cos_t2 0) with true
        by (symmetry; now apply Qgeb_true).
      reflexivity.
Qed.

Lemma vdot_vneg_l (a b : Vector) : vdot (vneg a) b == - vdot a b.
Proof. unfold vdot, vneg. simpl. ring. Qed.

Lemma orient_spec (hit_norm ray_dir : Vector) :
  vdot (fst (orient hit_norm ray_dir)) ray_dir <= 0
  /\ (snd (orient hit_norm ray_dir) = true <-> 0 < vdot hit_norm ray_dir)
  /\ fst (orient hit_norm ray_dir)
     = (if snd (orient hit_norm ray_dir) then vneg hit_norm else hit_norm).
Proof.
  unfold orient. destruct (Qgtb (vdot hit_norm ray_dir) 0) eqn:E; simpl.
  - apply Qgtb_true in E. split; [|split; [tauto|reflexivity]].
    rewrite vdot_vneg_l. lra.
  - apply Qgtb_false in E. split; [exact E|]. split; [|reflexivity].
    split; [discriminate|]. intros H. lra.
Qed.

(** C8. The orientation fix: the normal that the shading uses has
    [dot(normal, direction) <= 0]; it is the negated normal of the oracle,
    with [ray_inside_object] set, exactly when the normal of the oracle
    has [dot(normal, direction) > 0].  The whole shading of a hit (the
    light loop, the reflectivity, the secondary rays) runs on that normal
    and that flag; under [depth > 0] the secondary rays hand both to the
    transmission branch; and there, for a transmitting material, the flag
    selects the pair: [(n1, n2) = (ior, 1)] when set and [(1, ior)] when
    not.  With that pair the branch divides [n1] by [n2] (a division by
    zero when [n2] is zero) and, when [cos_t2 >= 0], traces the ray
    [D_transmit] that the ratio gives and adds its colour; the flag does
    nothing else in the branch. *)
Theorem normal_is_oriented_against_ray :
  (forall hit_norm ray_dir,
      vdot (fst (orient hit_norm ray_dir)) ray_dir <= 0
      /\ (snd (orient hit_norm ray_dir) = true
          <-> 0 < vdot hit_norm ray_dir)
      /\ fst (orient hit_norm ray_dir)
         = (if snd (orient hit_norm ray_dir) then vneg hit_norm
            else hit_norm))
  /\ (forall rec ray_dir depth h color,
        let n := fst (orient (hit_norm h) ray_dir) in
        let inside := snd (orient (hit_norm h) ray_dir) in
        shade sqrt fpow rec scene ray_dir lights depth h color
        = (st <- light_loop sqrt fpow scene (hit_loc h) n ray_dir (hit_mat h)
                   lights (color, true) ;;
           if snd st then
             ret (vadd (fst st)
                    (vmul (diffuse_color (hit_mat h)) (ambient_color scene)))
           else
             k_r <- reflectivity_of (hit_mat h) ray_dir n ;;
             secondary sqrt rec ray_dir (hit_loc h) n inside (hit_mat h) k_r
               depth (fst st)))
  /\ (forall rec ray_dir hl n inside mat k_r depth color,
        (0 < depth)%Z ->
        secondary sqrt rec ray_dir hl n inside mat k_r depth color
        = (reflect_color <-
             rec (vadd hl (smul eps (D_reflect_spec ray_dir n)))
                 (D_reflect_spec ray_dir n) (depth - 1)%Z ;;
           transmit sqrt rec ray_dir hl n inside mat k_r depth
             (vadd color (smul k_r reflect_color))))
  /\ (forall rec ray_dir hl oracle_norm mat k_r depth color,
        let n := fst (orient oracle_norm ray_dir) in
        let inside := snd (orient oracle_norm ray_dir) in
        let n1 := if Qgtb (vdot oracle_norm ray_dir) 0 then ior mat else 1 in
        let n2 := if Qgtb (vdot oracle_norm ray_dir) 0 then 1 else ior mat in
        let ratio := n1 / n2 in
        let cos_i := - vdot n ray_dir in
        let cos_t2 := 1 - ratio ^ 2 * (1 - cos_i ^ 2) in
        let D_transmit :=
          vadd (smul ratio ray_dir)
               (smul (ratio * cos_i - sqrt cos_t2) n) in
        0 < transmission mat ->
        (n2 == 0 ->
         transmit sqrt rec ray_dir hl n inside mat k_r depth color
         = raise DivByZero)
        /\ (~ n2 == 0 ->
            transmit sqrt rec ray_dir hl n inside mat k_r depth color
            = (if Qgeb cos_t2 0 then
                 transmit_color <-
                   rec (vadd hl (smul eps D_transmit)) D_transmit
                       (depth - 1)%Z ;;
                 ret (vadd color
                        (smul ((1 - k_r) * transmission mat) transmit_color))
               else ret color)))
  /\ (forall mat hit_norm ray_dir,
        refraction_indices mat (snd (orient hit_norm ray_dir))
        = (if Qgtb (vdot hit_norm ray_dir) 0 then (ior mat, 1)
           else (1, ior mat)))
  /\ (forall rec ray_dir hl n mat k_r depth color b1 b2,
        refraction_indices mat b1 = refraction_indices mat b2 ->
        transmit sqrt rec ray_dir hl n b1 mat k_r depth color
        = transmit sqrt rec ray_dir hl n b2 mat k_r depth color).
Proof.
  split; [|split; [|split; [|split; [|split]]]].
  - apply orient_spec.
  - intros rec ray_dir depth h color n inside. subst n inside.
    unfold shade. destruct (orient (hit_norm h) ray_dir) as [n inside].
    simpl fst. simpl snd.
    destruct (light_loop _ _ _ _ _ _ _ _ _) as [l [[c flag]| |]];
      reflexivity.
  - intros rec ray_dir hl n inside mat k_r depth color Hd.
    now apply secondary_pos.
  - intros rec ray_dir hl oracle_norm mat k_r depth color.
    unfold orient.
    destruct (Qgtb (vdot oracle_norm ray_dir) 0); cbn [fst snd]; cbv zeta;
      intros Ht; (split; intros Hn2).
    + unfold transmit, refraction_indices, qdiv.
      replace (Qgtb (transmission mat) 0) with true
        by (symmetry; now apply Qgtb_true).
      now replace (Qeq_bool 1 0) with true
        by (symmetry; now apply Qeq_bool_iff).
    + rewrite transmit_entered by assumption. reflexivity.
    + unfold transmit, refraction_indices, qdiv.
      replace (Qgtb (transmission mat) 0) with true
        by (symmetry; now apply Qgtb_true).
      now replace (Qeq_bool (ior mat) 0) with true
        by (symmetry; now apply Qeq_bool_iff).
    + rewrite transmit_entered by assumption. reflexivity.
  - intros mat hit_norm ray_dir. unfold orient.
    destruct (Qgtb (vdot hit_norm ray_dir) 0); reflexivity.
  - intros rec ray_dir hl n mat k_r depth color b1 b2 H.
    unfold transmit. now rewrite H.
Qed.

End TraceClaims.

(** ** The divisions of the light loop *)

Section Divisions.

Variable sqrt : Q -> Q.
Variable fpow : Q -> Q -> Q.
Variable scene : Scene.

Hypothesis sqrt_ok : sqrt_vanishes_at_zero_only sqrt.

Lemma length_squared_zero (v : Vector) :
  length_squared v == 0 <-> veq v zeros.
Proof.
  unfold length_squared, vdot, veq. destruct v as [x y z]. simpl.
  split.
  - intros H. repeat split; nra.
  - intros (Hx & Hy & Hz). rewrite Hx, Hy, Hz. ring.
Qed.

Lemma half_vector_zero (a b : Vector) :
  veq (vadd a (vneg b)) zeros <-> veq a b.
Proof.
  unfold veq. destruct a, b. simpl. split; intros (H1 & H2 & H3);
    repeat split; lra.
Qed.

Lemma norm_half_zero (a b : Vector) :
  norm sqrt (vadd a (vneg b)) == 0 <-> veq a b.
Proof.
  unfold norm. rewrite (sqrt_ok _ (length_squared_nonneg _)).
  rewrite length_squared_zero. apply half_vector_zero.
Qed.

Lemma vdiv_nonzero (a : Vector) (k : Q) :
  ~ k == 0 -> vdiv a k = ret (divs a k).
Proof.
  intros H. unfold vdiv.
  now replace (Qeq_bool k 0) with false
    by (symmetry; now apply Qeq_bool_false).
Qed.

Lemma vdiv_zero (a : Vector) (k : Q) :
  k == 0 -> vdiv a k = raise DivByZero.
Proof.
  intros H. unfold vdiv.
  now replace (Qeq_bool k 0) with true
    by (symmetry; now apply Qeq_bool_iff).
Qed.

Lemma light_step_divides (hit_loc hit_norm ray_dir : Vector)
    (mat : Material) (st : Vector * bool) (light : Light) :
  occluded sqrt scene hit_loc light = false ->
  (~ breaks_division sqrt hit_loc ray_dir light ->
   exists st', snd (light_step sqrt fpow scene hit_loc hit_norm ray_dir mat
                      st light) = Done st')
  /\ (breaks_division sqrt hit_loc ray_dir light ->
      snd (light_step sqrt fpow scene hit_loc hit_norm ray_dir mat st light)
      = Fault DivByZero).
Proof.
  unfold occluded, breaks_division, shadow_orig, light_dir_of, light_vec_of.
  intros Hocc. unfold light_step. destruct st as [color flag].
  rewrite ray_cast_eq, bind_done. cbv zeta. rewrite Hocc.
  destruct (Qeq_dec (length_squared (vsub (location light) hit_loc)) 0)
    as [Hz | Hz].
  - rewrite vdiv_zero by exact Hz. split; [|reflexivity].
    intros H. destruct H. now left.
  - rewrite vdiv_nonzero by exact Hz. rewrite bind_ret_l.
    pose proof (norm_half_zero
                  (normalized sqrt (vsub (location light) hit_loc)) ray_dir)
      as Hn.
    destruct (Qeq_dec (norm sqrt
                         (vadd (normalized sqrt
                                  (vsub (location light) hit_loc))
                               (vneg ray_dir))) 0) as [Hh | Hh].
    + rewrite vdiv_zero by exact Hh. split; [|reflexivity].
      intros H. destruct H. right. now apply Hn.
    + rewrite vdiv_nonzero by exact Hh. rewrite bind_ret_l.
      split; [intros _; eexists; reflexivity|].
      intros [H | H]; [contradiction|]. apply Hn in H. contradiction.
Qed.

Lemma light_loop_divides_safely (hit_loc hit_norm ray_dir : Vector)
    (mat : Material) (lights : list Light) :
  forall st,
    (forall l, In l lights -> occluded sqrt scene hit_loc l = false ->
               ~ breaks_division sqrt hit_loc ray_dir l) ->
    exists st', snd (light_loop sqrt fpow scene hit_loc hit_norm ray_dir mat
                       lights st) = Done st'.
Proof.
  induction lights as [|light rest IH]; intros st H.
  - now exists st.
  - rewrite light_loop_cons.
    assert (Hs : exists st1,
               snd (light_step sqrt fpow scene hit_loc hit_norm ray_dir mat
                      st light) = Done st1).
    { destruct (occluded sqrt scene hit_loc light) eqn:E.
      - exists st. now rewrite light_step_occluded.
      - apply (light_step_divides hit_loc hit_norm ray_dir mat st light E).
        apply H; [now left | exact E]. }
    destruct Hs as [st1 Hs].
    destruct (light_step _ _ _ _ _ _ _ st light) as [l1 o1].
    simpl in Hs. subst o1. rewrite bind_done. simpl.
    apply IH. intros l Hl. apply H. now right.
Qed.

Lemma light_loop_divides_by_zero (hit_loc hit_norm ray_dir : Vector)
    (mat : Material) (lights : list Light) :
  forall st l,
    In l lights -> occluded sqrt scene hit_loc l = false ->
    breaks_division sqrt hit_loc ray_dir l ->
    snd (light_loop sqrt fpow scene hit_loc hit_norm ray_dir mat lights st)
    = Fault DivByZero.
Proof.
  induction lights as [|light rest IH]; intros st l Hin Hocc Hbad.
  - destruct Hin.
  - rewrite light_loop_cons. destruct Hin as [-> | Hin].
    + pose proof (proj2 (light_step_divides hit_loc hit_norm ray_dir mat st
                           l Hocc) Hbad) as Hs.
      destruct (light_step _ _ _ _ _ _ _ st l) as [l1 o1].
      simpl in Hs. now subst o1.
    + destruct (light_step _ _ _ _ _ _ _ st light) as [l1 [st1|f|]] eqn:E.
      * rewrite bind_done. simpl. now apply (IH st1 l).
      * pose proof (light_loop_outcome sqrt fpow scene hit_loc hit_norm
                      ray_dir mat [light] st) as Ho.
        rewrite light_loop_cons, E in Ho. simpl in Ho.
        destruct Ho as [[st' Ho] | Ho]; [discriminate|]. exact Ho.
      * pose proof (light_loop_outcome sqrt fpow scene hit_loc hit_norm
                      ray_dir mat [light] st) as Ho.
        rewrite light_loop_cons, E in Ho. simpl in Ho.
        destruct Ho as [[st' Ho] | Ho]; discriminate.
Qed.

(** C10. The shading of a light that is not occluded divides twice, by
    [|light_vec|^2] and by the norm of the half vector, and checks neither
    divisor.  With a square root that vanishes at zero only: when
    [|light_vec|^2] is not zero and [light_dir] is not [ray_dir], both
    divisors are non-zero and the iteration returns; when either fails,
    the iteration divides by zero.  So the light loop returns when no
    light that is not occluded breaks a precondition, and as soon as one
    does, the loop and [RT_trace_ray] on that hit divide by zero. *)
Theorem light_divisions_are_unguarded
    (hit_point hit_norm ray_dir : Vector) (mat : Material) :
  (forall st light,
      occluded sqrt scene hit_point light = false ->
      ~ length_squared (light_vec_of hit_point light) == 0 ->
      ~ veq (light_dir_of sqrt hit_point light) ray_dir ->
      ~ length_squared (light_vec_of hit_point light) == 0
      /\ ~ norm sqrt (vadd (light_dir_of sqrt hit_point light) (vneg ray_dir))
           == 0
      /\ exists st',
          snd (light_step sqrt fpow scene hit_point hit_norm ray_dir mat st
                 light) = Done st')
  /\ (forall st light,
        occluded sqrt scene hit_point light = false ->
        length_squared (light_vec_of hit_point light) == 0
        \/ veq (light_dir_of sqrt hit_point light) ray_dir ->
        snd (light_step sqrt fpow scene hit_point hit_norm ray_dir mat st light)
        = Fault DivByZero)
  /\ (forall lights st,
        (forall l, In l lights -> occluded sqrt scene hit_point l = false ->
                   ~ breaks_division sqrt hit_point ray_dir l) ->
        exists st',
          snd (light_loop sqrt fpow scene hit_point hit_norm ray_dir mat
                 lights st) = Done st')
  /\ (forall lights o depth l,
        has_hit (cast scene o ray_dir) = true ->
        hit_point = hit_loc (cast scene o ray_dir) ->
        In l lights -> occluded sqrt scene hit_point l = false ->
        breaks_division sqrt hit_point ray_dir l ->
        snd (RT_trace_ray sqrt fpow scene o ray_dir lights depth)
        = Fault DivByZero).
Proof.
  split; [|split; [|split]].
  - intros st light Hocc Hz Hd. split; [exact Hz|]. split.
    + rewrite norm_half_zero. exact Hd.
    + apply (light_step_divides hit_point hit_norm ray_dir mat st light Hocc).
      unfold breaks_division. tauto.
  - intros st light Hocc Hbad.
    now apply (light_step_divides hit_point hit_norm ray_dir mat st light Hocc).
  - intros lights st H. now apply light_loop_divides_safely.
  - intros lights o depth l Hhit -> Hin Hocc Hbad.
    rewrite RT_trace_ray_hit, bind_emit by exact Hhit. simpl snd.
    unfold shade. destruct (orient _ ray_dir) as [n inside].
    pose proof (light_loop_divides_by_zero
                  (hit_loc (cast scene o ray_dir)) n ray_dir
                  (hit_mat (cast scene o ray_dir)) lights (zeros, true) l
                  Hin Hocc Hbad) as Hf.
    destruct (light_loop _ _ _ _ _ _ _ _ _) as [ll ol]. simpl in Hf.
    subst ol. reflexivity.
Qed.

End Divisions.

(** ** The sign of the colour *)

Section Sign.

Variable sqrt : Q -> Q.
Variable fpow : Q -> Q -> Q.
Variable scene : Scene.
Variable lights : list Light.

Lemma vnonneg_zeros : vnonneg zeros.
Proof. unfold vnonneg, zeros. simpl. repeat split; lra. Qed.

Lemma vnonneg_vadd (a b : Vector) :
  vnonneg a -> vnonneg b -> vnonneg (vadd a b).
Proof.
  unfold vnonneg, vadd. simpl. intros (?&?&?) (?&?&?). repeat split; lra.
Qed.

Lemma vnonneg_vmul (a b : Vector) :
  vnonneg a -> vnonneg b -> vnonneg (vmul a b).
Proof.
  unfold vnonneg, vmul. simpl. intros (?&?&?) (?&?&?).
  repeat split; now apply Qmult_le_0_compat.
Qed.

Lemma vnonneg_smul (k : Q) (a : Vector) :
  0 <= k -> vnonneg a -> vnonneg (smul k a).
Proof.
  unfold vnonneg, smul. simpl. intros ? (?&?&?).
  repeat split; now apply Qmult_le_0_compat.
Qed.

Lemma vnonneg_muls (a : Vector) (k : Q) :
  vnonneg a -> 0 <= k -> vnonneg (muls a k).
Proof.
  unfold vnonneg, muls. simpl. intros (?&?&?) ?.
  repeat split; now apply Qmult_le_0_compat.
Qed.

Lemma Qdiv_nonneg (a k : Q) : 0 <= a -> 0 <= k -> 0 <= a / k.
Proof.
  intros Ha Hk. unfold Qdiv. apply Qmult_le_0_compat; [exact Ha|].
  now apply Qinv_le_0_compat.
Qed.

Lemma vnonneg_divs (a : Vector) (k : Q) :
  vnonneg a -> 0 <= k -> vnonneg (divs a k).
Proof.
  unfold vnonneg, divs. simpl. intros (?&?&?) ?.
  repeat split; now apply Qdiv_nonneg.
Qed.

(** One iteration keeps the colour non-negative when the light faces the
    normal. *)
Lemma light_step_nonneg (hit_loc hit_norm ray_dir : Vector) (mat : Material)
    (c : Vector) (flag : bool) (light : Light) (l : list event)
    (c' : Vector) (flag' : bool) :
  vnonneg (diffuse_color mat) -> vnonneg (specular_color mat) ->
  vnonneg (light_rgb light) -> 0 <= energy light ->
  (occluded sqrt scene hit_loc light = false ->
   0 <= vdot (light_dir_of sqrt hit_loc light) hit_norm
   /\ 0 <= fpow (vdot hit_norm (half_vector_of sqrt hit_loc ray_dir light))
                (specular_hardness mat)) ->
  vnonneg c ->
  light_step sqrt fpow scene hit_loc hit_norm ray_dir mat (c, flag) light
  = (l, Done (c', flag')) ->
  vnonneg c'.
Proof.
  intros Hd Hs Hl He Hfront Hc.
  unfold occluded, half_vector_of, shadow_orig, light_dir_of, light_vec_of
    in Hfront.
  unfold light_step. rewrite ray_cast_eq, bind_done. cbv zeta.
  destruct (has_hit _).
  - intros H. inversion H. now subst.
  - destruct (Hfront eq_refl) as [Hdot Hpow].
    unfold vdiv.
    destruct (Qeq_bool (length_squared _) 0); [discriminate|].
    rewrite bind_ret_l.
    destruct (Qeq_bool (norm _ _) 0); [discriminate|].
    rewrite bind_ret_l. intros H. inversion H. subst c'.
    assert (HI : vnonneg (divs (muls (light_rgb light) (energy light))
                            (length_squared (vsub (location light) hit_loc)))).
    { apply vnonneg_divs; [now apply vnonneg_muls|].
      apply length_squared_nonneg. }
    apply vnonneg_vadd; [apply vnonneg_vadd; [exact Hc|]|].
    + apply vnonneg_muls; [now apply vnonneg_vmul | exact Hdot].
    + apply vnonneg_muls; [now apply vnonneg_vmul | exact Hpow].
Qed.

Lemma light_loop_nonneg (hit_loc hit_norm ray_dir : Vector) (mat : Material)
    (ls : list Light) :
  vnonneg (diffuse_color mat) -> vnonneg (specular_color mat) ->
  (forall l, In l ls -> vnonneg (light_rgb l) /\ 0 <= energy l) ->
  (forall l, In l ls -> occluded sqrt scene hit_loc l = false ->
     0 <= vdot (light_dir_of sqrt hit_loc l) hit_norm
     /\ 0 <= fpow (vdot hit_norm (half_vector_of sqrt hit_loc ray_dir l))
                  (specular_hardness mat)) ->
  forall c flag l c' flag',
    vnonneg c ->
    light_loop sqrt fpow scene hit_loc hit_norm ray_dir mat ls (c, flag)
    = (l, Done (c', flag')) ->
    vnonneg c'.
Proof.
  intros Hd Hs. induction ls as [|light rest IH];
    intros Hl Hfront c flag l c' flag' Hc H.
  - inversion H. now subst.
  - rewrite light_loop_cons in H.
    destruct (light_step _ _ _ _ _ _ _ (c, flag) light)
      as [l1 [[c1 f1]| |]] eqn:E; try discriminate.
    rewrite bind_done in H.
    destruct (light_loop _ _ _ _ _ _ _ rest (c1, f1)) as [l2 o2] eqn:E2.
    simpl in H. inversion H; subst.
    eapply IH; [| | |exact E2].
    + intros l0 Hin. apply Hl. now right.
    + intros l0 Hin. apply Hfront. now right.
    + destruct (Hl light (or_introl eq_refl)) as [Hrgb Hen].
      eapply light_step_nonneg; [exact Hd|exact Hs|exact Hrgb|exact Hen| |
                                 exact Hc|exact E].
      apply Hfront. now left.
Qed.

Lemma reflectivity_of_value (mat : Material) (ray_dir n : Vector)
    (l : list event) (k_r : Q) :
  reflectivity_of mat ray_dir n = (l, Done k_r) ->
  k_r = k_r_spec mat ray_dir n.
Proof.
  unfold reflectivity_of, k_r_spec, qdiv.
  destruct (use_fresnel mat).
  - destruct (Qeq_bool (1 + ior mat) 0); [discriminate|].
    rewrite bind_ret_l. intros H. now inversion H.
  - intros H. now inversion H.
Qed.

Local Abbreviation along := (hits_lit_from_front sqrt fpow scene lights).

Lemma hits_lit_app (l1 l2 : list event) :
  along (l1 ++ l2) -> along l1 /\ along l2.
Proof.
  intros H. split; intros o d k Hin; apply (H o d k); apply in_or_app;
    [now left | now right].
Qed.

(** The transmission branch keeps the colour non-negative when the colour
    of the ray that it traces is non-negative. *)
Lemma transmit_nonneg (rec : Vector -> Vector -> Z -> M Vector)
    (d hl n : Vector) (inside : bool) (mat : Material) (k_r : Q)
    (depth : Z) (c : Vector) (l : list event) (c' : Vector) :
  (forall o' d' l' c', rec o' d' (depth - 1)%Z = (l', Done c') ->
                       along l' -> vnonneg c') ->
  0 <= k_r <= 1 -> 0 <= transmission mat -> vnonneg c ->
  transmit sqrt rec d hl n inside mat k_r depth c = (l, Done c') ->
  along l -> vnonneg c'.
Proof.
  intros Hrec [Hk0 Hk1] Ht Hc. unfold transmit.
  destruct (Qgtb (transmission mat) 0).
  2:{ intros H. inversion H. now subst. }
  destruct (refraction_indices mat inside) as [n1 n2].
  unfold qdiv. destruct (Qeq_bool n2 0); [discriminate|].
  rewrite bind_ret_l.
  destruct (Qgeb _ 0).
  2:{ intros H. inversion H. now subst. }
  match goal with
  | |- context [bind (rec ?a ?b ?k) _] =>
      destruct (rec a b k) as [l2 [tc| |]] eqn:E2
  end; try (simpl; discriminate).
  rewrite bind_done. simpl. intros H. inversion H. subst.
  rewrite app_nil_r. intros Hl.
  apply vnonneg_vadd; [exact Hc|]. apply vnonneg_smul.
  - apply Qmult_le_0_compat; [lra | exact Ht].
  - eapply Hrec; [exact E2 | exact Hl].
Qed.

(** So do the secondary rays together. *)
Lemma secondary_nonneg_along (rec : Vector -> Vector -> Z -> M Vector)
    (d hl n : Vector) (inside : bool) (mat : Material) (k_r : Q)
    (depth : Z) (c : Vector) (l : list event) (c' : Vector) :
  (forall o' d' l' c', rec o' d' (depth - 1)%Z = (l', Done c') ->
                       along l' -> vnonneg c') ->
  0 <= k_r <= 1 -> 0 <= transmission mat -> vnonneg c ->
  secondary sqrt rec d hl n inside mat k_r depth c = (l, Done c') ->
  along l -> vnonneg c'.
Proof.
  intros Hrec Hk Ht Hc. unfold secondary.
  destruct (0 <? depth)%Z.
  2:{ intros H. inversion H. now subst. }
  destruct (rec _ _ _) as [l1 [rc| |]] eqn:E1; try discriminate.
  rewrite bind_done. cbv beta.
  destruct (transmit _ _ _ _ _ _ _ _ _ _) as [l2 o2] eqn:E2.
  cbn [fst snd]. intros H. inversion H. subst.
  intros Hl. apply hits_lit_app in Hl. destruct Hl as [Hl1 Hl2].
  eapply transmit_nonneg; [exact Hrec | exact Hk | exact Ht | | exact E2
                          | exact Hl2].
  apply vnonneg_vadd; [exact Hc|]. apply vnonneg_smul; [apply Hk|].
  eapply Hrec; [exact E1 | exact Hl1].
Qed.

Lemma shade_nonneg_along (rec : Vector -> Vector -> Z -> M Vector)
    (o d : Vector) (depth : Z) (l : list event) (c : Vector) :
  vnonneg (ambient_color scene) ->
  (forall lt, In lt lights -> vnonneg (light_rgb lt) /\ 0 <= energy lt) ->
  lit_from_front_at sqrt fpow scene lights o d ->
  (forall o' d' l' c', rec o' d' (depth - 1)%Z = (l', Done c') ->
                       along l' -> vnonneg c') ->
  shade sqrt fpow rec scene d lights depth (cast scene o d) zeros
  = (l, Done c) ->
  along l -> vnonneg c.
Proof.
  intros Hamb Hlights (Hd & Hs & Hk & Ht & Hfront) Hrec.
  unfold shade.
  destruct (orient (hit_norm (cast scene o d)) d) as [n inside].
  simpl fst in *.
  destruct (light_loop _ _ _ _ _ _ _ _ _) as [l1 [[c1 flag]| |]] eqn:E;
    try discriminate.
  assert (Hc1 : vnonneg c1).
  { eapply (light_loop_nonneg _ _ _ _ lights Hd Hs Hlights);
      [|apply vnonneg_zeros|exact E].
    intros l0 Hin Hocc. unfold half_vector_of. now apply Hfront. }
  rewrite bind_done. destruct flag.
  - simpl. intros H. inversion H. subst. intros _.
    apply vnonneg_vadd; [exact Hc1|]. now apply vnonneg_vmul.
  - destruct (reflectivity_of _ d n) as [l2 [k_r| |]] eqn:Ek;
      try discriminate.
    pose proof Ek as Ek'. apply reflectivity_of_value in Ek'. subst k_r.
    assert (El2 : l2 = []).
    { revert Ek. unfold reflectivity_of, qdiv.
      destruct (use_fresnel _); [destruct (Qeq_bool _ 0)|];
        intros H; inversion H; reflexivity. }
    subst l2.
    rewrite bind_done.
    destruct (secondary _ _ _ _ _ _ _ _ _ _) as [l3 o3] eqn:Es.
    simpl. intros H. inversion H. subst.
    intros Hl. apply hits_lit_app in Hl. destruct Hl as [_ Hl3].
    eapply secondary_nonneg_along;
      [exact Hrec|exact Hk|exact Ht|exact Hc1|exact Es|exact Hl3].
Qed.

Lemma trace_fuel_nonneg_along (fuel : nat) :
  vnonneg (ambient_color scene) ->
  (forall lt, In lt lights -> vnonneg (light_rgb lt) /\ 0 <= energy lt) ->
  forall o d depth l c,
    RT_trace_ray_fuel sqrt fpow fuel scene o d lights depth = (l, Done c) ->
    along l -> vnonneg c.
Proof.
  intros Hamb Hlights. induction fuel as [|fuel IH]; intros o d depth l c H.
  - discriminate.
  - rewrite trace_fuel_S, ray_cast_eq, bind_done in H. cbv beta in H.
    destruct (has_hit (cast scene o d)) eqn:Hhit; simpl negb in H;
      cbv iota in H.
    + destruct (shade _ _ _ _ _ _ _ _ _) as [l1 o1] eqn:Es.
      simpl in H. inversion H. subst. intros Hl.
      eapply (shade_nonneg_along _ o d depth l1 c Hamb Hlights);
        [| |exact Es|].
      * apply (Hl o d depth); [now left | exact Hhit].
      * intros o' d' l' c'. apply IH.
      * intros o' d' k Hin. apply (Hl o' d' k). now right.
    + simpl in H. inversion H. intros _. apply vnonneg_zeros.
Qed.


End Sign.

(** ** The frame renderer *)

Lemma range_In (n x : Z) : In x (range n) <-> (0 <= x < n)%Z.
Proof.
  unfold range. rewrite in_map_iff. split.
  - intros (k & <- & Hk). apply in_seq in Hk. lia.
  - intros H. exists (Z.to_nat x). split; [lia|]. apply in_seq. lia.
Qed.

Lemma inject_Z_nonzero (n : Z) : n <> 0%Z -> ~ inject_Z n == 0.
Proof. intros H. unfold Qeq, inject_Z. simpl. lia. Qed.

Lemma paint_here (buf : Buffer) (y x : Z) (c : Vector) :
  buf_data (paint buf y x c) y x 0 = vx c
  /\ buf_data (paint buf y x c) y x 1 = vy c
  /\ buf_data (paint buf y x c) y x 2 = vz c
  /\ buf_data (paint buf y x c) y x 3 = 1.
Proof.
  unfold paint, with_alpha, with_rgb; cbn [buf_data buf_h buf_w].
  rewrite !Z.eqb_refl. cbn. repeat split; reflexivity.
Qed.

Lemma paint_elsewhere (buf : Buffer) (y x : Z) (c : Vector) (y' x' ch : Z) :
  (y', x') <> (y, x) ->
  buf_data (paint buf y x c) y' x' ch = buf_data buf y' x' ch.
Proof.
  intros H. unfold paint, with_alpha, with_rgb. simpl.
  destruct (Z.eqb_spec y' y) as [-> | Hy]; simpl; [|reflexivity].
  destruct (Z.eqb_spec x' x) as [-> | Hx]; simpl; [|reflexivity].
  now destruct H.
Qed.

Lemma paint_read (buf : Buffer) (y x : Z) (c : Vector) (ch : Z) :
  buf_data (paint buf y x c) y x ch
  = (if (ch =? 3)%Z then 1
     else if (ch =? 0)%Z then vx c
     else if (ch =? 1)%Z then vy c
     else if (ch =? 2)%Z then vz c
     else buf_data buf y x ch).
Proof.
  unfold paint, with_alpha, with_rgb; cbn [buf_data buf_h buf_w].
  rewrite !Z.eqb_refl. cbn [andb]. reflexivity.
Qed.

Lemma paint_other_channel (buf : Buffer) (y x : Z) (c : Vector)
    (y' x' ch : Z) :
  (ch =? 3)%Z = false -> (ch =? 0)%Z = false ->
  (ch =? 1)%Z = false -> (ch =? 2)%Z = false ->
  buf_data (paint buf y x c) y' x' ch = buf_data buf y' x' ch.
Proof.
  intros H3 H0 H1 H2.
  unfold paint, with_alpha, with_rgb; cbn [buf_data buf_h buf_w].
  rewrite H3, H0, H1, H2, andb_false_r.
  now destruct ((y' =? y)%Z && (x' =? x)%Z).
Qed.

(** A row of paint: the pixels of the row hold their colours, the others
    are as before. *)
Lemma paint_xs_data (color : Z -> Vector) (y : Z) (xs : list Z) :
  forall buf y' x' ch,
    buf_data (fold_left (fun b x => paint b y x (color x)) xs buf) y' x' ch
    = (if (y' =? y)%Z && existsb (Z.eqb x') xs
       then buf_data (paint buf y x' (color x')) y x' ch
       else buf_data buf y' x' ch).
Proof.
  induction xs as [|a xs IH]; intros buf y' x' ch.
  - simpl. now rewrite andb_false_r.
  - simpl fold_left. rewrite IH. simpl existsb.
    destruct (Z.eqb_spec y' y) as [-> | Hy]; cbn [andb].
    + destruct (existsb (Z.eqb x') xs) eqn:Ex.
      * rewrite orb_true_r, !paint_read.
        destruct (ch =? 3)%Z eqn:E3; [reflexivity|].
        destruct (ch =? 0)%Z eqn:E0; [reflexivity|].
        destruct (ch =? 1)%Z eqn:E1; [reflexivity|].
        destruct (ch =? 2)%Z eqn:E2; [reflexivity|].
        now apply paint_other_channel.
      * rewrite orb_false_r.
        destruct (Z.eqb_spec x' a) as [-> | Hx]; [reflexivity|].
        apply paint_elsewhere. congruence.
    + apply paint_elsewhere. congruence.
Qed.

Lemma paint_xs_shape (color : Z -> Vector) (y : Z) (xs : list Z) :
  forall buf,
    buf_h (fold_left (fun b x => paint b y x (color x)) xs buf) = buf_h buf
    /\ buf_w (fold_left (fun b x => paint b y x (color x)) xs buf)
       = buf_w buf.
Proof.
  induction xs as [|a xs IH]; intros buf; [split; reflexivity|].
  simpl. destruct (IH (paint buf y a (color a))) as [-> ->].
  split; reflexivity.
Qed.

Lemma existsb_range (n x : Z) :
  existsb (Z.eqb x) (range n) = ((0 <=? x) && (x <? n))%Z.
Proof.
  apply eq_true_iff_eq. rewrite existsb_exists, andb_true_iff.
  rewrite Z.leb_le, Z.ltb_lt. split.
  - intros (k & Hk & E). apply range_In in Hk. apply Z.eqb_eq in E. lia.
  - intros H. exists x. split; [apply range_In; lia | apply Z.eqb_refl].
Qed.

Lemma paint_read_same (b1 b2 : Buffer) (y x : Z) (c : Vector) (ch : Z) :
  (0 <= ch <= 3)%Z ->
  buf_data (paint b1 y x c) y x ch = buf_data (paint b2 y x c) y x ch.
Proof.
  intros H. rewrite !paint_read.
  destruct (Z.eqb_spec ch 3); [reflexivity|].
  destruct (Z.eqb_spec ch 0); [reflexivity|].
  destruct (Z.eqb_spec ch 1); [reflexivity|].
  destruct (Z.eqb_spec ch 2); [reflexivity|]. lia.
Qed.

Lemma paint_row_data (color : Z -> Z -> Vector) (width : Z) (buf : Buffer)
    (y y' x' ch : Z) :
  buf_data (paint_row color width buf y) y' x' ch
  = (if ((y' =? y) && ((0 <=? x') && (x' <? width)))%Z
     then buf_data (paint buf y x' (color y x')) y x' ch
     else buf_data buf y' x' ch).
Proof.
  unfold paint_row. rewrite (paint_xs_data (color y)).
  now rewrite existsb_range.
Qed.

Lemma paint_rows_untouched (color : Z -> Z -> Vector) (width : Z)
    (ys : list Z) :
  forall buf y x ch,
    ~ In y ys ->
    buf_data (fold_left (paint_row color width) ys buf) y x ch
    = buf_data buf y x ch.
Proof.
  induction ys as [|a ys IH]; intros buf y x ch Hn; [reflexivity|].
  simpl. rewrite IH by (intros H; apply Hn; now right).
  rewrite paint_row_data.
  destruct (Z.eqb_spec y a) as [-> | Hy]; [|reflexivity].
  destruct Hn. now left.
Qed.

Lemma paint_rows_pixel (color : Z -> Z -> Vector) (width : Z)
    (ys : list Z) :
  forall buf y x ch,
    In y ys -> (0 <= x < width)%Z -> (0 <= ch <= 3)%Z ->
    buf_data (fold_left (paint_row color width) ys buf) y x ch
    = buf_data (paint buf y x (color y x)) y x ch.
Proof.
  induction ys as [|a ys IH]; intros buf y x ch Hin Hx Hch; [destruct Hin|].
  simpl. destruct (in_dec Z.eq_dec y ys) as [Hy | Hy].
  - rewrite IH by assumption. now apply paint_read_same.
  - destruct Hin as [-> | Hin]; [|contradiction].
    rewrite paint_rows_untouched by exact Hy.
    rewrite paint_row_data.
    set (rhs := buf_data (paint buf y x (color y x)) y x ch).
    assert (E : ((y =? y) && ((0 <=? x) && (x <? width)))%Z = true).
    { rewrite Z.eqb_refl. cbn [andb]. apply andb_true_iff.
      split; [apply Z.leb_le | apply Z.ltb_lt]; lia. }
    now rewrite E.
Qed.

Lemma paint_rows_shape (color : Z -> Z -> Vector) (width : Z)
    (ys : list Z) :
  forall buf,
    buf_h (fold_left (paint_row color width) ys buf) = buf_h buf
    /\ buf_w (fold_left (paint_row color width) ys buf) = buf_w buf.
Proof.
  induction ys as [|a ys IH]; intros buf; [split; reflexivity|].
  simpl. destruct (IH (paint_row color width buf a)) as [-> ->].
  unfold paint_row. apply paint_xs_shape.
Qed.

Section Frame.

Variable sqrt : Q -> Q.
Variable fpow : Q -> Q -> Q.
Variable rotate : Euler -> Vector -> Vector.
Variable scene : Scene.
Variables width height depth : Z.

Local Abbreviation lights := (lights_of (objects scene)).
Local Abbreviation cam := (cam_location (camera scene)).
Local Abbreviation orientation := (rotation_euler (camera scene)).

(** The trace of a pixel as [render_pixel] calls it. *)
Local Abbreviation trace_at focal screen_y x :=
  (RT_trace_ray sqrt fpow scene cam
     (normalized sqrt
        (rotate orientation
           (mkVector ((inject_Z x - inject_Z width / 2) / inject_Z width)
                     screen_y (- focal))))
     lights depth).

Lemma render_pixel_done (focal screen_y : Q) (y x : Z) (buf : Buffer)
    (l : list event) (c : Vector) :
  (0 < width)%Z ->
  in_bounds buf y x = true ->
  trace_at focal screen_y x = (l, Done c) ->
  render_pixel sqrt fpow rotate scene width depth lights cam orientation
    focal screen_y y x buf
  = (l ++ [EvPixel y x], Done (paint buf y x c)).
Proof.
  intros Hw Hb Ht. unfold render_pixel.
  rewrite qdiv_nonzero by (apply inject_Z_nonzero; lia).
  rewrite bind_ret_l, Ht, bind_done. cbv beta.
  unfold set_rgb. rewrite Hb, bind_emit. simpl fst. simpl snd.
  unfold set_alpha.
  replace (in_bounds (with_rgb buf y x c) y x) with true by (now rewrite <- Hb).
  reflexivity.
Qed.

Lemma render_pixels_done (focal screen_y : Q) (y : Z) (xs : list Z) :
  (0 < width)%Z ->
  forall buf,
    (0 <= y < buf_h buf)%Z ->
    (forall x, In x xs ->
               (0 <= x < buf_w buf)%Z
               /\ exists l c, trace_at focal screen_y x = (l, Done c)) ->
    for_each xs
      (render_pixel sqrt fpow rotate scene width depth lights cam orientation
         focal screen_y y) buf
    = (flat_map (fun x => fst (trace_at focal screen_y x) ++ [EvPixel y x]) xs,
       Done (fold_left
               (fun b x => paint b y x (color_of (trace_at focal screen_y x)))
               xs buf)).
Proof.
  intros Hw. induction xs as [|a xs IH]; intros buf Hy Hxs; [reflexivity|].
  destruct (Hxs a (or_introl eq_refl)) as (Ha & l & c & Ht).
  cbn [for_each flat_map fold_left].
  rewrite (render_pixel_done focal screen_y y a buf l c Hw); [|
    unfold in_bounds; repeat (apply andb_true_iff; split);
    try apply Z.leb_le; try apply Z.ltb_lt; lia | exact Ht].
  rewrite bind_done.
  rewrite IH; [| exact Hy | intros x Hx; apply Hxs; now right].
  unfold color_of at 2. rewrite Ht. simpl. reflexivity.
Qed.

Local Abbreviation focal_length :=
  (lens (camera scene) / sensor_width (camera scene)).
Local Abbreviation aspect_ratio := (inject_Z height / inject_Z width).
Local Abbreviation trace_of :=
  (pixel_trace sqrt fpow rotate scene width height depth).

Lemma render_row_done (y : Z) (buf : Buffer) :
  (0 < width)%Z ->
  (0 <= y < height)%Z ->
  (height <= buf_h buf)%Z -> (width <= buf_w buf)%Z ->
  (forall x, (0 <= x < width)%Z -> exists l c, trace_of y x = (l, Done c)) ->
  render_row sqrt fpow rotate scene width height depth lights cam orientation
    focal_length aspect_ratio y buf
  = (row_log trace_of width y,
     Done (paint_row (fun y x => color_of (trace_of y x)) width buf y)).
Proof.
  intros Hw Hy Hbh Hbw Ht. unfold render_row.
  rewrite qdiv_nonzero by (apply inject_Z_nonzero; lia).
  rewrite bind_ret_l.
  rewrite render_pixels_done; [| exact Hw | lia |].
  - rewrite bind_done, bind_emit. reflexivity.
  - intros x Hx. apply range_In in Hx. split; [lia|].
    apply (Ht x Hx).
Qed.

Lemma render_rows_done (ys : list Z) :
  (0 < width)%Z ->
  (forall y, In y ys -> (0 <= y < height)%Z) ->
  (forall y x, (0 <= y < height)%Z -> (0 <= x < width)%Z ->
               exists l c, trace_of y x = (l, Done c)) ->
  forall buf,
    (height <= buf_h buf)%Z -> (width <= buf_w buf)%Z ->
    for_each ys
      (render_row sqrt fpow rotate scene width height depth lights cam
         orientation focal_length aspect_ratio) buf
    = (flat_map (row_log trace_of width) ys,
       Done (fold_left
               (paint_row (fun y x => color_of (trace_of y x)) width)
               ys buf)).
Proof.
  intros Hw Hys Ht. induction ys as [|a ys IH]; intros buf Hbh Hbw;
    [reflexivity|].
  cbn [for_each flat_map fold_left].
  rewrite render_row_done;
    [| exact Hw | apply Hys; now left | exact Hbh | exact Hbw
     | intros x Hx; apply Ht; [apply Hys; now left | exact Hx]].
  rewrite bind_done.
  destruct (paint_xs_shape
              (fun x => color_of (trace_of a x)) a (range width) buf)
    as [Eh Ew].
  rewrite IH.
  - reflexivity.
  - intros y Hy. apply Hys. now right.
  - unfold paint_row. now rewrite Eh.
  - unfold paint_row. now rewrite Ew.
Qed.

(** C9. With a width above zero, a sensor width that is not zero, a
    buffer that is large enough and primary rays whose traces return, the
    renderer returns, and for every pixel [(x, y)] of the frame the buffer
    holds in [buf[y, x, 0:3]] the colour of the ray traced from the camera
    position in the direction [(screen_x, screen_y, -focal_length_ratio)],
    rotated by the camera orientation and normalized, and
    [buf[y, x, 3] = 1].  The events of the frame are those of its rows in
    the order of [y], and in a row those of its pixels in the order of
    [x]: the rays of the pixel, then its write; each row ends with its
    yield. *)
Theorem frame_is_rendered_pixel_by_pixel (buf : Buffer) :
  (0 < width)%Z ->
  ~ sensor_width (camera scene) == 0 ->
  (height <= buf_h buf)%Z -> (width <= buf_w buf)%Z ->
  (forall y x, (0 <= y < height)%Z -> (0 <= x < width)%Z ->
               exists l c, trace_of y x = (l, Done c)) ->
  exists buf',
    RT_render_scene sqrt fpow rotate scene width height depth buf
    = (frame_log trace_of width height, Done buf')
    /\ forall y x,
        (0 <= y < height)%Z -> (0 <= x < width)%Z ->
        trace_of y x
        = RT_trace_ray sqrt fpow scene (cam_location (camera scene))
            (primary_dir sqrt rotate scene width height y x)
            (lights_of (objects scene)) depth
        /\ buf_data buf' y x 0 = vx (color_of (trace_of y x))
        /\ buf_data buf' y x 1 = vy (color_of (trace_of y x))
        /\ buf_data buf' y x 2 = vz (color_of (trace_of y x))
        /\ buf_data buf' y x 3 = 1.
Proof.
  intros Hw Hs Hbh Hbw Ht.
  exists (paint_frame (fun y x => color_of (trace_of y x)) width height buf).
  split.
  - unfold RT_render_scene.
    rewrite qdiv_nonzero by exact Hs. rewrite bind_ret_l.
    rewrite (qdiv_nonzero (inject_Z height) (inject_Z width))
      by (apply inject_Z_nonzero; lia).
    rewrite bind_ret_l.
    apply render_rows_done; try assumption.
    intros y Hy. now apply range_In.
  - intros y x Hy Hx. split; [reflexivity|].
    unfold paint_frame.
    rewrite !(paint_rows_pixel _ width (range height) buf y x)
      by (match goal with
          | |- In _ _ => apply range_In; lia
          | _ => lia
          end).
    apply paint_here.
Qed.

End Frame.

(** ** The theorems at work on the concrete scenes *)

Lemma sqrtQ_vanishes_at_zero_only : sqrt_vanishes_at_zero_only sqrtQ.
Proof.
  intros [n d] Hq. unfold sqrtQ. rewrite Qred_correct.
  unfold Qeq, Qle in *. simpl in *.
  rewrite !Z.mul_1_r in *. split.
  - intros Hs.
    destruct (Z.eq_dec n 0) as [-> | Hn]; [reflexivity|].
    assert (Hpos : (0 < n * Z.pos d)%Z) by nia.
    apply Z.sqrt_pos in Hpos. lia.
  - intros ->. reflexivity.
Qed.

Lemma no_hit_returns_black_witness :
  has_hit (cast floor_scene slant_orig up_dir) = false
  /\ RT_trace_ray sqrtQ powQ floor_scene slant_orig up_dir [lamp_above] 3
     = ([EvTrace slant_orig up_dir 3], Done zeros).
Proof.
  split; [reflexivity|].
  apply (no_hit_returns_black sqrtQ powQ floor_scene [lamp_above]
           slant_orig up_dir 3).
  reflexivity.
Defined.



Lemma ambient_fallback_witness :
  has_hit (cast room_scene low_orig slant_dir) = true
  /\ (forall l, In l [lamp_above] ->
        occluded sqrtQ room_scene
          (hit_loc (cast room_scene low_orig slant_dir)) l = true)
  /\ RT_trace_ray sqrtQ powQ room_scene low_orig slant_dir [lamp_above] 2
     = (EvTrace low_orig slant_dir 2
          :: map (shadow_event sqrtQ
                    (hit_loc (cast room_scene low_orig slant_dir)))
                 [lamp_above],
        Done (vmul (diffuse_color glass) (ambient_color room_scene))).
Proof.
  assert (Hocc : forall l, In l [lamp_above] ->
            occluded sqrtQ room_scene
              (hit_loc (cast room_scene low_orig slant_dir)) l = true).
  { intros l [<- | []]. vm_compute. reflexivity. }
  split; [reflexivity|]. split; [exact Hocc|].
  apply (ambient_fallback sqrtQ powQ room_scene [lamp_above] low_orig
           slant_dir 2); [reflexivity | exact Hocc].
Defined.

Lemma recursion_bounded_by_depth_witness :
  finishes (RT_trace_ray sqrtQ powQ glass_scene slant_orig slant_dir
              [lamp_above] 5)
  /\ (0 <= 0)%Z
  /\ has_hit (cast floor_scene slant_orig slant_dir) = true
  /\ RT_trace_ray sqrtQ powQ floor_scene slant_orig slant_dir [lamp_above] 0
     = (emit (EvTrace slant_orig slant_dir 0) ;;;
        direct_lighting sqrtQ powQ floor_scene slant_dir
          (fst (orient (hit_norm (cast floor_scene slant_orig slant_dir))
                       slant_dir))
          [lamp_above] (cast floor_scene slant_orig slant_dir)).
Proof.
  pose proof (recursion_bounded_by_depth sqrtQ powQ glass_scene [lamp_above])
    as (Hfin & _).
  pose proof (recursion_bounded_by_depth sqrtQ powQ floor_scene [lamp_above])
    as (_ & _ & _ & _ & Hzero).
  split; [apply Hfin|]. split; [lia|]. split; [reflexivity|].
  apply (Hzero slant_orig slant_dir 0%Z); [lia | reflexivity |].
  intros H. discriminate H.
Defined.

(** The ceiling is at height 2 and the lamp at height 1: the occluder
    that the shadow ray finds is beyond the light, and the light gives
    nothing. *)
Lemma shadow_ray_any_hit_occludes_witness :
  has_hit (cast room_scene
             (vadd zeros (smul eps (light_dir_of sqrtQ zeros lamp_above)))
             (light_dir_of sqrtQ zeros lamp_above)) = true
  /\ vz (location lamp_above) == 1
  /\ vz (hit_loc (cast room_scene
                    (vadd zeros
                       (smul eps (light_dir_of sqrtQ zeros lamp_above)))
                    (light_dir_of sqrtQ zeros lamp_above))) == 2
  /\ snd (light_step sqrtQ powQ room_scene zeros up_dir slant_dir glass
            (white, false) lamp_above) = Done (white, false).
Proof.
  split; [reflexivity|]. split; [reflexivity|]. split; [reflexivity|].
  apply (proj1 (proj2 (shadow_ray_any_hit_occludes sqrtQ powQ room_scene
                         zeros up_dir slant_dir glass))).
  reflexivity.
Defined.

(** A ray that leaves a floor of glass from below: the normal of the
    oracle points along the ray, it is flipped, the flag is set, and the
    transmission branch refracts with [(n1, n2) = (ior, 1)]. *)
Lemma normal_is_oriented_against_ray_witness :
  0 < vdot up_dir climb_dir
  /\ vdot (fst (orient up_dir climb_dir)) climb_dir <= 0
  /\ snd (orient up_dir climb_dir) = true
  /\ fst (orient up_dir climb_dir) = vneg up_dir
  /\ refraction_indices glass (snd (orient up_dir climb_dir))
     = (ior glass, 1)
  /\ 0 < transmission glass
  /\ transmit sqrtQ blind climb_dir zeros (fst (orient up_dir climb_dir))
       (snd (orient up_dir climb_dir)) glass (1 # 2) 1 zeros
     = (let ratio := ior glass / 1 in
        let cos_i := cos_i_spec (vneg up_dir) climb_dir in
        let D_transmit :=
          D_transmit_spec sqrtQ ratio cos_i (cos_t2_spec ratio cos_i)
            climb_dir (vneg up_dir) in
        transmit_color <-
          blind (vadd zeros (smul eps D_transmit)) D_transmit 0 ;;
        ret (vadd zeros
               (smul ((1 - (1 # 2)) * transmission glass) transmit_color))).
Proof.
  pose proof (normal_is_oriented_against_ray sqrtQ powQ glass_scene
                [lamp_below]) as (Ho & _ & _ & Htr & Hidx & _).
  destruct (Ho up_dir climb_dir) as (Hle & Hflag & Hn).
  assert (Hpos : 0 < vdot up_dir climb_dir) by reflexivity.
  assert (Ht : 0 < transmission glass) by reflexivity.
  assert (Hn2 : ~ (if Qgtb (vdot up_dir climb_dir) 0 then 1 else ior glass)
                  == 0)
    by (intros H; discriminate H).
  split; [exact Hpos|]. split; [exact Hle|].
  split; [now apply Hflag|].
  split; [rewrite Hn; now rewrite (proj2 Hflag Hpos)|].
  split; [rewrite (Hidx glass up_dir climb_dir); reflexivity|].
  split; [exact Ht|].
  exact (proj2 (Htr blind climb_dir zeros up_dir glass (1 # 2) 1%Z zeros Ht)
           Hn2).
Defined.

Lemma light_divisions_are_unguarded_witness :
  sqrt_vanishes_at_zero_only sqrtQ
  /\ has_hit (cast floor_scene slant_orig slant_dir) = true
  /\ occluded sqrtQ floor_scene
       (hit_loc (cast floor_scene slant_orig slant_dir)) lamp_on_floor
     = false
  /\ breaks_division sqrtQ (hit_loc (cast floor_scene slant_orig slant_dir))
       slant_dir lamp_on_floor
  /\ snd (RT_trace_ray sqrtQ powQ floor_scene slant_orig slant_dir
            [lamp_on_floor] 0) = Fault DivByZero.
Proof.
  assert (Hbad : breaks_division sqrtQ
                   (hit_loc (cast floor_scene slant_orig slant_dir))
                   slant_dir lamp_on_floor).
  { left. reflexivity. }
  split; [exact sqrtQ_vanishes_at_zero_only|].
  split; [reflexivity|]. split; [reflexivity|]. split; [exact Hbad|].
  apply (proj2 (proj2 (proj2
           (light_divisions_are_unguarded sqrtQ powQ floor_scene
              sqrtQ_vanishes_at_zero_only
              (hit_loc (cast floor_scene slant_orig slant_dir))
              up_dir slant_dir matte)))
           [lamp_on_floor] slant_orig 0%Z lamp_on_floor).
  - reflexivity.
  - reflexivity.
  - now left.
  - reflexivity.
  - exact Hbad.
Defined.

Lemma reflection_ray_is_traced_witness :
  let o := slant_orig in
  let d := slant_dir in
  let h := cast glass_scene o d in
  let n := fst (orient (hit_norm h) d) in
  let inside := snd (orient (hit_norm h) d) in
  let D_reflect := D_reflect_spec d n in
  let k_r := k_r_spec glass d n in
  exists llog col,
    has_hit h = true
    /\ light_loop sqrtQ powQ glass_scene (hit_loc h) n d glass [lamp_above]
         (zeros, true) = (llog, Done (col, false))
    /\ (0 < 2)%Z
    /\ veq D_reflect (mkVector (24 # 25) 0 (7 # 25))
    /\ k_r == 1 # 2
    /\ RT_trace_ray sqrtQ powQ glass_scene o d [lamp_above] 2
       = (emit (EvTrace o d 2) ;;; replay llog ;;;
          reflect_color <-
            RT_trace_ray sqrtQ powQ glass_scene
              (vadd (hit_loc h) (smul eps D_reflect)) D_reflect
              [lamp_above] (2 - 1) ;;
          transmit sqrtQ
            (fun o d k => RT_trace_ray sqrtQ powQ glass_scene o d
                            [lamp_above] k)
            d (hit_loc h) n inside glass k_r 2
            (vadd col (smul k_r reflect_color))).
Proof.
  intros o d h n inside D_reflect k_r.
  eexists. eexists.
  split; [reflexivity|].
  split; [vm_compute; reflexivity|].
  split; [lia|].
  split; [vm_compute; repeat split; reflexivity|].
  split; [reflexivity|].
  refine (proj1 (reflection_ray_is_traced sqrtQ powQ glass_scene [lamp_above]
                   slant_orig slant_dir 2 _ _ _ _ _ _)).
  - reflexivity.
  - vm_compute. reflexivity.
  - lia.
  - intros H. discriminate H.
Defined.

(** From below the glass the slanting ray is reflected totally; from
    above it is refracted. *)
Lemma transmission_branch_witness :
  (exists llog rl col rc,
      inhabited (cos_t2_spec (ratio_spec glass true)
                   (cos_i_spec (vneg up_dir) rise_dir) < 0)
      /\ light_loop sqrtQ powQ glass_scene
           (hit_loc (cast glass_scene rise_orig rise_dir)) (vneg up_dir)
           rise_dir glass [lamp_below] (zeros, true)
         = (llog, Done (col, false))
      /\ RT_trace_ray sqrtQ powQ glass_scene
           (vadd (hit_loc (cast glass_scene rise_orig rise_dir))
                 (smul eps (D_reflect_spec rise_dir (vneg up_dir))))
           (D_reflect_spec rise_dir (vneg up_dir)) [lamp_below] (1 - 1)
         = (rl, Done rc)
      /\ RT_trace_ray sqrtQ powQ glass_scene rise_orig rise_dir
           [lamp_below] 1
         = (EvTrace rise_orig rise_dir 1 :: llog ++ rl,
            Done (vadd col (smul (1 # 2) rc))))
  /\ (exists llog rl col rc,
        inhabited (0 <= cos_t2_spec (ratio_spec glass false)
                          (cos_i_spec up_dir slant_dir))
        /\ light_loop sqrtQ powQ glass_scene
             (hit_loc (cast glass_scene slant_orig slant_dir)) up_dir
             slant_dir glass [lamp_above] (zeros, true)
           = (llog, Done (col, false))
        /\ RT_trace_ray sqrtQ powQ glass_scene
             (vadd (hit_loc (cast glass_scene slant_orig slant_dir))
                   (smul eps (D_reflect_spec slant_dir up_dir)))
             (D_reflect_spec slant_dir up_dir) [lamp_above] (1 - 1)
           = (rl, Done rc)
        /\ fst (RT_trace_ray sqrtQ powQ glass_scene slant_orig slant_dir
                  [lamp_above] 1)
           = (EvTrace slant_orig slant_dir 1 :: llog ++ rl)
             ++ [EvTrace
                   (vadd (hit_loc (cast glass_scene slant_orig slant_dir))
                      (smul eps
                         (D_transmit_spec sqrtQ (ratio_spec glass false)
                            (cos_i_spec up_dir slant_dir)
                            (cos_t2_spec (ratio_spec glass false)
                               (cos_i_spec up_dir slant_dir))
                            slant_dir up_dir)))
                   (D_transmit_spec sqrtQ (ratio_spec glass false)
                      (cos_i_spec up_dir slant_dir)
                      (cos_t2_spec (ratio_spec glass false)
                         (cos_i_spec up_dir slant_dir))
                      slant_dir up_dir)
                   (1 - 1)]).
Proof.
  split.
  - eexists. eexists. eexists. eexists.
    assert (Hc : cos_t2_spec (ratio_spec glass true)
                   (cos_i_spec (vneg up_dir) rise_dir) < 0) by reflexivity.
    split; [constructor; exact Hc|].
    split; [vm_compute; reflexivity|].
    split; [vm_compute; reflexivity|].
    refine (proj1 (proj2 (transmission_branch sqrtQ powQ glass_scene
                            [lamp_below] rise_orig rise_dir 1 _ _ _ _
                            _ _ _ _ _) _ _) _).
    + reflexivity.
    + vm_compute. reflexivity.
    + lia.
    + intros H. discriminate H.
    + vm_compute. reflexivity.
    + reflexivity.
    + intros H. discriminate H.
    + exact Hc.
  - pose (L := light_loop sqrtQ powQ glass_scene
                 (hit_loc (cast glass_scene slant_orig slant_dir)) up_dir
                 slant_dir glass [lamp_above] (zeros, true)).
    pose (R := RT_trace_ray sqrtQ powQ glass_scene
                 (vadd (hit_loc (cast glass_scene slant_orig slant_dir))
                       (smul eps (D_reflect_spec slant_dir up_dir)))
                 (D_reflect_spec slant_dir up_dir) [lamp_above] (1 - 1)).
    pose (col := match snd L with Done (c, _) => c | _ => zeros end).
    assert (HL : L = (fst L, Done (col, false))) by (vm_compute; reflexivity).
    assert (HR : R = (fst R, Done (color_of R))) by (vm_compute; reflexivity).
    assert (Hc : 0 <= cos_t2_spec (ratio_spec glass false)
                        (cos_i_spec up_dir slant_dir)).
    { intros H. discriminate H. }
    assert (Hd : (0 < 1)%Z) by lia.
    assert (Hior : use_fresnel glass = true -> ~ 1 + ior glass == 0).
    { intros H. discriminate H. }
    assert (Ht : 0 < transmission glass) by reflexivity.
    assert (Hn2 : ~ snd (n_pair_spec glass false) == 0).
    { intros H. discriminate H. }
    exists (fst L), (fst R), col, (color_of R).
    split; [constructor; exact Hc|].
    split; [exact HL|]. split; [exact HR|].
    rewrite (proj2 (proj2 (transmission_branch sqrtQ powQ glass_scene
                             [lamp_above] slant_orig slant_dir 1
                             (fst L) (fst R) col (color_of R)
                             eq_refl HL Hd Hior HR) Ht Hn2) Hc).
    vm_compute. reflexivity.
Defined.

Lemma frame_is_rendered_pixel_by_pixel_witness :
  exists buf',
    RT_render_scene sqrtQ powQ rotate0 floor_scene 2 2 1 (blank 2 2)
    = (frame_log (pixel_trace sqrtQ powQ rotate0 floor_scene 2 2 1) 2 2,
       Done buf')
    /\ veq (primary_dir sqrtQ rotate0 floor_scene 2 2 1 1)
           (mkVector 0 0 (-1))
    /\ buf_data buf' 1 1 0 == 1
    /\ buf_data buf' 1 1 3 = 1
    /\ buf_data buf' 0 1 3 = 1.
Proof.
  assert (Htraces : forall y x, (0 <= y < 2)%Z -> (0 <= x < 2)%Z ->
            exists l c,
              pixel_trace sqrtQ powQ rotate0 floor_scene 2 2 1 y x
              = (l, Done c)).
  { intros y x Hy Hx.
    assert (Ey : y = 0%Z \/ y = 1%Z) by lia.
    assert (Ex : x = 0%Z \/ x = 1%Z) by lia.
    destruct Ey as [-> | ->], Ex as [-> | ->];
      eexists; eexists; vm_compute; reflexivity. }
  assert (Hs : ~ sensor_width (camera floor_scene) == 0).
  { intros H. discriminate H. }
  destruct (frame_is_rendered_pixel_by_pixel sqrtQ powQ rotate0 floor_scene
              2 2 1 (blank 2 2) eq_refl Hs (Z.le_refl 2) (Z.le_refl 2)
              Htraces) as (buf' & Hrun & Hpix).
  exists buf'. split; [exact Hrun|].
  split; [vm_compute; repeat split; reflexivity|].
  destruct (Hpix 1%Z 1%Z) as (_ & H0 & _ & _ & H3); [lia | lia |].
  destruct (Hpix 0%Z 1%Z) as (_ & _ & _ & _ & H3'); [lia | lia |].
  split; [rewrite H0; vm_compute; reflexivity|].
  split; [exact H3 | exact H3'].
Defined.

(** * Further properties *)

(** ** The light loop in closed form *)

Section LightSum.

Variable sqrt : Q -> Q.
Variable fpow : Q -> Q -> Q.
Variable scene : Scene.
Variables hit_loc hit_norm ray_dir : Vector.
Variable mat : Material.

Local Abbreviation step :=
  (light_step sqrt fpow scene hit_loc hit_norm ray_dir mat).
Local Abbreviation loop :=
  (light_loop sqrt fpow scene hit_loc hit_norm ray_dir mat).
Local Abbreviation add :=
  (add_light sqrt fpow hit_loc hit_norm ray_dir mat).

Lemma light_step_lit (c : Vector) (flag : bool) (light : Light) :
  occluded sqrt scene hit_loc light = false ->
  snd (step (c, flag) light) = Done (add c light, false)
  \/ snd (step (c, flag) light) = Fault DivByZero.
Proof.
  unfold occluded, shadow_orig, light_dir_of, light_vec_of.
  intros Hocc. unfold light_step.
  rewrite ray_cast_eq, bind_done. cbv zeta. rewrite Hocc.
  unfold vdiv.
  destruct (Qeq_bool (length_squared _) 0); [now right|].
  rewrite bind_ret_l.
  destruct (Qeq_bool (norm _ _) 0); [now right|].
  left. rewrite bind_ret_l.
  unfold add_light, diffuse_term, specular_term, I_light_of, half_vector_of,
    light_dir_of, light_vec_of.
  reflexivity.
Qed.

Lemma light_step_lit_done (c : Vector) (flag : bool) (light : Light) :
  occluded sqrt scene hit_loc light = false ->
  divisors_nonzero sqrt hit_loc ray_dir light ->
  snd (step (c, flag) light) = Done (add c light, false).
Proof.
  unfold occluded, divisors_nonzero, shadow_orig, light_dir_of, light_vec_of.
  intros Hocc [H1 H2]. unfold light_step.
  rewrite ray_cast_eq, bind_done. cbv zeta. rewrite Hocc.
  rewrite vdiv_nonzero by exact H1. rewrite bind_ret_l.
  rewrite vdiv_nonzero by exact H2. rewrite bind_ret_l.
  unfold add_light, diffuse_term, specular_term, I_light_of, half_vector_of,
    light_dir_of, light_vec_of.
  reflexivity.
Qed.

(** X1. The light loop adds up the lights that are not occluded, in the
    order of the list, each with its diffuse and its specular component;
    occluded lights leave no trace in the colour, and the flag
    [no_light_hit] stays set exactly when every light is occluded.  The
    loop ends with that colour or by a division by zero, and it ends with
    that colour when the two divisors of every light that is not
    occluded are non-zero. *)
Theorem light_loop_is_a_sum (lights : list Light) (c : Vector)
    (flag : bool) :
  (snd (loop lights (c, flag))
   = Done (fold_left add (lit_by sqrt scene hit_loc lights) c,
           flag && forallb (occluded sqrt scene hit_loc) lights)
   \/ snd (loop lights (c, flag)) = Fault DivByZero)
  /\ ((forall l, In l (lit_by sqrt scene hit_loc lights) ->
                 divisors_nonzero sqrt hit_loc ray_dir l) ->
      snd (loop lights (c, flag))
      = Done (fold_left add (lit_by sqrt scene hit_loc lights) c,
              flag && forallb (occluded sqrt scene hit_loc) lights)).
Proof.
  revert c flag. induction lights as [|light rest IH]; intros c flag.
  - simpl. rewrite andb_true_r. split; [now left | reflexivity].
  - rewrite light_loop_cons. unfold lit_by in *. cbn [filter forallb].
    destruct (occluded sqrt scene hit_loc light) eqn:Hocc; cbn [negb].
    + rewrite light_step_occluded by exact Hocc. rewrite bind_done.
      cbn [snd andb]. apply IH.
    + rewrite andb_false_r. cbn [fold_left].
      split.
      * destruct (light_step_lit c flag light Hocc) as [Hs | Hs];
          destruct (step (c, flag) light) as [l1 o1]; simpl in Hs; subst o1.
        -- rewrite bind_done. cbn [snd].
           destruct (proj1 (IH (add c light) false)) as [H | H];
             [left | right]; exact H.
        -- now right.
      * intros Hall.
        pose proof (light_step_lit_done c flag light Hocc
                      (Hall light (or_introl eq_refl))) as Hs.
        destruct (step (c, flag) light) as [l1 o1]; simpl in Hs; subst o1.
        rewrite bind_done. cbn [snd].
        apply (proj2 (IH (add c light) false)).
        intros l Hl. apply Hall. now right.
Qed.

End LightSum.

(** ** The geometry of the secondary rays *)

Section Geometry.

Variable sqrt : Q -> Q.

Lemma Qpower_2 (q : Q) : q ^ 2 == q * q.
Proof. reflexivity. Qed.

Lemma Qpower_5 (q : Q) : q ^ 5 == q * q * q * q * q.
Proof. simpl. ring. Qed.

Lemma Qpower_5_unit (u : Q) : 0 <= u <= 1 -> 0 <= u ^ 5 <= 1.
Proof.
  intros [H0 H1]. rewrite Qpower_5.
  assert (0 <= u * u <= 1) by nra.
  assert (0 <= u * u * u <= 1) by nra.
  assert (0 <= u * u * u * u <= 1) by nra.
  nra.
Qed.

Lemma R_0_unit (mat : Material) : 0 <= ior mat -> 0 <= R_0_of mat <= 1.
Proof.
  intros Hi. unfold R_0_of. rewrite Qpower_2.
  set (t := (1 - ior mat) / (1 + ior mat)).
  assert (Ht : t * (1 + ior mat) == 1 - ior mat).
  { unfold t. field. lra. }
  assert (-1 <= t <= 1).
  { split; apply Qnot_lt_le; intros H; nra. }
  nra.
Qed.

(** X2. Schlick's reflectivity stays between [R_0] and 1: for a material
    with [use_fresnel], an index of refraction that is not negative and a
    ray with [|dot(ray_dir, hit_norm)| <= 1] (unit vectors), the
    reflectivity is computed without fault, [0 <= R_0 <= k_r <= 1], it is
    1 at grazing incidence and [R_0] at normal incidence. *)
Theorem fresnel_reflectivity_is_bounded (mat : Material)
    (ray_dir hit_norm : Vector) :
  use_fresnel mat = true ->
  0 <= ior mat ->
  Qabs (vdot ray_dir hit_norm) <= 1 ->
  exists k_r,
    reflectivity_of mat ray_dir hit_norm = ([], Done k_r)
    /\ 0 <= R_0_of mat /\ R_0_of mat <= k_r /\ k_r <= 1
    /\ (vdot ray_dir hit_norm == 0 -> k_r == 1)
    /\ (Qabs (vdot ray_dir hit_norm) == 1 -> k_r == R_0_of mat).
Proof.
  intros Hf Hi Hdot.
  exists (k_r_spec mat ray_dir hit_norm). split.
  - apply reflectivity_of_spec. intros _. lra.
  - unfold k_r_spec. rewrite Hf. fold (R_0_of mat).
    pose proof (R_0_unit mat Hi) as [HR0 HR1].
    pose proof (Qabs_nonneg (vdot ray_dir hit_norm)) as Habs.
    set (theta := Qabs (vdot ray_dir hit_norm)) in *.
    pose proof (Qpower_5_unit (1 - theta)) as Hu.
    destruct Hu as [Hu0 Hu1]; [split; lra|].
    set (u5 := (1 - theta) ^ 5) in *.
    split; [exact HR0|]. split; [nra|]. split; [nra|]. split.
    + intros Hz. unfold u5, theta. rewrite Hz. simpl. ring.
    + intros Hone. unfold u5. rewrite Hone. simpl. ring.
Qed.

Lemma D_reflect_length (d n : Vector) :
  length_squared (D_reflect_spec d n)
  == length_squared d
     + 4 * vdot d n * vdot d n * (length_squared n - 1).
Proof.
  unfold D_reflect_spec, length_squared, vdot, vsub, smul.
  destruct d as [a b c], n as [x y z]. simpl. ring.
Qed.

Lemma D_reflect_normal (d n : Vector) :
  vdot (D_reflect_spec d n) n == vdot d n * (1 - 2 * length_squared n).
Proof.
  unfold D_reflect_spec, length_squared, vdot, vsub, smul.
  destruct d as [a b c], n as [x y z]. simpl. ring.
Qed.

Lemma D_reflect_twice (d n : Vector) :
  veq (D_reflect_spec (D_reflect_spec d n) n)
      (vadd d (smul (4 * vdot d n * (length_squared n - 1)) n)).
Proof.
  unfold veq, D_reflect_spec, length_squared, vdot, vsub, vadd, smul.
  destruct d as [a b c], n as [x y z]. simpl. repeat split; ring.
Qed.

(** X3. The reflection is a mirror: under [depth > 0] the first secondary
    ray is traced from [hit_loc + eps*D_reflect] along [D_reflect], and
    for a unit normal [D_reflect] is as long as [ray_dir], its component
    along the normal is that of [ray_dir] reversed, and reflecting it
    again gives [ray_dir] back. *)
Theorem reflection_is_a_mirror (rec : Vector -> Vector -> Z -> M Vector)
    (ray_dir hit_loc hit_norm : Vector) (inside : bool) (mat : Material)
    (k_r : Q) (depth : Z) (color : Vector) :
  (0 < depth)%Z ->
  length_squared hit_norm == 1 ->
  let D_reflect := D_reflect_spec ray_dir hit_norm in
  secondary sqrt rec ray_dir hit_loc hit_norm inside mat k_r depth color
  = (reflect_color <-
       rec (vadd hit_loc (smul eps D_reflect)) D_reflect (depth - 1)%Z ;;
     transmit sqrt rec ray_dir hit_loc hit_norm inside mat k_r depth
       (vadd color (smul k_r reflect_color)))
  /\ length_squared D_reflect == length_squared ray_dir
  /\ vdot D_reflect hit_norm == - vdot ray_dir hit_norm
  /\ veq (D_reflect_spec D_reflect hit_norm) ray_dir.
Proof.
  intros Hd Hn D_reflect. split; [now apply secondary_pos|].
  split; [|split].
  - unfold D_reflect. rewrite D_reflect_length, Hn. ring.
  - unfold D_reflect. rewrite D_reflect_normal, Hn. ring.
  - pose proof (D_reflect_twice ray_dir hit_norm) as (Hx & Hy & Hz).
    unfold D_reflect, veq. rewrite Hx, Hy, Hz.
    unfold vadd, smul. simpl. rewrite Hn. repeat split; ring.
Qed.

Lemma D_transmit_length (r s : Q) (d n : Vector) :
  length_squared d == 1 -> length_squared n == 1 ->
  s * s == cos_t2_spec r (cos_i_spec n d) ->
  length_squared (vadd (smul r d) (smul (r * cos_i_spec n d - s) n)) == 1.
Proof.
  unfold cos_t2_spec, cos_i_spec, length_squared, vdot, vadd, smul.
  destruct d as [a b c], n as [x y z]. simpl.
  intros Hd Hn Hs.
  set (dn := x * a + y * b + z * c) in *.
  transitivity (r * r * (a * a + b * b + c * c)
                + 2 * r * (r * - dn - s) * dn
                + (r * - dn - s) * (r * - dn - s) * (x * x + y * y + z * z)).
  - unfold dn. ring.
  - rewrite Hd, Hn.
    transitivity (r * r - r * r * dn * dn + s * s); [ring|].
    rewrite Hs. ring.
Qed.

Lemma D_transmit_normal (r s : Q) (d n : Vector) :
  length_squared n == 1 ->
  vdot (vadd (smul r d) (smul (r * cos_i_spec n d - s) n)) n == - s.
Proof.
  unfold cos_i_spec, length_squared, vdot, vadd, smul.
  destruct d as [a b c], n as [x y z]. simpl. intros Hn.
  set (dn := x * a + y * b + z * c).
  transitivity (r * dn + (r * - dn - s) * (x * x + y * y + z * z)).
  - unfold dn. ring.
  - rewrite Hn. ring.
Qed.

Lemma D_transmit_tangent (r k : Q) (d n : Vector) :
  length_squared n == 1 ->
  veq (vsub (vadd (smul r d) (smul k n))
            (smul (vdot (vadd (smul r d) (smul k n)) n) n))
      (smul r (vsub d (smul (vdot d n) n))).
Proof.
  unfold veq, length_squared, vdot, vadd, vsub, smul.
  destruct d as [a b c], n as [x y z]. simpl. intros Hn.
  set (nn := x * x + y * y + z * z) in *.
  repeat split.
  - transitivity (r * a - r * (a * x + b * y + c * z) * x
                  + k * x * (1 - nn)); [unfold nn; ring|].
    rewrite Hn. ring.
  - transitivity (r * b - r * (a * x + b * y + c * z) * y
                  + k * y * (1 - nn)); [unfold nn; ring|].
    rewrite Hn. ring.
  - transitivity (r * c - r * (a * x + b * y + c * z) * z
                  + k * z * (1 - nn)); [unfold nn; ring|].
    rewrite Hn. ring.
Qed.

(** X4. The refraction obeys Snell's law: for a transmitting material,
    a unit ray, a unit normal and [cos_t2 >= 0] at which the square root
    is exact, the transmission branch traces the ray [D_transmit], which
    is a unit vector, goes into the surface with
    [dot(D_transmit, normal) = -sqrt(cos_t2)], and whose part along the
    surface is [ratio] times that of the incoming ray. *)
Theorem refraction_obeys_snell (rec : Vector -> Vector -> Z -> M Vector)
    (ray_dir hit_loc hit_norm : Vector) (inside : bool) (mat : Material)
    (k_r : Q) (depth : Z) (color : Vector) :
  let ratio := ratio_spec mat inside in
  let cos_i := cos_i_spec hit_norm ray_dir in
  let cos_t2 := cos_t2_spec ratio cos_i in
  let D_transmit := D_transmit_spec sqrt ratio cos_i cos_t2 ray_dir hit_norm in
  0 < transmission mat ->
  ~ snd (n_pair_spec mat inside) == 0 ->
  length_squared ray_dir == 1 ->
  length_squared hit_norm == 1 ->
  0 <= cos_t2 ->
  sqrt cos_t2 * sqrt cos_t2 == cos_t2 ->
  transmit sqrt rec ray_dir hit_loc hit_norm inside mat k_r depth color
  = (transmit_color <-
       rec (vadd hit_loc (smul eps D_transmit)) D_transmit (depth - 1)%Z ;;
     ret (vadd color (smul ((1 - k_r) * transmission mat) transmit_color)))
  /\ length_squared D_transmit == 1
  /\ vdot D_transmit hit_norm == - sqrt cos_t2
  /\ veq (vsub D_transmit (smul (vdot D_transmit hit_norm) hit_norm))
         (smul ratio
            (vsub ray_dir (smul (vdot ray_dir hit_norm) hit_norm))).
Proof.
  intros ratio cos_i cos_t2 D_transmit Ht Hn2 Hd Hn Hc Hs.
  split; [|split; [|split]].
  - rewrite transmit_entered by assumption.
    fold ratio cos_i cos_t2 D_transmit.
    now replace (Qgeb cos_t2 0) with true
      by (symmetry; now apply Qgeb_true).
  - unfold D_transmit, D_transmit_spec, cos_i.
    now apply D_transmit_length.
  - unfold D_transmit, D_transmit_spec, cos_i.
    now apply D_transmit_normal.
  - unfold D_transmit, D_transmit_spec.
    now apply D_transmit_tangent.
Qed.

End Geometry.

Lemma fresnel_reflectivity_is_bounded_witness :
  exists k_r,
    reflectivity_of water dive_dir up_dir = ([], Done k_r)
    /\ 0 <= R_0_of water /\ R_0_of water <= k_r /\ k_r <= 1.
Proof.
  destruct (fresnel_reflectivity_is_bounded water dive_dir up_dir)
    as (k_r & H1 & H2 & H3 & H4 & _).
  - reflexivity.
  - intros H. discriminate H.
  - intros H. discriminate H.
  - exists k_r. repeat split; assumption.
Defined.

Lemma reflection_is_a_mirror_witness :
  length_squared (D_reflect_spec dive_dir up_dir) == length_squared dive_dir
  /\ vdot (D_reflect_spec dive_dir up_dir) up_dir == - vdot dive_dir up_dir
  /\ veq (D_reflect_spec (D_reflect_spec dive_dir up_dir) up_dir) dive_dir.
Proof.
  apply (reflection_is_a_mirror sqrtQ blind dive_dir zeros up_dir false water
           (1 # 2) 1 zeros).
  - reflexivity.
  - reflexivity.
Defined.

Lemma refraction_obeys_snell_witness :
  cos_t2_spec (ratio_spec water false) (cos_i_spec up_dir dive_dir)
  == 16 # 25
  /\ length_squared
       (D_transmit_spec sqrtQ (ratio_spec water false)
          (cos_i_spec up_dir dive_dir)
          (cos_t2_spec (ratio_spec water false) (cos_i_spec up_dir dive_dir))
          dive_dir up_dir) == 1
  /\ veq (D_transmit_spec sqrtQ (ratio_spec water false)
            (cos_i_spec up_dir dive_dir)
            (cos_t2_spec (ratio_spec water false)
               (cos_i_spec up_dir dive_dir))
            dive_dir up_dir)
         (mkVector (3 # 5) 0 (- (4 # 5))).
Proof.
  split; [reflexivity|].
  split; [|vm_compute; repeat split; reflexivity].
  apply (refraction_obeys_snell sqrtQ blind dive_dir zeros up_dir false water
           (1 # 2) 1 zeros).
  - reflexivity.
  - intros H. discriminate H.
  - reflexivity.
  - reflexivity.
  - intros H. discriminate H.
  - reflexivity.
Defined.

(** ** Edges of the tracer *)

Section TraceEdges.

Variable sqrt : Q -> Q.
Variable fpow : Q -> Q -> Q.
Variable scene : Scene.
Variable lights : list Light.

(** X5. A depth below zero is a depth of zero: the colour (or the fault)
    is the same and so are the rays after the first; only the depth that
    the first ray is entered with differs. *)
Theorem depth_below_zero_is_zero (o d : Vector) (depth : Z) :
  (depth <= 0)%Z ->
  RT_trace_ray sqrt fpow scene o d lights depth
  = (EvTrace o d depth
       :: tl (fst (RT_trace_ray sqrt fpow scene o d lights 0)),
     snd (RT_trace_ray sqrt fpow scene o d lights 0)).
Proof.
  intros Hd. rewrite !RT_trace_ray_eq, !ray_cast_eq, !bind_done. cbv beta.
  destruct (negb (has_hit (cast scene o d))); [reflexivity|].
  rewrite (shade_no_depth sqrt fpow scene lights _ d depth) by exact Hd.
  rewrite (shade_no_depth sqrt fpow scene lights _ d 0) by lia.
  reflexivity.
Qed.

(** X6. The Fresnel term is computed before the depth is looked at: on a
    hit to which a light contributed, a material with [use_fresnel] and
    [1 + ior = 0] ends the trace with a division by zero right after the
    light loop, at every depth, also at depth 0 where no secondary ray
    would use the reflectivity. *)
Theorem fresnel_divides_by_zero_at_any_depth (o d : Vector) (depth : Z)
    (llog : list event) (col : Vector) :
  has_hit (cast scene o d) = true ->
  light_loop sqrt fpow scene (hit_loc (cast scene o d))
    (fst (orient (hit_norm (cast scene o d)) d)) d
    (hit_mat (cast scene o d)) lights (zeros, true)
  = (llog, Done (col, false)) ->
  use_fresnel (hit_mat (cast scene o d)) = true ->
  1 + ior (hit_mat (cast scene o d)) == 0 ->
  RT_trace_ray sqrt fpow scene o d lights depth
  = (EvTrace o d depth :: llog, Fault DivByZero).
Proof.
  intros Hhit Hloop Hf Hior.
  rewrite RT_trace_ray_hit, bind_emit by exact Hhit.
  unfold shade.
  destruct (orient (hit_norm (cast scene o d)) d) as [n inside].
  simpl fst in Hloop. rewrite Hloop, bind_done. cbv beta iota.
  unfold reflectivity_of. rewrite Hf.
  unfold qdiv.
  replace (Qeq_bool (1 + ior (hit_mat (cast scene o d))) 0) with true
    by (symmetry; now apply Qeq_bool_iff).
  simpl. now rewrite app_nil_r.
Qed.

End TraceEdges.

(** ** The number of rays *)

Section RayBudget.

Variable sqrt : Q -> Q.
Variable fpow : Q -> Q -> Q.
Variable scene : Scene.
Variable lights : list Light.

Lemma traces_app (l1 l2 : list event) :
  traces (l1 ++ l2) = (traces l1 + traces l2)%nat.
Proof. unfold traces. now rewrite filter_app, length_app. Qed.

Lemma shadows_app (l1 l2 : list event) :
  shadows (l1 ++ l2) = (shadows l1 + shadows l2)%nat.
Proof. unfold shadows. now rewrite filter_app, length_app. Qed.

Lemma traces_shadow_events (hl : Vector) (ls : list Light) :
  traces (map (shadow_event sqrt hl) ls) = 0%nat.
Proof. induction ls as [|a ls IH]; [reflexivity | exact IH]. Qed.

Lemma shadows_shadow_events (hl : Vector) (ls : list Light) :
  shadows (map (shadow_event sqrt hl) ls) = length ls.
Proof.
  induction ls as [|a ls IH]; [reflexivity|].
  unfold shadows in *. simpl. now rewrite IH.
Qed.

Lemma log_bind {A B} (m : M A) (k : A -> M B) :
  fst (bind m k)
  = fst m ++ match snd m with
             | Done a => fst (k a)
             | _ => []
             end.
Proof.
  destruct m as [l [a|f|]]; simpl.
  - now destruct (k a).
  - now rewrite app_nil_r.
  - now rewrite app_nil_r.
Qed.

(** The log of the transmission branch: nothing, or the log of one call
    of the tracer at [depth - 1]. *)
Lemma transmit_log (rec : Vector -> Vector -> Z -> M Vector)
    (d hl n : Vector) (inside : bool) (mat : Material) (k_r : Q)
    (depth : Z) (c : Vector) :
  fst (transmit sqrt rec d hl n inside mat k_r depth c) = []
  \/ (0 < transmission mat
      /\ exists o' d',
          fst (transmit sqrt rec d hl n inside mat k_r depth c)
          = fst (rec o' d' (depth - 1)%Z)).
Proof.
  unfold transmit. destruct (Qgtb (transmission mat) 0) eqn:Et;
    [|now left].
  apply Qgtb_true in Et.
  destruct (refraction_indices mat inside) as [n1 n2].
  unfold qdiv. destruct (Qeq_bool n2 0); [now left|].
  rewrite bind_ret_l. destruct (Qgeb _ 0); [|now left].
  right. split; [exact Et|]. eexists. eexists.
  rewrite log_bind.
  destruct (snd (rec _ _ _)); simpl; now rewrite app_nil_r.
Qed.

(** The log of the shading: shadow rays of the first lights, then the
    logs of at most two calls of the tracer at [depth - 1], none when
    [depth <= 0] and at most one when the material does not transmit. *)
Lemma shade_log (rec : Vector -> Vector -> Z -> M Vector) (ray_dir : Vector)
    (depth : Z) (h : Hit) (c : Vector) :
  exists k calls,
    fst (shade sqrt fpow rec scene ray_dir lights depth h c)
    = map (shadow_event sqrt (hit_loc h)) (firstn k lights)
      ++ flat_map (fun od => fst (rec (fst od) (snd od) (depth - 1)%Z)) calls
    /\ (length calls <= 2)%nat
    /\ ((depth <= 0)%Z -> calls = [])
    /\ (transmission (hit_mat h) <= 0 -> (length calls <= 1)%nat).
Proof.
  unfold shade. destruct (orient (hit_norm h) ray_dir) as [n inside].
  destruct (light_loop_log_prefix sqrt fpow scene (hit_loc h) n ray_dir
              (hit_mat h) lights (c, true)) as [k Hk].
  exists k. rewrite log_bind, Hk.
  destruct (snd (light_loop _ _ _ _ _ _ _ _ _)) as [[c1 flag]| |].
  2,3: exists []; simpl; repeat split; auto; lia.
  destruct flag.
  { exists []. simpl. repeat split; auto; lia. }
  rewrite log_bind, reflectivity_of_log.
  destruct (snd (reflectivity_of _ _ _)) as [k_r| |].
  2,3: exists []; simpl; repeat split; auto; lia.
  cbn [app]. unfold secondary.
  destruct (0 <? depth)%Z eqn:Ed.
  2:{ exists []. simpl. repeat split; auto; lia. }
  apply Z.ltb_lt in Ed. rewrite log_bind.
  match goal with
  | |- context [rec ?a ?b ?z] => set (o1 := a); set (d1 := b)
  end.
  destruct (snd (rec o1 d1 (depth - 1)%Z)) as [rc| |].
  2,3: exists [(o1, d1)]; simpl; rewrite !app_nil_r;
       repeat split; auto; lia.
  destruct (transmit_log rec ray_dir (hit_loc h) n inside (hit_mat h) k_r
              depth (vadd c1 (smul k_r rc))) as [E | (Ht & o2 & d2 & E)];
    rewrite E.
  - exists [(o1, d1)]. simpl. rewrite !app_nil_r.
    repeat split; auto; lia.
  - exists [(o1, d1); (o2, d2)]. simpl. rewrite !app_nil_r.
    repeat split; auto; try lia. intros H. lra.
Qed.

(** What a log of the tracer is worth, for a bound [B] on its entries. *)
Local Abbreviation worth B l :=
  (Nat.le (traces l) B
   /\ Nat.le (shadows l) (Nat.mul (length lights) (traces l))
   /\ Nat.add (traces l) (shadows l) = length l).

Lemma worth_shade (rec : Vector -> Vector -> Z -> M Vector)
    (ray_dir o : Vector) (depth : Z) (h : Hit) (c : Vector) (B : nat) :
  (forall o' d', worth B (fst (rec o' d' (depth - 1)%Z))) ->
  worth (if (0 <? depth)%Z then S (2 * B) else 1%nat)
        (EvTrace o ray_dir depth
           :: fst (shade sqrt fpow rec scene ray_dir lights depth h c))
  /\ (transmission (hit_mat h) <= 0 ->
      (traces (EvTrace o ray_dir depth
                 :: fst (shade sqrt fpow rec scene ray_dir lights depth h c))
       <= if (0 <? depth)%Z then S B else 1)%nat).
Proof.
  intros Hrec.
  destruct (shade_log rec ray_dir depth h c)
    as (k & calls & E & Hlen & Hzero & Hopaque).
  rewrite E. clear E.
  assert (Hk : (length (firstn k lights) <= length lights)%nat).
  { rewrite length_firstn. apply Nat.le_min_r. }
  assert (Hnil : traces [] = 0%nat /\ shadows [] = 0%nat) by (split; reflexivity).
  destruct Hnil as [Ht0 Hs0].
  assert (Hhead : forall l,
             traces (EvTrace o ray_dir depth :: l) = S (traces l)
             /\ shadows (EvTrace o ray_dir depth :: l) = shadows l).
  { intros l. split; reflexivity. }
  destruct (Hhead (map (shadow_event sqrt (hit_loc h)) (firstn k lights)
                     ++ flat_map
                          (fun od => fst (rec (fst od) (snd od)
                                            (depth - 1)%Z)) calls))
    as [-> ->].
  cbn [length]. rewrite traces_app, shadows_app, length_app.
  rewrite traces_shadow_events, shadows_shadow_events, length_map.
  destruct (0 <? depth)%Z eqn:Ed.
  - destruct calls as [|[o1 d1] [|[o2 d2] [|x calls]]];
      cbn [flat_map fst snd length] in *; try lia.
    + rewrite app_nil_r.
      destruct (Hrec o1 d1) as (H1 & H2 & H3).
      split; [|intros _]; repeat split; nia.
    + rewrite app_nil_r, traces_app, shadows_app, length_app.
      destruct (Hrec o1 d1) as (H1 & H2 & H3).
      destruct (Hrec o2 d2) as (H4 & H5 & H6).
      split; [repeat split; nia|].
      intros Ht. specialize (Hopaque Ht). lia.
  - apply Z.ltb_ge in Ed. rewrite (Hzero Ed).
    cbn [flat_map length]. rewrite Ht0, Hs0.
    split; [|intros _]; repeat split; nia.
Qed.

Lemma worth_trace_fuel (fuel : nat) :
  forall o d depth,
    worth (2 ^ S (Z.to_nat depth) - 1)%nat
          (fst (RT_trace_ray_fuel sqrt fpow fuel scene o d lights depth)).
Proof.
  induction fuel as [|fuel IH]; intros o d depth.
  - unfold traces, shadows. simpl. repeat split; lia.
  - rewrite trace_fuel_S, ray_cast_eq, bind_done. cbv beta. cbn [fst].
    assert (Hpow : forall n, (1 <= 2 ^ n)%nat).
    { intros n. induction n; simpl; lia. }
    destruct (negb (has_hit (cast scene o d))).
    + assert (2 <= 2 ^ S (Z.to_nat depth))%nat
        by (pose proof (Hpow (Z.to_nat depth)); simpl; lia).
      unfold traces, shadows. cbn [fst ret app filter is_trace is_shadow length].
      repeat split; nia.
    + destruct (worth_shade
                  (fun o0 d0 k =>
                     RT_trace_ray_fuel sqrt fpow fuel scene o0 d0 lights k)
                  d o depth (cast scene o d) zeros
                  (2 ^ S (Z.to_nat (depth - 1)) - 1)%nat)
        as [(H1 & H2 & H3) _].
      { intros o' d'. apply IH. }
      cbn [app] in *. split; [|split; [exact H2 | exact H3]].
      destruct (0 <? depth)%Z eqn:Ed.
      * apply Z.ltb_lt in Ed.
        replace (Z.to_nat depth) with (S (Z.to_nat (depth - 1))) by lia.
        pose proof (Hpow (S (Z.to_nat (depth - 1)))).
        change (2 ^ S (S (Z.to_nat (depth - 1))))%nat
          with (2 * 2 ^ S (Z.to_nat (depth - 1)))%nat.
        lia.
      * assert (2 <= 2 ^ S (Z.to_nat depth))%nat
          by (pose proof (Hpow (Z.to_nat depth)); simpl; lia).
        lia.
Qed.

Lemma opaque_trace_fuel (fuel : nat) :
  opaque_scene scene ->
  forall o d depth,
    (traces (fst (RT_trace_ray_fuel sqrt fpow fuel scene o d lights depth))
     <= S (Z.to_nat depth))%nat.
Proof.
  intros Hop. induction fuel as [|fuel IH]; intros o d depth.
  - unfold traces. simpl. lia.
  - rewrite trace_fuel_S, ray_cast_eq, bind_done. cbv beta. cbn [fst].
    destruct (negb (has_hit (cast scene o d))).
    + simpl. unfold traces. simpl. lia.
    + pose proof (shade_log
                    (fun o0 d0 k =>
                       RT_trace_ray_fuel sqrt fpow fuel scene o0 d0 lights k)
                    d depth (cast scene o d) zeros)
        as (k & calls & E & Hlen & Hzero & Hopq).
      specialize (Hopq (Hop o d)).
      cbn [app]. rewrite E.
      change (traces (EvTrace o d depth :: ?l)) with (S (traces l)).
      rewrite traces_app, traces_shadow_events.
      destruct calls as [|[o1 d1] [|x calls]]; cbn [flat_map fst snd length]
        in *; try lia.
      * unfold traces. simpl. lia.
      * rewrite app_nil_r.
        destruct (Z_le_gt_dec depth 0) as [Hd | Hd].
        -- specialize (Hzero Hd). discriminate.
        -- pose proof (IH o1 d1 (depth - 1)%Z). lia.
Qed.

(** X7. The rays of a trace are counted by the depth.  [RT_trace_ray]
    enters itself at most [2^(depth+1) - 1] times (once when
    [depth <= 0]), and at most [depth + 1] times in a scene where no
    surface transmits; it casts at most one shadow ray per light and
    entry; and its log holds these rays and nothing else: the tracer
    writes no pixel and yields nothing. *)
Theorem rays_are_bounded_by_depth (o d : Vector) (depth : Z) :
  let log := fst (RT_trace_ray sqrt fpow scene o d lights depth) in
  (traces log + 1 <= 2 ^ S (Z.to_nat depth))%nat
  /\ (shadows log <= length lights * traces log)%nat
  /\ (traces log + shadows log)%nat = length log
  /\ (opaque_scene scene -> (traces log <= S (Z.to_nat depth))%nat).
Proof.
  intros log. subst log. unfold RT_trace_ray.
  destruct (worth_trace_fuel (S (Z.to_nat depth)) o d depth)
    as (H1 & H2 & H3).
  assert (Hpow : (1 <= 2 ^ S (Z.to_nat depth))%nat).
  { generalize (S (Z.to_nat depth)). intros n. induction n; simpl; lia. }
  split; [lia|]. split; [exact H2|]. split; [exact H3|].
  intros Hop. now apply opaque_trace_fuel.
Qed.

End RayBudget.

Lemma floor_scene_is_opaque : opaque_scene floor_scene.
Proof.
  intros o d. unfold floor_scene, plane_cast. cbn [cast].
  destruct (Qeq_bool (vz d) 0); [intros H; discriminate H|].
  destruct (Qgtb _ 0); intros H; discriminate H.
Qed.

Lemma rays_are_bounded_by_depth_witness :
  opaque_scene floor_scene
  /\ (traces (fst (RT_trace_ray sqrtQ powQ floor_scene slant_orig slant_dir
                     [lamp_above] 3)) <= 4)%nat
  /\ (shadows (fst (RT_trace_ray sqrtQ powQ floor_scene slant_orig slant_dir
                      [lamp_above] 3))
      <= 1 * traces (fst (RT_trace_ray sqrtQ powQ floor_scene slant_orig
                            slant_dir [lamp_above] 3)))%nat.
Proof.
  destruct (rays_are_bounded_by_depth sqrtQ powQ floor_scene [lamp_above]
              slant_orig slant_dir 3) as (_ & H2 & _ & H4).
  split; [exact floor_scene_is_opaque|].
  split; [exact (H4 floor_scene_is_opaque) | exact H2].
Defined.

Lemma light_loop_is_a_sum_witness :
  (forall l, In l (lit_by sqrtQ floor_scene zeros [lamp_above; lamp_below]) ->
             divisors_nonzero sqrtQ zeros slant_dir l)
  /\ snd (light_loop sqrtQ powQ floor_scene zeros up_dir slant_dir matte
            [lamp_above; lamp_below] (zeros, true))
     = Done (fold_left (add_light sqrtQ powQ zeros up_dir slant_dir matte)
               (lit_by sqrtQ floor_scene zeros [lamp_above; lamp_below])
               zeros,
             true && forallb (occluded sqrtQ floor_scene zeros)
                       [lamp_above; lamp_below]).
Proof.
  assert (H : forall l,
             In l (lit_by sqrtQ floor_scene zeros [lamp_above; lamp_below]) ->
             divisors_nonzero sqrtQ zeros slant_dir l).
  { intros l [<- | [<- | []]]; split; intros E; discriminate E. }
  split; [exact H|].
  apply (proj2 (light_loop_is_a_sum sqrtQ powQ floor_scene zeros up_dir
                  slant_dir matte [lamp_above; lamp_below] zeros true)).
  exact H.
Defined.

Lemma depth_below_zero_is_zero_witness :
  (-3 <= 0)%Z
  /\ snd (RT_trace_ray sqrtQ powQ glass_scene slant_orig slant_dir
            [lamp_above] (-3))
     = snd (RT_trace_ray sqrtQ powQ glass_scene slant_orig slant_dir
              [lamp_above] 0).
Proof.
  split; [lia|].
  rewrite (depth_below_zero_is_zero sqrtQ powQ glass_scene [lamp_above]
             slant_orig slant_dir (-3)) by lia.
  reflexivity.
Defined.

Lemma fresnel_divides_by_zero_at_any_depth_witness :
  exists llog col,
    light_loop sqrtQ powQ anti_scene
      (hit_loc (cast anti_scene slant_orig slant_dir))
      (fst (orient (hit_norm (cast anti_scene slant_orig slant_dir))
                   slant_dir))
      slant_dir anti_glass [lamp_above] (zeros, true)
    = (llog, Done (col, false))
    /\ 1 + ior anti_glass == 0
    /\ RT_trace_ray sqrtQ powQ anti_scene slant_orig slant_dir [lamp_above] 0
       = (EvTrace slant_orig slant_dir 0 :: llog, Fault DivByZero).
Proof.
  eexists. eexists.
  split; [vm_compute; reflexivity|]. split; [reflexivity|].
  refine (fresnel_divides_by_zero_at_any_depth sqrtQ powQ anti_scene
            [lamp_above] slant_orig slant_dir 0 _ _ _ _ _ _).
  - reflexivity.
  - vm_compute. reflexivity.
  - reflexivity.
  - reflexivity.
Defined.

(** ** Edges of the frame renderer *)

Lemma for_each_app {A S : Type} (xs ys : list A) (body : A -> S -> M S)
    (s : S) :
  for_each (xs ++ ys) body s
  = bind (for_each xs body s) (for_each ys body).
Proof.
  revert s. induction xs as [|a xs IH]; intros s.
  - cbn [app for_each]. now rewrite bind_ret_l.
  - cbn [app for_each]. destruct (body a s) as [l [s1|f|]]; try reflexivity.
    rewrite !bind_done, IH.
    destruct (for_each xs body s1) as [l1 [s2|f|]]; try reflexivity;
      simpl; try now rewrite app_nil_r.
    destruct (for_each ys body s2) as [l2 o2]. simpl.
    now rewrite app_assoc.
Qed.

(** What holds before a loop and is kept by each iteration that returns
    holds after a loop that returns. *)
Lemma for_each_keeps {A S : Type} (P : S -> Prop) (xs : list A)
    (body : A -> S -> M S) :
  (forall x s l s', In x xs -> P s -> body x s = (l, Done s') -> P s') ->
  forall s l s', P s -> for_each xs body s = (l, Done s') -> P s'.
Proof.
  induction xs as [|a xs IH]; intros Hbody s l s' Hs H.
  - inversion H. now subst.
  - cbn [for_each] in H.
    destruct (body a s) as [l1 [s1|f|]] eqn:E; try discriminate.
    rewrite bind_done in H.
    destruct (for_each xs body s1) as [l2 o2] eqn:E2. simpl in H.
    inversion H; subst.
    eapply IH; [| |exact E2].
    + intros x s0 l0 s0' Hx. apply Hbody. now right.
    + eapply Hbody; [now left | exact Hs | exact E].
Qed.

(** A loop that returns ran every iteration to its end, each from a
    state that what the loop keeps holds of. *)
Lemma for_each_ran {A S : Type} (P : S -> Prop) (xs : list A)
    (body : A -> S -> M S) :
  (forall x s l s', In x xs -> P s -> body x s = (l, Done s') -> P s') ->
  forall s l s', P s -> for_each xs body s = (l, Done s') ->
    forall x, In x xs -> exists s1 l1 s2, P s1 /\ body x s1 = (l1, Done s2).
Proof.
  induction xs as [|a xs IH]; intros Hbody s l s' Hs H x Hx; [destruct Hx|].
  cbn [for_each] in H.
  destruct (body a s) as [l1 [s1|f|]] eqn:E; try discriminate.
  rewrite bind_done in H.
  destruct (for_each xs body s1) as [l2 o2] eqn:E2. simpl in H.
  inversion H; subst.
  destruct Hx as [-> | Hx].
  - exists s, l1, s1. now split.
  - eapply IH; [| |exact E2|exact Hx].
    + intros y s0 l0 s0' Hy. apply Hbody. now right.
    + eapply Hbody; [now left | exact Hs | exact E].
Qed.

Lemma done_or_bind {A B : Type} (f : fault) (m : M A) (k : A -> M B) :
  done_or f m -> (forall a, done_or f (k a)) -> done_or f (bind m k).
Proof.
  unfold done_or.
  intros [[a Ha] | Hm] Hk; destruct m as [l o]; cbn [snd] in *; subst o.
  - rewrite bind_done. cbn [snd]. apply Hk.
  - right. reflexivity.
Qed.

Lemma done_or_for_each {A S : Type} (f : fault) (xs : list A)
    (body : A -> S -> M S) :
  (forall x s, In x xs -> done_or f (body x s)) ->
  forall s, done_or f (for_each xs body s).
Proof.
  induction xs as [|a xs IH]; intros Hbody s.
  - left. now exists s.
  - cbn [for_each]. apply done_or_bind; [apply Hbody; now left|].
    intros s1. apply IH. intros x s0 Hx. apply Hbody. now right.
Qed.

Section FrameEdges.

Variable sqrt : Q -> Q.
Variable fpow : Q -> Q -> Q.
Variable rotate : Euler -> Vector -> Vector.
Variable scene : Scene.
Variables width height depth : Z.

Local Abbreviation lights := (lights_of (objects scene)).
Local Abbreviation cam := (cam_location (camera scene)).
Local Abbreviation orientation := (rotation_euler (camera scene)).
Local Abbreviation trace_at focal screen_y x :=
  (RT_trace_ray sqrt fpow scene cam
     (normalized sqrt
        (rotate orientation
           (mkVector ((inject_Z x - inject_Z width / 2) / inject_Z width)
                     screen_y (- focal))))
     lights depth).
Local Abbreviation pixel focal screen_y y :=
  (render_pixel sqrt fpow rotate scene width depth lights cam orientation
     focal screen_y y).
Local Abbreviation row focal aspect :=
  (render_row sqrt fpow rotate scene width height depth lights cam
     orientation focal aspect).

(** A pixel that returns: its trace returned, the indices were inside the
    array, and the pixel is painted. *)
Lemma render_pixel_inv (focal screen_y : Q) (y x : Z) (b : Buffer)
    (l : list event) (b' : Buffer) :
  pixel focal screen_y y x b = (l, Done b') ->
  in_bounds b y x = true
  /\ exists lt c,
      trace_at focal screen_y x = (lt, Done c)
      /\ l = lt ++ [EvPixel y x]
      /\ b' = paint b y x c.
Proof.
  unfold render_pixel, qdiv.
  destruct (Qeq_bool (inject_Z width) 0); [discriminate|].
  rewrite bind_ret_l.
  destruct (trace_at focal screen_y x) as [lt [c| |]]; try discriminate.
  rewrite bind_done. cbv beta. unfold set_rgb.
  destruct (in_bounds b y x) eqn:Hb; [|simpl; discriminate].
  rewrite bind_emit. simpl fst. simpl snd. unfold set_alpha.
  replace (in_bounds (with_rgb b y x c) y x) with true
    by (now rewrite <- Hb).
  simpl. intros H. inversion H. subst.
  split; [reflexivity|]. exists lt, c. repeat split.
Qed.

(** A row that returns: its pixels returned. *)
Lemma render_row_inv (focal aspect : Q) (y : Z) (b : Buffer)
    (l : list event) (b' : Buffer) :
  row focal aspect y b = (l, Done b') ->
  exists l',
    for_each (range width)
      (pixel focal
         ((inject_Z y - inject_Z height / 2) / inject_Z height * aspect) y) b
    = (l', Done b').
Proof.
  unfold render_row, qdiv.
  destruct (Qeq_bool (inject_Z height) 0); [discriminate|].
  rewrite bind_ret_l.
  destruct (for_each _ _ b) as [l1 [b1|f|]]; try discriminate.
  rewrite bind_done, bind_emit. simpl. intros H. inversion H. subst.
  now exists l1.
Qed.

(** The shape and the entries outside the frame, as in [b0]. *)
Local Abbreviation kept b0 b :=
  (buf_h b = buf_h b0 /\ buf_w b = buf_w b0
   /\ forall y x ch, ~ in_frame width height y x ch ->
                     buf_data b y x ch = buf_data b0 y x ch).

Lemma paint_outside (b : Buffer) (y x : Z) (c : Vector) (y' x' ch : Z) :
  (0 <= y < height)%Z -> (0 <= x < width)%Z ->
  ~ in_frame width height y' x' ch ->
  buf_data (paint b y x c) y' x' ch = buf_data b y' x' ch.
Proof.
  intros Hy Hx Hout.
  destruct (Z.eq_dec y' y) as [-> | Hn];
    [destruct (Z.eq_dec x' x) as [-> | Hn]|];
    try (apply paint_elsewhere; congruence).
  apply paint_other_channel; apply Z.eqb_neq; intros ->;
    apply Hout; unfold in_frame; lia.
Qed.

Lemma render_row_keeps (b0 : Buffer) (focal aspect : Q) (y : Z)
    (b : Buffer) (l : list event) (b' : Buffer) :
  (0 <= y < height)%Z ->
  kept b0 b -> row focal aspect y b = (l, Done b') -> kept b0 b'.
Proof.
  intros Hy Hk H. apply render_row_inv in H. destruct H as [l' H].
  refine (for_each_keeps (fun b => kept b0 b) (range width) _ _ b l' b' Hk H).
  intros x s l0 s' Hx (Hh & Hw & Hd) Hp.
  apply range_In in Hx.
  apply render_pixel_inv in Hp. destruct Hp as (_ & lt & c & _ & _ & ->).
  split; [exact Hh|]. split; [exact Hw|].
  intros y' x' ch Hout. rewrite paint_outside by assumption.
  now apply Hd.
Qed.

(** X8. The renderer writes inside the frame only: when it returns, the
    buffer has the shape it had, and every entry outside the rows
    [0 <= y < height], the columns [0 <= x < width] and the four channels
    holds the value it held. *)
Theorem render_writes_inside_the_frame (buf : Buffer) (log : list event)
    (buf' : Buffer) :
  RT_render_scene sqrt fpow rotate scene width height depth buf
  = (log, Done buf') ->
  buf_h buf' = buf_h buf
  /\ buf_w buf' = buf_w buf
  /\ forall y x ch,
      ~ ((0 <= y < height)%Z /\ (0 <= x < width)%Z /\ (0 <= ch <= 3)%Z) ->
      buf_data buf' y x ch = buf_data buf y x ch.
Proof.
  unfold RT_render_scene, qdiv.
  destruct (Qeq_bool (sensor_width (camera scene)) 0); [discriminate|].
  rewrite bind_ret_l.
  destruct (Qeq_bool (inject_Z width) 0); [discriminate|].
  rewrite bind_ret_l. intros H.
  refine (for_each_keeps (fun b => kept buf b) (range height) _ _ buf log buf'
            _ H).
  - intros y s l s' Hy Hk Hr. apply range_In in Hy.
    eapply render_row_keeps; eassumption.
  - repeat split.
Qed.

(** X9. Frames without pixels.  A width of zero is a division by zero
    before anything is traced, whatever the height.  With a sensor width
    that is not zero: a height of zero or less returns the buffer as it
    is, without an event; a width below zero yields every row and writes
    no pixel. *)
Theorem frames_without_pixels (buf : Buffer) :
  (width = 0%Z ->
   RT_render_scene sqrt fpow rotate scene width height depth buf
   = ([], Fault DivByZero))
  /\ (~ sensor_width (camera scene) == 0 -> width <> 0%Z ->
      (height <= 0)%Z ->
      RT_render_scene sqrt fpow rotate scene width height depth buf
      = ([], Done buf))
  /\ (~ sensor_width (camera scene) == 0 -> (width < 0)%Z ->
      RT_render_scene sqrt fpow rotate scene width height depth buf
      = (map EvYield (range height), Done buf)).
Proof.
  split; [|split].
  - intros ->. unfold RT_render_scene, qdiv.
    destruct (Qeq_bool (sensor_width (camera scene)) 0); [reflexivity|].
    rewrite bind_ret_l. reflexivity.
  - intros Hs Hw Hh. unfold RT_render_scene.
    rewrite qdiv_nonzero by exact Hs. rewrite bind_ret_l.
    rewrite qdiv_nonzero by (now apply inject_Z_nonzero).
    rewrite bind_ret_l. unfold range.
    replace (Z.to_nat height) with 0%nat by lia. reflexivity.
  - intros Hs Hw. unfold RT_render_scene.
    rewrite qdiv_nonzero by exact Hs. rewrite bind_ret_l.
    rewrite qdiv_nonzero by (apply inject_Z_nonzero; lia).
    rewrite bind_ret_l.
    assert (Hrow : forall y b,
               In y (range height) ->
               row (lens (camera scene) / sensor_width (camera scene))
                   (inject_Z height / inject_Z width) y b
               = ([EvYield y], Done b)).
    { intros y b Hy. apply range_In in Hy. unfold render_row.
      rewrite qdiv_nonzero by (apply inject_Z_nonzero; lia).
      rewrite bind_ret_l. unfold range at 1.
      replace (Z.to_nat width) with 0%nat by lia. reflexivity. }
    revert Hrow. generalize (range height). intros ys.
    induction ys as [|y ys IH]; intros Hrow; [reflexivity|].
    cbn [for_each map]. rewrite Hrow by now left.
    rewrite bind_done, IH by (intros; apply Hrow; now right).
    reflexivity.
Qed.

Local Abbreviation trace_of :=
  (pixel_trace sqrt fpow rotate scene width height depth).
Local Abbreviation focal_length :=
  (lens (camera scene) / sensor_width (camera scene)).
Local Abbreviation aspect_ratio := (inject_Z height / inject_Z width).

(** The rows of a frame that returns: the divisors were not zero, every
    pixel was inside the array and every trace returned. *)
Lemma render_returned (buf : Buffer) (log : list event) (buf' : Buffer) :
  RT_render_scene sqrt fpow rotate scene width height depth buf
  = (log, Done buf') ->
  ~ sensor_width (camera scene) == 0
  /\ width <> 0%Z
  /\ forall y x, (0 <= y < height)%Z -> (0 <= x < width)%Z ->
       in_bounds buf y x = true
       /\ exists l c, trace_of y x = (l, Done c).
Proof.
  unfold RT_render_scene, qdiv.
  destruct (Qeq_bool (sensor_width (camera scene)) 0) eqn:Es;
    [discriminate|].
  rewrite bind_ret_l.
  destruct (Qeq_bool (inject_Z width) 0) eqn:Ew; [discriminate|].
  rewrite bind_ret_l. intros H.
  split; [now apply Qeq_bool_false|].
  split; [intros ->; discriminate Ew|].
  intros y x Hy Hx.
  pose (same := fun b : Buffer =>
                  buf_h b = buf_h buf /\ buf_w b = buf_w buf).
  assert (Hpix : forall focal sy y0 x0 b l b',
             same b -> pixel focal sy y0 x0 b = (l, Done b') -> same b').
  { intros focal sy y0 x0 b l b' Hb Hp.
    apply render_pixel_inv in Hp. destruct Hp as (_ & lt & c & _ & _ & ->).
    exact Hb. }
  assert (Hrow : forall y0 b l b',
             same b -> row focal_length aspect_ratio y0 b = (l, Done b') ->
             same b').
  { intros y0 b l b' Hb Hr. apply render_row_inv in Hr.
    destruct Hr as [l' Hr].
    refine (for_each_keeps same (range width) _ _ b l' b' Hb Hr).
    intros x0 s l0 s' _. apply Hpix. }
  destruct (for_each_ran same (range height) _
              (fun y0 s l s' _ => Hrow y0 s l s') buf log buf'
              (conj eq_refl eq_refl) H y)
    as (b1 & l1 & b2 & Hb1 & Hr); [now apply range_In|].
  apply render_row_inv in Hr. destruct Hr as [l' Hr].
  destruct (for_each_ran same (range width) _
              (fun x0 s l s' _ => Hpix _ _ y x0 s l s') b1 l' b2 Hb1 Hr x)
    as (b3 & l3 & b4 & (Hh & Hw) & Hp); [now apply range_In|].
  apply render_pixel_inv in Hp.
  destruct Hp as (Hin & lt & c & Ht & _ & _).
  split.
  - unfold in_bounds in *. now rewrite <- Hh, <- Hw.
  - exists lt, c. exact Ht.
Qed.

(** X10. When the renderer returns, nothing went wrong on the way: the
    sensor width and the width were not zero, every pixel of the frame
    was inside the buffer, its trace returned a colour, and the buffer
    holds that colour and alpha 1. *)
Theorem render_returns_only_painted (buf : Buffer) (log : list event)
    (buf' : Buffer) :
  RT_render_scene sqrt fpow rotate scene width height depth buf
  = (log, Done buf') ->
  ~ sensor_width (camera scene) == 0
  /\ width <> 0%Z
  /\ forall y x, (0 <= y < height)%Z -> (0 <= x < width)%Z ->
       (0 <= y < buf_h buf)%Z /\ (0 <= x < buf_w buf)%Z
       /\ exists l c,
           trace_of y x = (l, Done c)
           /\ buf_data buf' y x 0 = vx c
           /\ buf_data buf' y x 1 = vy c
           /\ buf_data buf' y x 2 = vz c
           /\ buf_data buf' y x 3 = 1.
Proof.
  intros H. destruct (render_returned buf log buf' H) as (Hs & Hw & Hall).
  split; [exact Hs|]. split; [exact Hw|].
  intros y x Hy Hx.
  assert (Hlast : in_bounds buf (height - 1) (width - 1) = true)
    by (apply Hall; lia).
  unfold in_bounds in Hlast.
  rewrite !andb_true_iff, !Z.leb_le, !Z.ltb_lt in Hlast.
  split; [lia|]. split; [lia|].
  destruct (Hall y x Hy Hx) as (_ & l & c & Ht).
  exists l, c. split; [exact Ht|].
  assert (Hrun : RT_render_scene sqrt fpow rotate scene width height depth buf
                 = (frame_log trace_of width height,
                    Done (paint_frame (fun y x => color_of (trace_of y x))
                            width height buf))).
  { unfold RT_render_scene.
    rewrite qdiv_nonzero by exact Hs. rewrite bind_ret_l.
    rewrite (qdiv_nonzero (inject_Z height) (inject_Z width))
      by (apply inject_Z_nonzero; lia).
    rewrite bind_ret_l.
    apply render_rows_done; try lia.
    - intros y0 Hy0. now apply range_In.
    - intros y0 x0 Hy0 Hx0. now apply Hall. }
  rewrite H in Hrun. inversion Hrun as [[Hlog Hbuf]].
  unfold paint_frame.
  rewrite !(paint_rows_pixel _ width (range height) buf y x)
    by (match goal with
        | |- In _ _ => apply range_In; lia
        | _ => lia
        end).
  replace c with (color_of (trace_of y x)) by (unfold color_of; now rewrite Ht).
  apply paint_here.
Qed.

Lemma done_or_pixel (focal screen_y : Q) (y x : Z) (b : Buffer) :
  (0 < width)%Z ->
  (exists l c, trace_at focal screen_y x = (l, Done c)) ->
  done_or IndexOutOfBounds (pixel focal screen_y y x b).
Proof.
  intros Hw (l & c & Ht).
  destruct (in_bounds b y x) eqn:Hb.
  - left. exists (paint b y x c).
    now rewrite (render_pixel_done sqrt fpow rotate scene width depth focal
                   screen_y y x b l c Hw Hb Ht).
  - right. unfold render_pixel.
    rewrite qdiv_nonzero by (apply inject_Z_nonzero; lia).
    rewrite bind_ret_l, Ht, bind_done. cbv beta.
    unfold set_rgb. rewrite Hb. simpl. reflexivity.
Qed.

(** X11. A buffer that is too small is an index error: with a frame that
    has pixels, divisors that are not zero and traces that return, a
    buffer with fewer rows than [height] or fewer columns than [width]
    ends the rendering with the index fault and nothing else. *)
Theorem small_buffer_is_an_index_error (buf : Buffer) :
  (0 < width)%Z -> (0 < height)%Z ->
  ~ sensor_width (camera scene) == 0 ->
  (forall y x, (0 <= y < height)%Z -> (0 <= x < width)%Z ->
               exists l c, trace_of y x = (l, Done c)) ->
  (buf_h buf < height)%Z \/ (buf_w buf < width)%Z ->
  snd (RT_render_scene sqrt fpow rotate scene width height depth buf)
  = Fault IndexOutOfBounds.
Proof.
  intros Hw Hh Hs Ht Hsmall.
  assert (Hor : done_or IndexOutOfBounds
                  (RT_render_scene sqrt fpow rotate scene width height depth
                     buf)).
  { unfold RT_render_scene.
    rewrite qdiv_nonzero by exact Hs. rewrite bind_ret_l.
    rewrite (qdiv_nonzero (inject_Z height) (inject_Z width))
      by (apply inject_Z_nonzero; lia).
    rewrite bind_ret_l.
    apply done_or_for_each. intros y b Hy. apply range_In in Hy.
    unfold render_row.
    rewrite qdiv_nonzero by (apply inject_Z_nonzero; lia).
    rewrite bind_ret_l.
    apply done_or_bind.
    - apply done_or_for_each. intros x b0 Hx. apply range_In in Hx.
      apply done_or_pixel; [exact Hw|]. now apply Ht.
    - intros b1. left. rewrite bind_emit. eexists. reflexivity. }
  destruct Hor as [[buf' Hd] | Hf]; [|exact Hf].
  destruct (RT_render_scene sqrt fpow rotate scene width height depth buf)
    as [log o] eqn:E.
  simpl in Hd. subst o.
  destruct (render_returned buf log buf' E) as (_ & _ & Hall).
  destruct (Hall (height - 1)%Z (width - 1)%Z) as [Hin _]; try lia.
  unfold in_bounds in Hin.
  rewrite !andb_true_iff, !Z.leb_le, !Z.ltb_lt in Hin. lia.
Qed.

End FrameEdges.

Lemma tiny_frame_traces (y x : Z) :
  (0 <= y < 1)%Z -> (0 <= x < 1)%Z ->
  exists l c,
    pixel_trace sqrtQ powQ rotate0 floor_scene 1 1 0 y x = (l, Done c).
Proof.
  intros Hy Hx.
  assert (Ey : y = 0%Z) by lia. assert (Ex : x = 0%Z) by lia. subst.
  eexists. eexists. vm_compute. reflexivity.
Qed.

Lemma render_writes_inside_the_frame_witness :
  exists log buf',
    RT_render_scene sqrtQ powQ rotate0 floor_scene 1 1 0 (blank 2 2)
    = (log, Done buf')
    /\ buf_h buf' = 2%Z /\ buf_w buf' = 2%Z
    /\ buf_data buf' 1 1 3 = 0
    /\ buf_data buf' 0 1 0 = 0.
Proof.
  eexists. eexists. split; [vm_compute; reflexivity|].
  edestruct (render_writes_inside_the_frame sqrtQ powQ rotate0 floor_scene
               1 1 0 (blank 2 2)) as (Hh & Hw & Hd).
  - vm_compute. reflexivity.
  - split; [exact Hh|]. split; [exact Hw|].
    split; apply Hd; lia.
Defined.

Lemma frames_without_pixels_witness :
  RT_render_scene sqrtQ powQ rotate0 floor_scene 0 2 1 (blank 2 2)
  = ([], Fault DivByZero)
  /\ RT_render_scene sqrtQ powQ rotate0 floor_scene 2 0 1 (blank 2 2)
     = ([], Done (blank 2 2))
  /\ RT_render_scene sqrtQ powQ rotate0 floor_scene (-1) 2 1 (blank 2 2)
     = ([EvYield 0; EvYield 1], Done (blank 2 2)).
Proof.
  assert (Hs : ~ sensor_width (camera floor_scene) == 0).
  { intros H. discriminate H. }
  split; [|split].
  - apply (proj1 (frames_without_pixels sqrtQ powQ rotate0 floor_scene 0 2 1
                    (blank 2 2))).
    reflexivity.
  - apply (proj1 (proj2 (frames_without_pixels sqrtQ powQ rotate0 floor_scene
                           2 0 1 (blank 2 2))));
      [exact Hs | lia | lia].
  - apply (proj2 (proj2 (frames_without_pixels sqrtQ powQ rotate0 floor_scene
                           (-1) 2 1 (blank 2 2))));
      [exact Hs | lia].
Defined.

Lemma render_returns_only_painted_witness :
  exists log buf' l c,
    RT_render_scene sqrtQ powQ rotate0 floor_scene 1 1 0 (blank 2 2)
    = (log, Done buf')
    /\ pixel_trace sqrtQ powQ rotate0 floor_scene 1 1 0 0 0 = (l, Done c)
    /\ buf_data buf' 0 0 0 = vx c
    /\ buf_data buf' 0 0 3 = 1.
Proof.
  destruct (RT_render_scene sqrtQ powQ rotate0 floor_scene 1 1 0 (blank 2 2))
    as [log [buf'|f|]] eqn:E; try (vm_compute in E; discriminate E).
  destruct (render_returns_only_painted sqrtQ powQ rotate0 floor_scene 1 1 0
              (blank 2 2) log buf' E) as (_ & _ & Hall).
  destruct (Hall 0%Z 0%Z) as (_ & _ & l & c & Ht & H0 & _ & _ & H3);
    [lia | lia |].
  exists log, buf', l, c. repeat split; assumption.
Defined.

Lemma small_buffer_is_an_index_error_witness :
  (buf_h (blank 0 0) < 1)%Z
  /\ snd (RT_render_scene sqrtQ powQ rotate0 floor_scene 1 1 0 (blank 0 0))
     = Fault IndexOutOfBounds.
Proof.
  split; [reflexivity|].
  apply (small_buffer_is_an_index_error sqrtQ powQ rotate0 floor_scene 1 1 0
           (blank 0 0)).
  - reflexivity.
  - reflexivity.
  - intros H. discriminate H.
  - exact tiny_frame_traces.
  - left. reflexivity.
Defined.

(** ** The render engine: what Blender sees of a render *)

Lemma ebind_done {A B} (l : list engine_event) (a : A) (k : A -> E B) :
  ebind (l, EDone a) k = (l ++ fst (k a), snd (k a)).
Proof. unfold ebind. destruct (k a); reflexivity. Qed.

Lemma ebind_eret_l {A B} (a : A) (k : A -> E B) : ebind (eret a) k = k a.
Proof. unfold eret. rewrite ebind_done. simpl. destruct (k a); reflexivity. Qed.

Lemma ebind_eemit {B} (e : engine_event) (k : unit -> E B) :
  ebind (eemit e) k = (e :: fst (k tt), snd (k tt)).
Proof. unfold eemit. rewrite ebind_done. reflexivity. Qed.

Lemma lift_done {A} (l : list event) (a : A) :
  lift (l, Done a) = (map EvRender l, EDone a).
Proof. reflexivity. Qed.

Lemma lift_ret {A} (a : A) : lift (ret a) = eret a.
Proof. reflexivity. Qed.

Lemma renders_app (l1 l2 : list engine_event) :
  renders (l1 ++ l2) = renders l1 ++ renders l2.
Proof. unfold renders. apply flat_map_app. Qed.

Lemma renders_lift (l : list event) : renders (map EvRender l) = l.
Proof.
  induction l as [|e l IH]; [reflexivity|].
  cbn [map]. unfold renders in *. cbn [flat_map app]. now rewrite IH.
Qed.

Lemma layer_rect_app (l1 l2 : list engine_event) :
  forall r, layer_rect (l1 ++ l2) r = layer_rect l2 (layer_rect l1 r).
Proof.
  induction l1 as [|e l1 IH]; intros r; [reflexivity|].
  destruct e; cbn [app layer_rect]; apply IH.
Qed.

Lemma layer_rect_lift (l : list event) (r : option (list (list Q))) :
  layer_rect (map EvRender l) r = r.
Proof. induction l as [|e l IH]; [reflexivity | exact IH]. Qed.

Lemma In_lift (e : engine_event) (l : list event) :
  In e (map EvRender l) -> exists e', e = EvRender e'.
Proof.
  intros H. apply in_map_iff in H. destruct H as (e' & <- & _). now exists e'.
Qed.

Lemma range_succ (n : Z) : (0 <= n)%Z -> range (n + 1) = range n ++ [n].
Proof.
  intros H. unfold range.
  replace (Z.to_nat (n + 1)) with (S (Z.to_nat n)) by lia.
  rewrite seq_S, map_app. cbn [map plus]. now rewrite Z2Nat.id by exact H.
Qed.

Lemma range_split (k h : Z) :
  (0 <= k < h)%Z ->
  exists rest, range h = range k ++ k :: rest /\ (k = (h - 1)%Z -> rest = []).
Proof.
  intros H. unfold range.
  replace (Z.to_nat h) with (Z.to_nat k + S (Z.to_nat (h - 1 - k)))%nat by lia.
  rewrite seq_app, map_app. cbn [plus seq map].
  rewrite Z2Nat.id by lia.
  eexists. split; [reflexivity|].
  intros ->. replace (Z.to_nat (h - 1 - (h - 1))) with 0%nat by lia.
  reflexivity.
Qed.

Lemma mod_succ (j c : Z) :
  (0 < c)%Z -> ((j + 1) mod c <> 0)%Z ->
  ((j + 1) mod c = j mod c + 1)%Z.
Proof.
  intros Hc Hn.
  pose proof (Z.mod_pos_bound j c Hc) as Hb.
  pose proof (Z.div_mod j c ltac:(lia)) as Hj.
  destruct (Z.eq_dec (j mod c + 1) c) as [E | E].
  - exfalso. apply Hn.
    replace (j + 1)%Z with ((j / c + 1) * c)%Z by nia.
    apply Z.mod_mul. lia.
  - symmetry. apply (Z.mod_unique_pos (j + 1) c (j / c)); lia.
Qed.

Lemma show_rows_buffer (color : Z -> Z -> Vector) (width height : Z)
    (ys : list Z) :
  forall s,
    fst (fold_left (show_row color width height) ys s)
    = fold_left (paint_row color width) ys (fst s).
Proof.
  induction ys as [|y ys IH]; intros s; [reflexivity|].
  cbn [fold_left]. now rewrite IH.
Qed.

(** The rect after the rows [0 .. j], in closed form. *)
Lemma show_rows_rect (color : Z -> Z -> Vector) (width height : Z)
    (b : Buffer) (r0 : option (list (list Q))) (j : nat) :
  (1 <= width <= 10000)%Z -> (Z.of_nat j < height)%Z ->
  snd (fold_left (show_row color width height) (range (Z.of_nat j + 1))
         (b, r0))
  = Some (tolist (fold_left (paint_row color width)
                    (range (last_update width height (Z.of_nat j) + 1)) b)).
Proof.
  intros Hw.
  assert (Hc : (0 < Z.quot 10000 width)%Z).
  { rewrite Z.quot_div_nonneg by lia.
    apply Z.div_str_pos. lia. }
  induction j as [|j IH]; intros Hj.
  - change (range (Z.of_nat 0 + 1)) with [0%Z]. cbn [fold_left].
    unfold show_row, updates, last_update. cbn [fst snd].
    rewrite Z.mod_0_l by lia. cbn [Z.eqb orb].
    change (Z.of_nat 0) with 0%Z. rewrite Z.mod_0_l by lia.
    destruct (0 =? height - 1)%Z; reflexivity.
  - replace (Z.of_nat (S j)) with (Z.of_nat j + 1)%Z by lia.
    rewrite (range_succ (Z.of_nat j + 1)) by lia.
    rewrite fold_left_app. cbn [fold_left].
    set (s := fold_left (show_row color width height)
                (range (Z.of_nat j + 1)) (b, r0)) in *.
    unfold show_row at 1. cbn [snd].
    assert (Hb : fst s = fold_left (paint_row color width)
                           (range (Z.of_nat j + 1)) b)
      by (unfold s; now rewrite show_rows_buffer).
    destruct (updates width height (Z.of_nat j + 1)) eqn:Hu.
    + rewrite Hb.
      replace (last_update width height (Z.of_nat j + 1))
        with (Z.of_nat j + 1)%Z.
      * rewrite (range_succ (Z.of_nat j + 1)) by lia.
        now rewrite fold_left_app.
      * unfold last_update, updates in *.
        destruct (Z.eqb_spec (Z.of_nat j + 1) (height - 1)); [reflexivity|].
        rewrite orb_false_r in Hu. apply Z.eqb_eq in Hu. lia.
    + rewrite IH by lia.
      replace (last_update width height (Z.of_nat j + 1))
        with (last_update width height (Z.of_nat j)); [reflexivity|].
      unfold last_update, updates in *.
      apply orb_false_iff in Hu. destruct Hu as [Hm Hl].
      rewrite Hl. apply Z.eqb_neq in Hm.
      destruct (Z.eqb_spec (Z.of_nat j) (height - 1)); [lia|].
      rewrite (mod_succ _ _ Hc Hm). lia.
Qed.

Section EngineRuns.

Variable sqrt : Q -> Q.
Variable fpow : Q -> Q -> Q.
Variable rotate : Euler -> Vector -> Vector.
Variable test_break : Z -> bool.
Variable scene : Scene.
Variables width height depth : Z.

Local Abbreviation lights := (lights_of (objects scene)).
Local Abbreviation cam := (cam_location (camera scene)).
Local Abbreviation orientation := (rotation_euler (camera scene)).
Local Abbreviation focal_length :=
  (lens (camera scene) / sensor_width (camera scene)).
Local Abbreviation aspect_ratio := (inject_Z height / inject_Z width).
Local Abbreviation trace_of :=
  (pixel_trace sqrt fpow rotate scene width height depth).
Local Abbreviation colors := (fun y x => color_of (trace_of y x)).
Local Abbreviation row :=
  (render_row sqrt fpow rotate scene width height depth lights cam
     orientation focal_length aspect_ratio).
Local Abbreviation loop :=
  (render_loop sqrt fpow rotate test_break scene width height depth
     (Z.quot 10000 width) lights cam orientation focal_length aspect_ratio).

(** One turn of the loop whose row renders. *)
Lemma render_loop_turn (y : Z) (rest : list Z) (b : Buffer)
    (l : list event) (b1 : Buffer) :
  row y b = (l, Done b1) ->
  height <> 0%Z -> Z.quot 10000 width <> 0%Z ->
  loop (y :: rest) b
  = (map EvRender l
     ++ EvProgress (inject_Z y / inject_Z height)
     :: (if updates width height y
         then [EvUpdateResult; EvRect (tolist b1)] else [])
     ++ EvTestBreak (test_break y)
     :: fst (if test_break y then eret tt else loop rest b1),
     snd (if test_break y then eret tt else loop rest b1)).
Proof.
  intros Hr Hh Hc. cbn [render_loop]. rewrite Hr, lift_done, ebind_done.
  cbv beta.
  rewrite qdiv_nonzero by (now apply inject_Z_nonzero).
  rewrite lift_ret, ebind_eret_l, ebind_eemit.
  unfold int_mod. apply Z.eqb_neq in Hc. rewrite Hc.
  rewrite ebind_eret_l. fold (updates width height y).
  cbv zeta.
  destruct (updates width height y).
  - unfold eemit at 1 2. rewrite ebind_done. cbn [fst snd app].
    rewrite ebind_done, ebind_eemit. reflexivity.
  - rewrite ebind_eret_l, ebind_eemit. reflexivity.
Qed.

(** The loop stops after row [k]: Blender asks for it there, or the
    generator has no row left. *)
Lemma render_loop_stops (k : Z) (rest : list Z) (pre : list Z) :
  (1 <= width <= 10000)%Z ->
  (test_break k = true \/ rest = []) ->
  forall b,
    (forall y, In y pre -> test_break y = false) ->
    (forall y, In y (pre ++ [k]) ->
               (0 <= y < height)%Z
               /\ forall x, (0 <= x < width)%Z ->
                            exists l c, trace_of y x = (l, Done c)) ->
    (height <= buf_h b)%Z -> (width <= buf_w b)%Z ->
    exists elog,
      loop (pre ++ k :: rest) b = (elog, EDone tt)
      /\ renders elog = flat_map (row_log trace_of width) (pre ++ [k])
      /\ ~ In EvEndResult elog
      /\ forall r0,
          layer_rect elog r0
          = snd (fold_left (show_row colors width height) (pre ++ [k])
                   (b, r0)).
Proof.
  intros Hw Hstop.
  assert (Hc : Z.quot 10000 width <> 0%Z).
  { rewrite Z.quot_div_nonneg by lia.
    pose proof (Z.div_str_pos 10000 width). lia. }
  induction pre as [|y pre IH]; intros b Hpre Hrows Hbh Hbw.
  - cbn [app] in *.
    destruct (Hrows k (or_introl eq_refl)) as [Hk Ht].
    rewrite (render_loop_turn k rest b _ _
               (render_row_done sqrt fpow rotate scene width height depth k b
                  ltac:(lia) Hk Hbh Hbw Ht)) by lia.
    match goal with
    | |- context [snd ?t] =>
        replace t with (@eret unit tt)
          by (destruct Hstop as [-> | ->];
              [reflexivity | destruct (test_break k); reflexivity])
    end.
    cbn [eret fst snd].
    eexists. split; [reflexivity|]. split; [|split].
    + rewrite renders_app, renders_lift. cbn [flat_map].
      rewrite app_nil_r.
      destruct (updates width height k); cbn [renders flat_map app];
        now rewrite app_nil_r.
    + intros H. apply in_app_or in H. destruct H as [H | H].
      * apply In_lift in H. destruct H as [e' H]. discriminate H.
      * destruct (updates width height k); cbn in H;
          repeat (destruct H as [H | H]; [discriminate H|]); exact H.
    + intros r0. rewrite layer_rect_app, layer_rect_lift.
      cbn [fold_left]. unfold show_row. cbn [fst snd].
      destruct (updates width height k); reflexivity.
  - cbn [app] in *.
    destruct (Hrows y (or_introl eq_refl)) as [Hy Ht].
    rewrite (render_loop_turn y (pre ++ k :: rest) b _ _
               (render_row_done sqrt fpow rotate scene width height depth y b
                  ltac:(lia) Hy Hbh Hbw Ht)) by lia.
    rewrite (Hpre y (or_introl eq_refl)).
    destruct (paint_xs_shape (fun x => color_of (trace_of y x)) y
                (range width) b) as [Eh Ew].
    destruct (IH (paint_row colors width b y)) as (elog & E & Hr & He & Hl).
    + intros y0 H0. apply Hpre. now right.
    + intros y0 H0. apply Hrows. now right.
    + unfold paint_row. now rewrite Eh.
    + unfold paint_row. now rewrite Ew.
    + rewrite E. cbn [fst snd].
      eexists. split; [reflexivity|]. split; [|split].
      * rewrite renders_app, renders_lift. cbn [flat_map]. f_equal.
        rewrite <- Hr.
        destruct (updates width height y); reflexivity.
      * intros H. apply in_app_or in H. destruct H as [H | H].
        -- apply In_lift in H. destruct H as [e' H]. discriminate H.
        -- destruct (updates width height y); cbn in H;
             repeat (destruct H as [H | H]; [discriminate H|]);
             now apply He.
      * intros r0. rewrite layer_rect_app, layer_rect_lift.
        cbn [fold_left]. unfold show_row at 2. cbn [fst snd].
        destruct (updates width height y); cbn [layer_rect app];
          apply Hl.
Qed.

(** One turn of the loop when [update_cycle] is zero. *)
Lemma render_loop_without_cycle (focal aspect : Q) (y : Z) (rest : list Z)
    (b : Buffer) :
  height <> 0%Z ->
  render_loop sqrt fpow rotate test_break scene width height depth 0 lights
    cam orientation focal aspect (y :: rest) b
  = match render_row sqrt fpow rotate scene width height depth lights cam
            orientation focal aspect y b with
    | (l, Done _) =>
        (map EvRender l ++ [EvProgress (inject_Z y / inject_Z height)],
         EFault (Raised DivByZero))
    | (l, Fault f) => (map EvRender l, EFault (Raised f))
    | (l, OutOfFuel) => (map EvRender l, EOutOfFuel)
    end.
Proof.
  intros Hh. cbn [render_loop].
  destruct (render_row _ _ _ _ _ _ _ _ _ _ _ _ _ _) as [l [b1|f|]];
    try reflexivity.
  rewrite lift_done, ebind_done. cbv beta.
  rewrite qdiv_nonzero by (now apply inject_Z_nonzero).
  rewrite lift_ret, ebind_eret_l, ebind_eemit.
  reflexivity.
Qed.

Local Abbreviation engine :=
  (render_scene sqrt fpow rotate test_break scene width height depth).

(** X12. Frames that are never finished.  A negative size is refused by
    numpy before anything is told to Blender.  A width of zero divides by
    zero in [int(10000 / width)], right after [begin_result].  A width
    above 10000 makes [update_cycle] zero: the engine never returns, never
    assigns [layer.rect] and never calls [end_result]; if the first row
    renders, the engine reports its progress and stops at
    [y % update_cycle] with a division by zero. *)
Theorem frames_that_are_never_finished :
  ((width < 0 \/ height < 0)%Z -> engine = ([], EFault ValueError))
  /\ (width = 0%Z -> (0 <= height)%Z ->
      engine
      = ([EvBeginResult 0 0 width height], EFault (Raised DivByZero)))
  /\ ((10000 < width)%Z -> (0 < height)%Z ->
      snd engine <> EDone tt
      /\ ~ In EvEndResult (fst engine)
      /\ (forall r, layer_rect (fst engine) r = r)
      /\ (~ sensor_width (camera scene) == 0 ->
          (forall x, (0 <= x < width)%Z ->
                     exists l c, trace_of 0 x = (l, Done c)) ->
          engine
          = (EvBeginResult 0 0 width height
             :: map EvRender (row_log trace_of width 0)
             ++ [EvProgress (inject_Z 0 / inject_Z height)],
             EFault (Raised DivByZero)))).
Proof.
  split; [|split].
  - intros H. unfold render_scene, np_zeros.
    replace ((height <? 0) || (width <? 0))%Z with true; [reflexivity|].
    symmetry. apply orb_true_iff. rewrite !Z.ltb_lt. tauto.
  - intros -> Hh. unfold render_scene, np_zeros.
    replace (height <? 0)%Z with false by (symmetry; apply Z.ltb_ge; lia).
    reflexivity.
  - intros Hw Hh.
    destruct (range_split 0 height ltac:(lia)) as (rest & Er & _).
    change (range 0) with (@nil Z) in Er. cbn [app] in Er.
    assert (E0 : engine
                 = ebind (eemit (EvBeginResult 0 0 width height))
                     (fun _ =>
                        focal <-- lift (qdiv (lens (camera scene))
                                          (sensor_width (camera scene))) ;;
                        aspect <-- lift (qdiv (inject_Z height)
                                           (inject_Z width)) ;;
                        render_loop sqrt fpow rotate test_break scene width
                          height depth 0 lights cam orientation focal aspect
                          (0%Z :: rest) (blank height width) ;;>
                        eemit EvEndResult)).
    { unfold render_scene, np_zeros, int_div.
      replace (height <? 0)%Z with false by (symmetry; apply Z.ltb_ge; lia).
      replace (width <? 0)%Z with false by (symmetry; apply Z.ltb_ge; lia).
      replace (width =? 0)%Z with false by (symmetry; apply Z.eqb_neq; lia).
      cbn [orb]. rewrite ebind_eret_l, ebind_eemit. cbv beta.
      rewrite ebind_eret_l, Z.quot_small by lia.
      rewrite Er, ebind_eemit. reflexivity. }
    rewrite E0. clear E0.
    rewrite (qdiv_nonzero (inject_Z height) (inject_Z width))
      by (apply inject_Z_nonzero; lia).
    destruct (Qeq_bool (sensor_width (camera scene)) 0) eqn:Es.
    + assert (Hq : qdiv (lens (camera scene)) (sensor_width (camera scene))
                   = raise DivByZero)
        by (unfold qdiv; now rewrite Es).
      rewrite Hq. cbn.
      split; [congruence|]. split; [|split].
      * intros [H | []]. discriminate H.
      * reflexivity.
      * intros Hn. exfalso. apply Hn. now apply Qeq_bool_iff.
    + assert (Hq : qdiv (lens (camera scene)) (sensor_width (camera scene))
                   = ret focal_length)
        by (unfold qdiv; now rewrite Es).
      rewrite Hq, !lift_ret, ebind_eemit. cbv beta.
      rewrite !ebind_eret_l.
      rewrite render_loop_without_cycle by lia.
      destruct (render_row sqrt fpow rotate scene width height depth lights
                  cam orientation focal_length aspect_ratio 0
                  (blank height width)) as [l o] eqn:Erow.
      split; [|split; [|split]].
      * destruct o as [b1|f|]; cbn; congruence.
      * destruct o as [b1|f|];
          cbn [ebind fst snd]; intros [H | H]; try discriminate H;
          try (apply in_app_or in H; destruct H as [H | H]);
          try (apply In_lift in H; destruct H as [e' H]; discriminate H);
          try (destruct H as [H | []]; discriminate H).
      * intros r.
        destruct o as [b1|f|];
          cbn [ebind fst snd layer_rect];
          rewrite ?layer_rect_app, layer_rect_lift; reflexivity.
      * intros _ Ht.
        rewrite (render_row_done sqrt fpow rotate scene width height depth 0
                   (blank height width)) in Erow by
          (try exact Ht; cbn [blank buf_h buf_w]; lia).
        inversion Erow. subst. reflexivity.
Qed.

(** The engine stops after row [k]: Blender asks for it there, or [k] is
    the last row. *)
Lemma render_scene_stops (k : Z) :
  (1 <= width <= 10000)%Z -> (0 <= k < height)%Z ->
  (forall y, (0 <= y < k)%Z -> test_break y = false) ->
  (test_break k = true \/ k = (height - 1)%Z) ->
  ~ sensor_width (camera scene) == 0 ->
  (forall y x, (0 <= y <= k)%Z -> (0 <= x < width)%Z ->
               exists l c, trace_of y x = (l, Done c)) ->
  exists mid,
    engine = (EvBeginResult 0 0 width height :: mid ++ [EvEndResult],
              EDone tt)
    /\ renders mid = flat_map (row_log trace_of width) (range (k + 1))
    /\ ~ In EvEndResult mid
    /\ forall r0,
        layer_rect mid r0
        = Some (tolist
                  (fold_left (paint_row colors width)
                     (range (last_update width height k + 1))
                     (blank height width))).
Proof.
  intros Hw Hk Hpre Hstop Hs Ht.
  destruct (range_split k height Hk) as (rest & Er & Hlast).
  destruct (render_loop_stops k rest (range k) Hw) with
    (b := blank height width) as (mid & E & Hr & He & Hl).
  - destruct Hstop as [H | H]; [now left | right; now apply Hlast].
  - intros y Hy. apply Hpre. now apply range_In.
  - intros y Hy. rewrite <- range_succ in Hy by lia.
    apply range_In in Hy.
    split; [lia|]. intros x Hx. apply Ht; lia.
  - cbn [blank buf_h]. lia.
  - cbn [blank buf_w]. lia.
  - exists mid. rewrite <- range_succ in Hr, Hl by lia.
    split; [|split; [exact Hr | split; [exact He|]]].
    + unfold render_scene, np_zeros, int_div.
      replace (height <? 0)%Z with false by (symmetry; apply Z.ltb_ge; lia).
      replace (width <? 0)%Z with false by (symmetry; apply Z.ltb_ge; lia).
      replace (width =? 0)%Z with false by (symmetry; apply Z.eqb_neq; lia).
      cbn [orb]. rewrite ebind_eret_l, ebind_eemit. cbv beta.
      rewrite ebind_eret_l.
      rewrite qdiv_nonzero by exact Hs.
      rewrite lift_ret, ebind_eret_l.
      rewrite qdiv_nonzero by (apply inject_Z_nonzero; lia).
      rewrite lift_ret, ebind_eret_l.
      rewrite Er. change (mkBuffer height width (fun _ _ _ => 0))
        with (blank height width).
      rewrite E, ebind_done. reflexivity.
    + intros r0. rewrite Hl.
      replace k with (Z.of_nat (Z.to_nat k)) by lia.
      apply show_rows_rect; lia.
Qed.

Lemma renders_engine (mid : list engine_event) (a b c d : Z) :
  renders (EvBeginResult a b c d :: mid ++ [EvEndResult]) = renders mid.
Proof.
  change (EvBeginResult a b c d :: mid ++ [EvEndResult])
    with ([EvBeginResult a b c d] ++ mid ++ [EvEndResult]).
  rewrite !renders_app. cbn [renders flat_map app]. now rewrite app_nil_r.
Qed.

Lemma layer_rect_engine (mid : list engine_event) (a b c d : Z)
    (r : option (list (list Q))) :
  layer_rect (EvBeginResult a b c d :: mid ++ [EvEndResult]) r
  = layer_rect mid r.
Proof. cbn [layer_rect]. now rewrite layer_rect_app. Qed.

(** X13. A render that is cancelled stops at once and shows the last
    update.  When [test_break] answers for the first time after row [k],
    and the rows up to [k] render, the engine returns without an
    exception after [end_result]; the generator has rendered the rows
    [0 .. k] and no other, and [layer.rect] holds the buffer as it was
    after the last update: the rows up to [k - k % update_cycle] ([k]
    itself if it is the last row of the frame) are painted, the rows
    that were rendered after it are not shown. *)
Theorem cancelled_render_shows_the_last_update (k : Z)
    (r0 : option (list (list Q))) :
  (1 <= width <= 10000)%Z -> (0 <= k < height)%Z ->
  (forall y, (0 <= y < k)%Z -> test_break y = false) ->
  test_break k = true ->
  ~ sensor_width (camera scene) == 0 ->
  (forall y x, (0 <= y <= k)%Z -> (0 <= x < width)%Z ->
               exists l c, trace_of y x = (l, Done c)) ->
  snd engine = EDone tt
  /\ renders (fst engine)
     = flat_map (row_log trace_of width) (range (k + 1))
  /\ layer_rect (fst engine) r0
     = Some (tolist
               (fold_left (paint_row colors width)
                  (range (last_update width height k + 1))
                  (blank height width)))
  /\ exists mid,
      fst engine = EvBeginResult 0 0 width height :: mid ++ [EvEndResult]
      /\ ~ In EvEndResult mid.
Proof.
  intros Hw Hk Hpre Hb Hs Ht.
  destruct (render_scene_stops k Hw Hk Hpre (or_introl Hb) Hs Ht)
    as (mid & E & Hr & He & Hl).
  rewrite E. cbn [fst snd].
  rewrite renders_engine, layer_rect_engine.
  split; [reflexivity|]. split; [exact Hr|]. split; [apply Hl|].
  now exists mid.
Qed.

(** A frame that returns, in closed form. *)
Lemma render_returned_frame (log : list event) (buf buf' : Buffer) :
  (0 < width)%Z ->
  RT_render_scene sqrt fpow rotate scene width height depth buf
  = (log, Done buf') ->
  log = frame_log trace_of width height
  /\ buf' = paint_frame colors width height buf.
Proof.
  intros Hw H.
  destruct (render_returned sqrt fpow rotate scene width height depth buf log
              buf' H) as (Hs & _ & Hall).
  assert (Hrun : RT_render_scene sqrt fpow rotate scene width height depth buf
                 = (frame_log trace_of width height,
                    Done (paint_frame colors width height buf))).
  { destruct (Z_le_gt_dec height 0) as [Hh | Hh].
    - unfold RT_render_scene, frame_log, paint_frame.
      rewrite qdiv_nonzero by exact Hs. rewrite bind_ret_l.
      rewrite (qdiv_nonzero (inject_Z height) (inject_Z width))
        by (apply inject_Z_nonzero; lia).
      rewrite bind_ret_l. unfold range.
      replace (Z.to_nat height) with 0%nat by lia. reflexivity.
    - assert (Hlast : in_bounds buf (height - 1) (width - 1) = true)
        by (apply Hall; lia).
      unfold in_bounds in Hlast.
      rewrite !andb_true_iff, !Z.leb_le, !Z.ltb_lt in Hlast.
      unfold RT_render_scene.
      rewrite qdiv_nonzero by exact Hs. rewrite bind_ret_l.
      rewrite (qdiv_nonzero (inject_Z height) (inject_Z width))
        by (apply inject_Z_nonzero; lia).
      rewrite bind_ret_l.
      apply render_rows_done; try lia.
      + intros y0 Hy0. now apply range_In.
      + intros y0 x0 Hy0 Hx0. now apply Hall. }
  rewrite H in Hrun. inversion Hrun. now split.
Qed.

(** X14. A render that is not cancelled shows the frame of the
    generator.  For a width from 1 to 10000, when [test_break] never
    answers before the last row and [RT_render_scene] on a fresh buffer
    returns, the engine returns without an exception after [end_result];
    the generator has produced under the engine the events that it
    produces alone, and [layer.rect] holds the buffer that it returns
    (the last row always updates the result); with no row, [layer.rect]
    is left as it was. *)
Theorem complete_render_shows_the_frame (log : list event) (buf' : Buffer)
    (r0 : option (list (list Q))) :
  (1 <= width <= 10000)%Z -> (0 <= height)%Z ->
  (forall y, (0 <= y < height - 1)%Z -> test_break y = false) ->
  RT_render_scene sqrt fpow rotate scene width height depth
    (blank height width) = (log, Done buf') ->
  snd engine = EDone tt
  /\ renders (fst engine) = log
  /\ layer_rect (fst engine) r0
     = (if (height =? 0)%Z then r0 else Some (tolist buf'))
  /\ exists mid,
      fst engine = EvBeginResult 0 0 width height :: mid ++ [EvEndResult]
      /\ ~ In EvEndResult mid.
Proof.
  intros Hw Hh Hpre H.
  destruct (render_returned sqrt fpow rotate scene width height depth _ log
              buf' H) as (Hs & _ & Hall).
  destruct (render_returned_frame log _ buf' ltac:(lia) H) as [-> ->].
  destruct (Z.eqb_spec height 0) as [E0 | E0].
  - assert (E : engine
                = ([EvBeginResult 0 0 width height; EvEndResult], EDone tt)).
    { unfold render_scene, np_zeros, int_div.
      replace (height <? 0)%Z with false by (symmetry; apply Z.ltb_ge; lia).
      replace (width <? 0)%Z with false by (symmetry; apply Z.ltb_ge; lia).
      replace (width =? 0)%Z with false by (symmetry; apply Z.eqb_neq; lia).
      cbn [orb]. rewrite ebind_eret_l, ebind_eemit. cbv beta.
      rewrite ebind_eret_l.
      rewrite qdiv_nonzero by exact Hs.
      rewrite lift_ret, ebind_eret_l.
      rewrite qdiv_nonzero by (apply inject_Z_nonzero; lia).
      rewrite lift_ret, ebind_eret_l.
      unfold range. replace (Z.to_nat height) with 0%nat by lia.
      reflexivity. }
    rewrite E. cbn [fst snd].
    split; [reflexivity|]. split; [|split].
    + unfold frame_log, range.
      replace (Z.to_nat height) with 0%nat by lia. reflexivity.
    + reflexivity.
    + exists []. split; [reflexivity | intros []].
  - destruct (render_scene_stops (height - 1)%Z Hw ltac:(lia) Hpre
                (or_intror eq_refl) Hs) as (mid & E & Hr & He & Hl).
    + intros y x Hy Hx. apply Hall; lia.
    + rewrite E. cbn [fst snd].
      rewrite renders_engine, layer_rect_engine.
      split; [reflexivity|]. split; [|split].
      * rewrite Hr. replace (height - 1 + 1)%Z with height by lia.
        reflexivity.
      * rewrite Hl. unfold last_update. rewrite Z.eqb_refl.
        replace (height - 1 + 1)%Z with height by lia. reflexivity.
      * now exists mid.
Qed.

End EngineRuns.

Lemma two_rows_trace (y x : Z) :
  (0 <= y <= 1)%Z -> (0 <= x < 1)%Z ->
  exists l c,
    pixel_trace sqrtQ powQ rotate0 floor_scene 1 3 0 y x = (l, Done c).
Proof.
  intros Hy Hx.
  assert (Ex : x = 0%Z) by lia.
  assert (Ey : y = 0%Z \/ y = 1%Z) by lia.
  destruct Ey; subst; eexists; eexists; vm_compute; reflexivity.
Qed.

Lemma frames_that_are_never_finished_witness :
  render_scene sqrtQ powQ rotate0 (fun _ => false) floor_scene (-1) 2 0
  = ([], EFault ValueError)
  /\ render_scene sqrtQ powQ rotate0 (fun _ => false) floor_scene 0 2 0
     = ([EvBeginResult 0 0 0 2], EFault (Raised DivByZero))
  /\ snd (render_scene sqrtQ powQ rotate0 (fun _ => false) floor_scene
            10001 1 0) <> EDone tt.
Proof.
  split; [|split].
  - apply (proj1 (frames_that_are_never_finished sqrtQ powQ rotate0
                    (fun _ => false) floor_scene (-1) 2 0)).
    left. lia.
  - apply (proj1 (proj2 (frames_that_are_never_finished sqrtQ powQ rotate0
                           (fun _ => false) floor_scene 0 2 0)));
      [reflexivity | lia].
  - assert (Hw : (10000 < 10001)%Z) by reflexivity.
    assert (Hh : (0 < 1)%Z) by reflexivity.
    exact (proj1 (proj2 (proj2 (frames_that_are_never_finished sqrtQ powQ
                                  rotate0 (fun _ => false) floor_scene
                                  10001 1 0)) Hw Hh)).
Defined.

Lemma cancelled_render_shows_the_last_update_witness :
  last_update 1 3 1 = 0%Z
  /\ snd (render_scene sqrtQ powQ rotate0 (Z.eqb 1) floor_scene 1 3 0)
     = EDone tt
  /\ layer_rect
       (fst (render_scene sqrtQ powQ rotate0 (Z.eqb 1) floor_scene 1 3 0))
       None
     = Some (tolist
               (fold_left
                  (paint_row
                     (fun y x =>
                        color_of (pixel_trace sqrtQ powQ rotate0 floor_scene
                                    1 3 0 y x)) 1)
                  (range (last_update 1 3 1 + 1)) (blank 3 1))).
Proof.
  split; [reflexivity|].
  destruct (cancelled_render_shows_the_last_update sqrtQ powQ rotate0
              (Z.eqb 1) floor_scene 1 3 0 1 None) as (H1 & _ & H3 & _).
  - lia.
  - lia.
  - intros y Hy. assert (E : y = 0%Z) by lia. subst y. reflexivity.
  - reflexivity.
  - intros H. discriminate H.
  - exact two_rows_trace.
  - split; [exact H1 | exact H3].
Defined.

Lemma complete_render_shows_the_frame_witness :
  exists log buf',
    RT_render_scene sqrtQ powQ rotate0 floor_scene 1 1 0 (blank 1 1)
    = (log, Done buf')
    /\ snd (render_scene sqrtQ powQ rotate0 (fun _ => false) floor_scene
              1 1 0) = EDone tt
    /\ renders (fst (render_scene sqrtQ powQ rotate0 (fun _ => false)
                       floor_scene 1 1 0)) = log
    /\ layer_rect (fst (render_scene sqrtQ powQ rotate0 (fun _ => false)
                          floor_scene 1 1 0)) None
       = Some (tolist buf').
Proof.
  destruct (RT_render_scene sqrtQ powQ rotate0 floor_scene 1 1 0 (blank 1 1))
    as [log [buf'|f|]] eqn:E; try (vm_compute in E; discriminate E).
  destruct (complete_render_shows_the_frame sqrtQ powQ rotate0
              (fun _ => false) floor_scene 1 1 0 log buf' None)
    as (H1 & H2 & H3 & _).
  - lia.
  - lia.
  - reflexivity.
  - exact E.
  - exists log, buf'. repeat split; assumption.
Defined.
